(** * Schedule lowering (ScheduleFunctions.cpp): a shallow embedding

    The statement tree, the schedule data model and the passes of
    [src/ScheduleFunctions.cpp] are embedded as Rocq definitions; the
    properties of the lowering pass are stated and proved about them.

    Conventions.
    - An undefined [Stmt()] or [Expr()] of the source is [None].
    - [internal_assert] and [user_error] abort the pass; a function that can
      hit one returns [option] (internal) or [Result] (user diagnostics).
    - [std::map] is [gmap], [std::set] is [gset], [std::vector] is [list].
    - Helpers that live outside this file of the source (simplifier,
      substitution, split application, loop-level matching ...) are the
      fields of the class [Helpers]; every definition is parametric in them. *)

From Stdlib Require Import ZArith Ascii String DecimalString DecimalNat.
From stdpp Require Import base option list gmap strings.

Local Open Scope string_scope.
Local Open Scope list_scope.
Local Open Scope stdpp_scope.
Set Warnings "-register-all".


(* ===================================================================== *)
(** ** Strings (Util.h) *)

Module Str.

  (** [starts_with(str, prefix)] *)
Fixpoint starts_with (str pre : string) : bool :=
    match pre, str with
    | EmptyString, _ => true
    | String c pre', String d str' => Ascii.eqb c d && starts_with str' pre'
    | String _ _, EmptyString => false
    end.

  (** [ends_with(str, suffix)]: [suffix] is what is left of [str] after
      dropping some leading characters. *)
Fixpoint ends_with (str suffix : string) : bool :=
    String.eqb str suffix ||
    match str with
    | EmptyString => false
    | String _ str' => ends_with str' suffix
    end.

Definition is_dot (c : ascii) : bool := Ascii.eqb c ".".

  (** [s.find('.') == npos] *)
Fixpoint no_dot (s : string) : bool :=
    match s with
    | EmptyString => true
    | String c s' => negb (is_dot c) && no_dot s'
    end.

  (** [split_string(source, ".")]: the pieces between the dots; a trailing
      dot yields a final empty piece. *)
Fixpoint split_string (s : string) : list string :=
    match s with
    | EmptyString => [EmptyString]
    | String c s' =>
        if is_dot c then EmptyString :: split_string s'
        else match split_string s' with
             | h :: t => String c h :: t
             | [] => [String c EmptyString]
             end
    end.

  (** [s.substr(0, s.find('.'))]: everything before the first dot, and
      whether a dot was found. *)
Fixpoint before_first_dot (s : string) : option string :=
    match s with
    | EmptyString => None
    | String c s' =>
        if is_dot c then Some EmptyString
        else String c <$> before_first_dot s'
    end.

  (** Splitting at the last dot: [(s.substr(0, k), s.substr(k + 1))] for
      [k = s.rfind('.')], or [None] when there is no dot. *)
Fixpoint split_last_dot (s : string) : option (string * string) :=
    match s with
    | EmptyString => None
    | String c s' =>
        match split_last_dot s' with
        | Some (a, b) => Some (String c a, b)
        | None => if is_dot c then Some (EmptyString, s') else None
        end
    end.

  (** [std::to_string] on an unsigned number. *)
Definition to_string (n : nat) : string :=
    NilEmpty.string_of_uint (Nat.to_uint n).

Definition digit_of (c : ascii) : option nat :=
    let n := nat_of_ascii c in
    if (48 <=? n)%nat && (n <=? 57)%nat then Some (n - 48)%nat else None.

  (** [str.find_first_not_of("0123456789") == npos] *)
Fixpoint has_only_digits (s : string) : bool :=
    match s with
    | EmptyString => true
    | String c s' => bool_decide (is_Some (digit_of c)) && has_only_digits s'
    end.

  (** [atoi] on a string of digits (the only use in the source); the
      32-bit overflow of [atoi] is outside the model. *)
Fixpoint atoi_acc (s : string) (acc : nat) : nat :=
    match s with
    | EmptyString => acc
    | String c s' =>
        match digit_of c with
        | Some d => atoi_acc s' (10 * acc + d)
        | None => acc
        end
    end.

Definition atoi (s : string) : nat := atoi_acc s 0.

  (** [s.substr(1, s.size() - 1)] *)
Definition tail (s : string) : string :=
    match s with
    | EmptyString => EmptyString
    | String _ s' => s'
    end.

  (** [s.substr(0, 1)] *)
Definition head (s : string) : string :=
    match s with
    | EmptyString => EmptyString
    | String c _ => String c EmptyString
    end.

End Str.

(* ===================================================================== *)
(** ** The IR surface (IR.h): expressions and statements *)

Inductive Type_ : Type :=
| Int_ (bits : nat)
| UInt_ (bits : nat)
| Float_ (bits : nat)
| Handle_.

Definition Bool_ : Type_ := UInt_ 1.

Definition is_handle (t : Type_) : bool :=
  match t with Handle_ => true | _ => false end.

Inductive ForType : Type := Serial | Parallel | Vectorized | Unrolled.

Inductive DeviceAPI : Type :=
| DeviceNone | Host | Default_GPU | CUDA | OpenCL | GLSL
| OpenGLCompute | Metal | Hexagon.

Inductive CallType : Type :=
| Image | Extern | ExternCPlusPlus | PureExtern | Halide
| Intrinsic | PureIntrinsic.

Inductive BinOp : Type :=
| Add | Sub | Mul | Div | Mod | Min | Max
| EQ | NE | LT | LE | GT | GE | And | Or.

Inductive Expr : Type :=
| IntImm (t : Type_) (value : Z)
| UIntImm (t : Type_) (value : Z)
| StringImm (value : string)
| Variable_ (t : Type_) (name : string)
| Binary (op : BinOp) (a b : Expr)
| Not (a : Expr)
| Select (condition true_value false_value : Expr)
| Let_ (name : string) (value body : Expr)
| Call (t : Type_) (name : string) (args : list Expr)
       (call_type : CallType) (value_index : nat).

Inductive Stmt : Type :=
| LetStmt (name : string) (value : Expr) (body : Stmt)
| AssertStmt (condition message : Expr)
| ProducerConsumer (name : string) (is_producer : bool) (body : Stmt)
| For (name : string) (min extent : Expr) (for_type : ForType)
      (device_api : DeviceAPI) (body : Stmt)
| Provide (name : string) (values args : list Expr)
| Realize (name : string) (types : list Type_) (bounds : list (Expr * Expr))
          (condition : Expr) (body : Stmt)
| Block (first rest : Stmt)
| IfThenElse (condition : Expr) (then_case : Stmt) (else_case : option Stmt)
| Evaluate (value : Expr).

#[global] Instance Type_eq_dec : EqDecision Type_.
Proof. solve_decision. Defined.
#[global] Instance ForType_eq_dec : EqDecision ForType.
Proof. solve_decision. Defined.
#[global] Instance DeviceAPI_eq_dec : EqDecision DeviceAPI.
Proof. solve_decision. Defined.
#[global] Instance CallType_eq_dec : EqDecision CallType.
Proof. solve_decision. Defined.
#[global] Instance BinOp_eq_dec : EqDecision BinOp.
Proof. solve_decision. Defined.

(** Induction over expressions that reaches the arguments of a call. *)
Section ExprInd.
Variable P : Expr -> Prop.
Hypothesis HInt : forall t v, P (IntImm t v).
Hypothesis HUInt : forall t v, P (UIntImm t v).
Hypothesis HStr : forall s, P (StringImm s).
Hypothesis HVar : forall t n, P (Variable_ t n).
Hypothesis HBin : forall op a b, P a -> P b -> P (Binary op a b).
Hypothesis HNot : forall a, P a -> P (Not a).
Hypothesis HSel : forall c t f, P c -> P t -> P f -> P (Select c t f).
Hypothesis HLet : forall n v b, P v -> P b -> P (Let_ n v b).
Hypothesis HCall : forall t n args ct vi,
      Forall P args -> P (Call t n args ct vi).

Fixpoint Expr_ind' (e : Expr) : P e :=
    match e with
    | IntImm t v => HInt t v
    | UIntImm t v => HUInt t v
    | StringImm s => HStr s
    | Variable_ t n => HVar t n
    | Binary op a b => HBin op a b (Expr_ind' a) (Expr_ind' b)
    | Not a => HNot a (Expr_ind' a)
    | Select c t f => HSel c t f (Expr_ind' c) (Expr_ind' t) (Expr_ind' f)
    | Let_ n v b => HLet n v b (Expr_ind' v) (Expr_ind' b)
    | Call t n args ct vi =>
        HCall t n args ct vi
          ((fix go (l : list Expr) : Forall P l :=
              match l with
              | [] => Forall_nil_2 P
              | x :: l' => Forall_cons_2 P x l' (Expr_ind' x) (go l')
              end) args)
    end.
End ExprInd.

(** Induction over statements that reaches an optional else branch. *)
Section StmtInd.
Variable P : Stmt -> Prop.
Hypothesis HLetStmt : forall n v b, P b -> P (LetStmt n v b).
Hypothesis HAssert : forall c m, P (AssertStmt c m).
Hypothesis HPC : forall n p b, P b -> P (ProducerConsumer n p b).
Hypothesis HFor : forall n mn ex ft api b, P b -> P (For n mn ex ft api b).
Hypothesis HProvide : forall n vs args, P (Provide n vs args).
Hypothesis HRealize : forall n ts bs c b, P b -> P (Realize n ts bs c b).
Hypothesis HBlock : forall a b, P a -> P b -> P (Block a b).
Hypothesis HIf1 : forall c t, P t -> P (IfThenElse c t None).
Hypothesis HIf2 : forall c t e, P t -> P e -> P (IfThenElse c t (Some e)).
Hypothesis HEval : forall v, P (Evaluate v).

Fixpoint Stmt_ind' (s : Stmt) : P s :=
    match s with
    | LetStmt n v b => HLetStmt n v b (Stmt_ind' b)
    | AssertStmt c m => HAssert c m
    | ProducerConsumer n p b => HPC n p b (Stmt_ind' b)
    | For n mn ex ft api b => HFor n mn ex ft api b (Stmt_ind' b)
    | Provide n vs args => HProvide n vs args
    | Realize n ts bs c b => HRealize n ts bs c b (Stmt_ind' b)
    | Block a b => HBlock a b (Stmt_ind' a) (Stmt_ind' b)
    | IfThenElse c t None => HIf1 c t (Stmt_ind' t)
    | IfThenElse c t (Some e) => HIf2 c t e (Stmt_ind' t) (Stmt_ind' e)
    | Evaluate v => HEval v
    end.
End StmtInd.

(* ===================================================================== *)
(** ** Constructors of IROperator.h used by the pass *)

Definition Int32 : Type_ := Int_ 32.

(** An [int] literal converted to [Expr]. *)
Definition int_ (n : Z) : Expr := IntImm Int32 n.

(** [make_const(Int(32), n)] *)
Definition make_const (t : Type_) (n : Z) : Expr :=
  match t with
  | UInt_ _ => UIntImm t n
  | _ => IntImm t n
  end.

Definition make_zero (t : Type_) : Expr := make_const t 0.

(** [const_true()] *)
Definition const_true : Expr := UIntImm Bool_ 1.

(** [is_one(e)] on the constants of this IR surface. *)
Definition is_one (e : Expr) : bool :=
  match e with
  | IntImm _ v | UIntImm _ v => bool_decide (v = 1%Z)
  | _ => false
  end.

(** [Call::is_pure()] *)
Definition is_pure (ct : CallType) : bool :=
  match ct with
  | PureExtern | Image | PureIntrinsic => true
  | _ => false
  end.

(** The static type of an expression, as [Expr::type()] reports it. *)
Fixpoint type_of (e : Expr) : Type_ :=
  match e with
  | IntImm t _ | UIntImm t _ | Variable_ t _ | Call t _ _ _ _ => t
  | StringImm _ => Handle_
  | Binary op a _ =>
      match op with
      | EQ | NE | LT | LE | GT | GE | And | Or => Bool_
      | _ => type_of a
      end
  | Not _ => Bool_
  | Select _ t _ => type_of t
  | Let_ _ _ b => type_of b
  end.

(** [likely(e)] *)
Definition likely (e : Expr) : Expr :=
  Call (type_of e) "likely" [e] PureIntrinsic 0.

(** [Block::make(const std::vector<Stmt> &)]: undefined on the empty list. *)
Fixpoint Block_make (stmts : list Stmt) : option Stmt :=
  match stmts with
  | [] => None
  | [s] => Some s
  | s :: rest => Block s <$> Block_make rest
  end.

(* ===================================================================== *)
(** ** The schedule data model (Schedule.h, Definition.h, Function.h) *)

Inductive LoopLevel : Type :=
| LoopInline
| LoopRoot
| LoopAt (func : string) (var : string).

#[global] Instance LoopLevel_eq_dec : EqDecision LoopLevel.
Proof. solve_decision. Defined.

Definition is_inline (l : LoopLevel) : bool :=
  match l with LoopInline => true | _ => false end.

Definition is_root (l : LoopLevel) : bool :=
  match l with LoopRoot => true | _ => false end.

(** [Var::outermost().name()] *)
Definition outermost_name : string := "__outermost".

Record Dim : Type := mkDim {
  dim_var : string;
  dim_for_type : ForType;
  dim_device_api : DeviceAPI
}.

Record Bound : Type := mkBound {
  bound_var : string;
  bound_min : option Expr;
  bound_extent : option Expr;
  bound_modulus : option Expr
}.

Record ReductionVariable : Type := mkRVar {
  rv_var : string;
  rv_min : Expr;
  rv_extent : Expr
}.

Inductive TailStrategy : Type :=
| RoundUp | GuardWithIf | ShiftInwards | PredicateLoads | TailAuto.

Inductive SplitType : Type := SplitVar | RenameVar | FuseVars | PurifyRVar.

Record Split : Type := mkSplit {
  split_old_var : string;
  split_outer : string;
  split_inner : string;
  split_factor : option Expr;
  split_exact : bool;
  split_tail : TailStrategy;
  split_type : SplitType
}.

Record FusedPair : Type := mkFusedPair {
  func_1 : string;
  func_2 : string;
  stage_1 : nat;
  stage_2 : nat;
  var_name : string
}.

#[global] Instance FusedPair_eq_dec : EqDecision FusedPair.
Proof. solve_decision. Defined.

Record Schedule : Type := mkSchedule {
  dims : list Dim;                 (* innermost first *)
  splits : list Split;
  bounds : list Bound;
  rvars : list ReductionVariable;
  store_level : LoopLevel;
  compute_level : LoopLevel;
  fuse_level : LoopLevel;          (* [fuse_level().level] *)
  fused_pairs : list FusedPair;
  touched : bool;
  memoized : bool
}.

(** A definition owns its specializations, each of which owns a definition. *)
Inductive Definition_ : Type :=
| mkDefinition (is_init : bool) (args values : list Expr) (schedule : Schedule)
               (split_predicate : list Expr)
               (specializations : list (Expr * Definition_)).

Definition def_is_init (d : Definition_) : bool :=
  match d with mkDefinition i _ _ _ _ _ => i end.
Definition def_args (d : Definition_) : list Expr :=
  match d with mkDefinition _ a _ _ _ _ => a end.
Definition def_values (d : Definition_) : list Expr :=
  match d with mkDefinition _ _ v _ _ _ => v end.
Definition def_schedule (d : Definition_) : Schedule :=
  match d with mkDefinition _ _ _ s _ _ => s end.
Definition def_split_predicate (d : Definition_) : list Expr :=
  match d with mkDefinition _ _ _ _ p _ => p end.
Definition def_specializations (d : Definition_) : list (Expr * Definition_) :=
  match d with mkDefinition _ _ _ _ _ s => s end.

(** What the pass reads of a [Function] passed as an extern argument. *)
Record FuncRef : Type := mkFuncRef {
  ref_name : string;
  ref_outputs : nat;
  ref_compute_level : LoopLevel
}.

Inductive ExternFuncArgument : Type :=
| ExprArg (e : Expr)
| FuncArg (f : FuncRef)
| BufferArg (buffer_name : string)
| ImageParamArg (param_name : string).

Record ExternDefinition : Type := mkExtern {
  extern_function_name : string;
  extern_arguments : list ExternFuncArgument;
  extern_definition_is_c_plus_plus : bool
}.

Record Function : Type := mkFunction {
  fn_name : string;
  fn_args : list string;
  fn_definition : Definition_;
  fn_updates : list Definition_;
  fn_output_types : list Type_;
  fn_extern : option ExternDefinition
}.

Definition fn_schedule (f : Function) : Schedule :=
  def_schedule (fn_definition f).
Definition fn_outputs (f : Function) : nat := length (fn_output_types f).
Definition fn_dimensions (f : Function) : nat := length (fn_args f).
Definition has_extern_definition (f : Function) : bool :=
  bool_decide (is_Some (fn_extern f)).

(** [Function::is_pure()] and [Function::can_be_inlined()] *)
Definition fn_is_pure (f : Function) : bool :=
  bool_decide (fn_updates f = []) && negb (has_extern_definition f).
Definition can_be_inlined (f : Function) : bool :=
  fn_is_pure f &&
  match def_specializations (fn_definition f) with [] => true | _ => false end.

(** Stage [0] is the pure definition, stage [k+1] is update [k]. *)
Definition stage_definition (f : Function) (stage : nat) : option Definition_ :=
  match stage with
  | 0 => Some (fn_definition f)
  | S k => fn_updates f !! k
  end.

Record Target : Type := mkTarget {
  NoAsserts : bool;
  MSAN : bool;
  supported_device_apis : list DeviceAPI
}.

(** [target.supports_device_api(api)] *)
Definition supports_device_api (t : Target) (api : DeviceAPI) : bool :=
  bool_decide (api ∈ supported_device_apis t).

Record ApplySplitResult : Type := mkApplySplitResult {
  substitutions : list (string * Expr);
  let_stmts : list (string * Expr);
  predicates : list Expr
}.

(* ===================================================================== *)
(** ** Helpers consumed from the rest of the compiler *)

Class Helpers : Type := {
  (** Simplify.h *)
  simplify : Expr -> Expr;
  (** Substitute.h: [substitute(name, replacement, stmt)] *)
  substitute : string -> Expr -> Stmt -> Stmt;
  (** Qualify.h *)
  qualify : string -> Expr -> Expr;
  (** ExprUsesVar.h *)
  expr_uses_var : Expr -> string -> bool;
  (** ApplySplits.h *)
  apply_splits : list Split -> bool -> string -> gmap string Expr ->
                 ApplySplitResult;
  compute_loop_bounds_after_split : Split -> string -> list (string * Expr);
  (** [unique_name('t')]: the fresh name handed out for an extern stage. *)
  unique_name : Function -> string;
  (** [sizeof(buffer_t)] *)
  sizeof_buffer_t : Z;
  (** Schedule.h: [LoopLevel::match(const std::string &)],
      [LoopLevel::match(const LoopLevel &)] and
      [LoopLevel::root().to_string()] *)
  level_match_name : LoopLevel -> string -> bool;
  level_match : LoopLevel -> LoopLevel -> bool;
  root_loop_name : string
}.

(* ===================================================================== *)
(** ** Small control helpers *)

(** [internal_assert(b)] *)
Definition internal_assert (b : bool) : option unit :=
  if b then Some tt else None.

(** A loop whose body may abort: left-to-right fold in the option monad. *)
Fixpoint foldlM {A B : Type} (f : A -> B -> option A) (a : A) (l : list B)
  : option A :=
  match l with
  | [] => Some a
  | x :: l' => a' ← f a x; foldlM f a' l'
  end.

(** [while (const LetStmt *let = stmt.as<LetStmt>()) { push; stmt = body }] *)
Fixpoint strip_lets (s : Stmt) : list (string * Expr) * Stmt :=
  match s with
  | LetStmt n v b => let '(ls, s') := strip_lets b in ((n, v) :: ls, s')
  | _ => ([], s)
  end.

(** [for (i = lets.size(); i > 0; i--) body = LetStmt::make(lets[i-1], body)] *)
Definition wrap_lets (lets : list (string * Expr)) (body : Stmt) : Stmt :=
  foldr (fun l b => LetStmt l.1 l.2 b) body lets.

(** [for (j = 0; j < lets.size(); j++) stmt = LetStmt::make(lets[j], stmt)]:
    the last binding ends up outermost. *)
Definition wrap_lets_forward (lets : list (string * Expr)) (body : Stmt) : Stmt :=
  foldl (fun b l => LetStmt l.1 l.2 b) body lets.

(* ===================================================================== *)
(** ** Name utilities and purity (lines 31-71) *)

(** [var_name_match]: aborts on a qualified second argument. *)
Definition var_name_match (candidate var : string) : option bool :=
  _ ← internal_assert (Str.no_dot var);
  Some (String.eqb candidate var || Str.ends_with candidate ("." +:+ var)).

(** [std::find_if(dims.begin(), dims.end(), var_name_match(d.var, var))]
    followed by the assertion that the iterator is not [end()]: the index
    of the first matching dim. *)
Fixpoint find_dim (ds : list Dim) (var : string) : option nat :=
  match ds with
  | [] => None
  | d :: ds' =>
      b ← var_name_match (dim_var d) var;
      if b : bool then Some 0 else S <$> find_dim ds' var
  end.

(** [ContainsImpureCall]: a call that is not pure anywhere in the expression. *)
Fixpoint contains_impure_call (e : Expr) : bool :=
  match e with
  | IntImm _ _ | UIntImm _ _ | StringImm _ | Variable_ _ _ => false
  | Binary _ a b => contains_impure_call a || contains_impure_call b
  | Not a => contains_impure_call a
  | Select c t f =>
      contains_impure_call c || contains_impure_call t || contains_impure_call f
  | Let_ _ v b => contains_impure_call v || contains_impure_call b
  | Call _ _ args ct _ =>
      if negb (is_pure ct) then true else existsb contains_impure_call args
  end.

(* ===================================================================== *)
(** ** The loop-nest builder (lines 73-316) *)

Inductive ContainerType : Type := CFor | CLet | CIf.

#[global] Instance ContainerType_eq_dec : EqDecision ContainerType.
Proof. solve_decision. Defined.

(** A containing LetStmt, IfThenElse, or For loop. *)
Record Container : Type := mkContainer {
  c_type : ContainerType;
  dim_idx : nat;             (* for a loop, the index in the dims list *)
  c_name : string;
  c_value : option Expr
}.

(** [std::swap(nest[j+1], nest[j])] *)
Definition swap_up (nest : list Container) (j : nat) : list Container :=
  match nest !! j, nest !! S j with
  | Some outer, Some inner => <[j := inner]> (<[S j := outer]> nest)
  | _, _ => nest
  end.

Section Builder.
Context `{Helpers}.

  (** The inner loop of both sorts,
      [for (j = i-1; j >= 0; j--) { if (!uses) swap else break; }],
      entered with [i]: the container at [i] moves outward while its value
      does not use the name of the container just outside it. *)
Fixpoint push_up (nest : list Container) (i : nat)
    : option (list Container) :=
    match i with
    | 0 => Some nest
    | S j =>
        inner ← nest !! S j;
        outer ← nest !! j;
        v ← c_value inner;          (* internal_assert(value.defined()) *)
        if negb (expr_uses_var v (c_name outer))
        then push_up (swap_up nest j) j
        else Some nest
    end.

  (** One iteration of the let sort. *)
Definition sort_let_step (nest : list Container) (i : nat)
    : option (list Container) :=
    c ← nest !! i;
    _ ← internal_assert (bool_decide (is_Some (c_value c)));
    _ ← internal_assert (bool_decide (c_type c = CLet));
    push_up nest i.

  (** One iteration of the predicate sort. *)
Definition sort_predicate_step (nest : list Container) (i : nat)
    : option (list Container) :=
    c ← nest !! i;
    v ← c_value c;
    _ ← internal_assert (bool_decide (c_type c = CIf));
    if contains_impure_call v then Some nest else push_up nest i.

  (** [for (i = dims.size(); i < nest.size() - n_predicates; i++)] *)
Definition sort_lets (n_dims n_predicates : nat) (nest : list Container)
    : option (list Container) :=
    foldlM sort_let_step nest
           (seq n_dims (length nest - n_predicates - n_dims)).

  (** [for (i = nest.size() - n_predicates; i < nest.size(); i++)] *)
Definition sort_predicates (n_predicates : nat) (nest : list Container)
    : option (list Container) :=
    foldlM sort_predicate_step nest
           (seq (length nest - n_predicates) (length nest - (length nest - n_predicates))).

  (** Rewrapping one container around the statement built so far. *)
Definition rewrap (s : Schedule) (c : Container) (stmt : Stmt)
    : option Stmt :=
    match c_type c with
    | CLet => v ← c_value c; Some (LetStmt (c_name c) v stmt)
    | CIf => v ← c_value c; Some (IfThenElse v stmt None)
    | CFor =>
        dim ← dims s !! dim_idx c;
        Some (For (c_name c)
                  (Variable_ Int32 (c_name c +:+ ".loop_min"))
                  (Variable_ Int32 (c_name c +:+ ".loop_extent"))
                  (dim_for_type dim) (dim_device_api dim) stmt)
    end.

  (** The two guards added for one fused dim. *)
Definition fuse_guard (prefix : string) (stmt : Stmt) (dim : Dim) : Stmt :=
    let var := Variable_ Int32 (prefix +:+ dim_var dim) in
    let max := Variable_ Int32 (prefix +:+ dim_var dim +:+ ".loop_max") in
    let min := Variable_ Int32 (prefix +:+ dim_var dim +:+ ".loop_min") in
    let stmt := IfThenElse (likely (Binary LE min var)) stmt None in
    IfThenElse (likely (Binary LE var max)) stmt None.

  (** [dim_extent_alignment] *)
Definition dim_extent_alignment (s : Schedule) : gmap string Expr :=
    let from_bound (m : gmap string Expr) (b : Bound) :=
      let m := match bound_extent b with
               | Some e => <[bound_var b := e]> m
               | None => m
               end in
      match bound_modulus b with
      | Some e => <[bound_var b := e]> m
      | None => m
      end in
    let m := foldl from_bound ∅ (bounds s) in
    foldl (fun m rv => <[rv_var rv := rv_extent rv]> m) m (rvars s).

  (** The container list before sorting: loops outermost first, then the
      lets of the splits, the lets stripped off the statement, and the
      predicates. *)
Definition initial_nest (prefix : string) (s : Schedule)
             (r : ApplySplitResult) (stripped : list (string * Expr))
             (preds : list Expr) : list Container :=
    rev (imap (fun i d => mkContainer CFor i (prefix +:+ dim_var d) None)
              (dims s))
    ++ rev (map (fun l => mkContainer CLet 0 l.1 (Some l.2)) (let_stmts r))
    ++ map (fun l => mkContainer CLet 0 l.1 (Some l.2)) stripped
    ++ map (fun p => mkContainer CIf 0 "" (Some p)) (predicates r)
    ++ map (fun p => mkContainer CIf 0 "" (Some (likely (qualify prefix p))))
           preds.

  (** The bindings emitted after the loops are in place. *)
Definition bound_lets (prefix : string) (pure_dims : list string)
             (s : Schedule) (stmt : Stmt) : Stmt :=
    (* bounds of the split dimensions *)
    let stmt :=
      foldl (fun st sp =>
               wrap_lets_forward (compute_loop_bounds_after_split sp prefix) st)
            stmt (rev (splits s)) in
    (* the outermost dummy dimension *)
    let o := prefix +:+ outermost_name in
    let stmt := LetStmt (o +:+ ".loop_min") (int_ 0) stmt in
    let stmt := LetStmt (o +:+ ".loop_max") (int_ 0) stmt in
    let stmt := LetStmt (o +:+ ".loop_extent") (int_ 1) stmt in
    (* the pure dims, from the inferred bounds *)
    let stmt :=
      foldl (fun st i =>
               let var := prefix +:+ i in
               let max := Variable_ Int32 (var +:+ ".max") in
               let min := Variable_ Int32 (var +:+ ".min") in
               let st := LetStmt (var +:+ ".loop_extent")
                                 (Binary Sub (Binary Add max (int_ 1)) min) st in
               let st := LetStmt (var +:+ ".loop_min") min st in
               LetStmt (var +:+ ".loop_max") max st)
            stmt pure_dims in
    (* the reduction domain *)
    foldl (fun st rv =>
             let p := prefix +:+ rv_var rv in
             let rmin := Variable_ Int32 (p +:+ ".min") in
             let rmax := Variable_ Int32 (p +:+ ".max") in
             let st := LetStmt (p +:+ ".loop_min") rmin st in
             let st := LetStmt (p +:+ ".loop_max") rmax st in
             LetStmt (p +:+ ".loop_extent")
                     (Binary Add (Binary Sub rmax rmin) (int_ 1)) st)
          stmt (rvars s).

  (** [build_provide_loop_nest_helper]. [start_fuse] is the source's [int]:
      negative means no fusion. *)
Definition build_provide_loop_nest_helper
             (func_name prefix : string) (start_fuse : Z)
             (pure_dims : list string) (site values preds : list Expr)
             (s : Schedule) (is_update : bool) : option Stmt :=
    let stmt := Provide func_name values site in
    (* guards on the fused loop vars, __outermost excluded *)
    let stmt :=
      if (start_fuse <? 0)%Z then stmt
      else foldl (fuse_guard prefix) stmt
                 (drop (Z.to_nat start_fuse) (take (length (dims s) - 1) (dims s))) in
    let r := apply_splits (splits s) is_update prefix (dim_extent_alignment s) in
    let stmt := foldl (fun st sub => substitute sub.1 sub.2 st)
                      stmt (substitutions r) in
    let '(stripped, stmt) := strip_lets stmt in
    let nest := initial_nest prefix s r stripped preds in
    let n_predicates := length (predicates r) + length preds in
    nest ← sort_lets (length (dims s)) n_predicates nest;
    nest ← sort_predicates n_predicates nest;
    (* rewrap, innermost container first *)
    stmt ← foldlM (fun st c => rewrap s c st) stmt (rev nest);
    Some (bound_lets prefix pure_dims s stmt).

  (** [build_provide_loop_nest]: the base nest, then one [IfThenElse] per
      specialization, built from the last specialization to the first. *)
Fixpoint build_provide_loop_nest
           (func_name prefix : string) (start_fuse : Z)
           (pure_dims : list string) (def : Definition_) (is_update : bool)
    : option Stmt :=
    match def with
    | mkDefinition init args values sched preds specs =>
        _ ← internal_assert (bool_decide (negb is_update = init));
        let values := map (qualify prefix) values in
        let site := map (qualify prefix) args in
        stmt ← build_provide_loop_nest_helper
               func_name prefix start_fuse pure_dims site values preds sched
               is_update;
        (fix specialize (specs : list (Expr * Definition_)) : option Stmt :=
           match specs with
           | [] => Some stmt
           | (c, s_def) :: rest =>
               stmt ← specialize rest;
               then_case ← build_provide_loop_nest
                           func_name prefix start_fuse pure_dims s_def is_update;
               Some (IfThenElse c then_case (Some stmt))
           end) specs
    end.

End Builder.

(* ===================================================================== *)
(** ** Produce, update and explicit bounds (lines 318-558) *)

Section Production.
Context `{Helpers}.

  (** The name of output buffer [k] of a function with [outputs] outputs. *)
Definition buffer_name (name : string) (outputs k : nat) : string :=
    (if bool_decide (1 < outputs) then name +:+ "." +:+ Str.to_string k
     else name) +:+ ".buffer".

  (** What one extern argument contributes: the call arguments, the
      buffers to annotate and the buffers whose contents to annotate. *)
Definition extern_arg (arg : ExternFuncArgument)
    : list Expr * list Expr * list Expr :=
    match arg with
    | ExprArg e => ([e], [], [])
    | FuncArg input =>
        let bufs := map (fun k => Variable_ Handle_
                                    (buffer_name (ref_name input) (ref_outputs input) k))
                        (seq 0 (ref_outputs input)) in
        (bufs, bufs, bufs)
    | BufferArg b =>
        let buf := Variable_ Handle_ (b +:+ ".buffer") in
        ([buf], [buf], [buf])
    | ImageParamArg p =>
        (* neither the buffer_t nor its contents are annotated *)
        ([Variable_ Handle_ (p +:+ ".buffer")], [], [])
    end.

  (** The temporary output descriptor of output [j] when the store level
      differs from the compute level. *)
Definition tmp_buffer (f : Function) (j : nat) (t : Type_)
    : string * Expr :=
    let stride_name :=
      if bool_decide (1 < fn_outputs f) then fn_name f +:+ ".0" else fn_name f in
    let stage_name := fn_name f +:+ ".s0." in
    let top_left :=
      map (fun a => Variable_ Int32 (stage_name +:+ a +:+ ".min")) (fn_args f) in
    let host_ptr := Call t (fn_name f) top_left Halide j in
    let host_ptr := Call Handle_ "address_of" [host_ptr] Intrinsic 0 in
    let per_dim :=
      concat (imap (fun k a =>
                let var := stage_name +:+ a in
                let min := Variable_ Int32 (var +:+ ".min") in
                let max := Variable_ Int32 (var +:+ ".max") in
                let stride := Variable_ Int32
                    (stride_name +:+ ".stride." +:+ Str.to_string k) in
                [min; Binary Add (Binary Sub max min) (int_ 1); stride])
              (fn_args f)) in
    (fn_name f +:+ "." +:+ Str.to_string j +:+ ".tmp_buffer",
     Call Handle_ "create_buffer_t" ([host_ptr; make_zero t] ++ per_dim)
          Intrinsic 0).

  (** [annotate = annotate.defined() ? Block(annotate, mark) : mark] *)
Definition append_stmt (acc : option Stmt) (s : Stmt) : option Stmt :=
    match acc with
    | Some a => Some (Block a s)
    | None => Some s
    end.

Definition build_extern_produce (f : Function) (ext : ExternDefinition)
             (target : Target) : Stmt :=
    let parts := map extern_arg (extern_arguments ext) in
    let input_args := concat (map (fun p => p.1.1) parts) in
    let input_annotate := concat (map (fun p => p.1.2) parts) in
    let contents_annotate := concat (map (fun p => p.2) parts) in
    let '(output_args, lets) :=
      if bool_decide (store_level (fn_schedule f) = compute_level (fn_schedule f))
      then (map (fun j => Variable_ Handle_
                            (buffer_name (fn_name f) (fn_outputs f) j))
                (seq 0 (fn_outputs f)), [])
      else let tmps := imap (tmp_buffer f) (fn_output_types f) in
           (map (fun l => Variable_ Handle_ l.1) tmps, tmps) in
    let extern_call_args := input_args ++ output_args in
    let buffers_to_annotate := input_annotate ++ output_args in
    let annotate :=
      if MSAN target then
        let a := foldl (fun acc buffer =>
                   append_stmt acc
                     (Evaluate (Call Int32 "halide_msan_annotate_memory_is_initialized"
                                     [buffer; UIntImm (UInt_ 64) sizeof_buffer_t]
                                     Extern 0)))
                   None buffers_to_annotate in
        foldl (fun acc buffer =>
                 append_stmt acc
                   (Evaluate (Call Int32 "halide_msan_annotate_buffer_is_initialized"
                                   [buffer] Extern 0)))
              a contents_annotate
      else None in
    let e := Call Int32 (extern_function_name ext) extern_call_args
                  (if extern_definition_is_c_plus_plus ext
                   then ExternCPlusPlus else Extern) 0 in
    let result_name := unique_name f in
    let result := Variable_ Int32 result_name in
    let error := Call Int32 "halide_error_extern_stage_failed"
                      [StringImm (extern_function_name ext); result] Extern 0 in
    let check := AssertStmt (Binary EQ result (int_ 0)) error in
    let check := LetStmt result_name e check in
    let check := wrap_lets_forward lets check in
    match annotate with
    | Some a => Block a check
    | None => check
    end.

  (** [build_produce]: the loop nest (or extern call) of stage 0. *)
Definition build_produce (f : Function) (target : Target) : option Stmt :=
    match fn_extern f with
    | Some ext => Some (build_extern_produce f ext target)
    | None =>
        build_provide_loop_nest (fn_name f) (fn_name f +:+ ".s0.") (-1)
                                (fn_args f) (fn_definition f) false
    end.

  (** [build_update]: the loop nests of the update stages. *)
Definition build_update (f : Function) : option (list Stmt) :=
    mapM (fun '(i, def) =>
            build_provide_loop_nest
              (fn_name f) (fn_name f +:+ ".s" +:+ Str.to_string (i + 1) +:+ ".")
              (-1) (fn_args f) def true)
         (imap pair (fn_updates f)).

  (** [build_production]: the produce step and the merged update steps
      (undefined when there is no update). *)
Definition build_production (f : Function) (target : Target)
    : option (Stmt * option Stmt) :=
    produce ← build_produce f target;
    updates ← build_update f;
    Some (produce, Block_make updates).

  (** The assertion emitted for one explicit bound of one stage, if any. *)
Definition explicit_bound_assert (func : Function) (stage : nat) (b : Bound)
    : option Stmt :=
    let prefix := fn_name func +:+ ".s" +:+ Str.to_string stage +:+ "."
                  +:+ bound_var b in
    let min_var := Variable_ Int32 (prefix +:+ ".min_unbounded") in
    let max_var := Variable_ Int32 (prefix +:+ ".max_unbounded") in
    let b_min := default min_var (bound_min b) in
    match bound_extent b with
    | None => None   (* a bounds alignment only expands the region *)
    | Some extent =>
        let max_val := Binary Sub (Binary Add extent b_min) (int_ 1) in
        let min_val := b_min in
        let check := Binary And (Binary LE min_val min_var)
                                (Binary GE max_val max_var) in
        let error_msg :=
          Call Int32 "halide_error_explicit_bounds_too_small"
               [StringImm (bound_var b); StringImm (fn_name func);
                min_val; max_val; min_var; max_var] Extern 0 in
        Some (AssertStmt check error_msg)
    end.

  (** [inject_explicit_bounds] *)
Definition inject_explicit_bounds (body : Stmt) (func : Function) : Stmt :=
    foldl (fun body stage =>
             foldl (fun body b =>
                      match explicit_bound_assert func stage b with
                      | Some a => Block a body
                      | None => body
                      end)
                   body (bounds (fn_schedule func)))
          body (seq 0 (S (length (fn_updates func)))).

End Production.

(* ===================================================================== *)
(** ** Use and realization tests (lines 560-612) *)

(** A handle named [<func>.….buffer] refers to one of the function's buffers. *)
Definition is_buffer_of (func : string) (t : Type_) (name : string) : bool :=
  is_handle t && Str.starts_with name (func +:+ ".") &&
  Str.ends_with name ".buffer".

Module IsUsedInStmt.

Fixpoint visit_expr (func : string) (e : Expr) : bool :=
    match e with
    | IntImm _ _ | UIntImm _ _ | StringImm _ => false
    | Variable_ t name => is_buffer_of func t name
    | Binary _ a b => visit_expr func a || visit_expr func b
    | Not a => visit_expr func a
    | Select c t f => visit_expr func c || visit_expr func t || visit_expr func f
    | Let_ _ v b => visit_expr func v || visit_expr func b
    | Call _ name args _ _ =>
        existsb (visit_expr func) args || String.eqb name func
    end.

Fixpoint visit (func : string) (s : Stmt) : bool :=
    match s with
    | LetStmt _ v b => visit_expr func v || visit func b
    | AssertStmt c m => visit_expr func c || visit_expr func m
    | ProducerConsumer _ _ b => visit func b
    | For _ mn ex _ _ b => visit_expr func mn || visit_expr func ex || visit func b
    | Provide _ vs args =>
        existsb (visit_expr func) vs || existsb (visit_expr func) args
    | Realize _ _ bs c b =>
        existsb (fun r => visit_expr func r.1 || visit_expr func r.2) bs
        || visit_expr func c || visit func b
    | Block a b => visit func a || visit func b
    | IfThenElse c t e =>
        visit_expr func c || visit func t ||
        match e with Some e' => visit func e' | None => false end
    | Evaluate v => visit_expr func v
    end.

End IsUsedInStmt.

Definition function_is_used_in_stmt (f : Function) (s : Stmt) : bool :=
  IsUsedInStmt.visit (fn_name f) s.

Module IsRealizedInStmt.

Fixpoint visit (func : string) (s : Stmt) : bool :=
    match s with
    | LetStmt _ _ b | ProducerConsumer _ _ b | For _ _ _ _ _ b => visit func b
    | Realize name _ _ _ b => visit func b || String.eqb name func
    | Block a b => visit func a || visit func b
    | IfThenElse _ t e =>
        visit func t || match e with Some e' => visit func e' | None => false end
    | AssertStmt _ _ | Provide _ _ _ | Evaluate _ => false
    end.

End IsRealizedInStmt.

(** Check if function [f] is already realized in [s]. *)
Definition function_is_already_realized_in_stmt (f : Function) (s : Stmt) : bool :=
  IsRealizedInStmt.visit (fn_name f) s.

(* ===================================================================== *)
(** ** The single-function injector (lines 614-808) *)

(** The traversal cursors of an injector. *)
Record Found : Type := mkFound {
  found_store_level : bool;
  found_compute_level : bool
}.

Module InjectRealization.
Section InjectRealization.
Context `{Helpers}.
Variables (func : Function) (is_output : bool) (target : Target)
            (env : gmap string Function).

  (** The stage named by a loop: the last piece strictly between the
      first and the last that reads [s<digits>]. *)
Definition parse_stage (v : list string) : option nat :=
    foldl (fun stage piece =>
             if String.eqb (Str.head piece) "s" then
               let str := Str.tail piece in
               if Str.has_only_digits str then Some (Str.atoi str) else stage
             else stage)
          None (drop 1 (take (length v - 1) v)).

  (** Is [loop_name] the right level to inject the produce/realize node of
      [func]?  A loop of a fused stage is not: the node goes to the fused
      parent loop. *)
Definition is_the_right_level (loop_name : string) : option bool :=
    if String.eqb loop_name root_loop_name then Some true
    else
      let v := Str.split_string loop_name in
      _ ← internal_assert (bool_decide (2 < length v));
      func_name ← head v;
      var ← last v;
      stage ← parse_stage v;
      f ← env !! func_name;
      def ← stage_definition f stage;
      match fuse_level (def_schedule def) with
      | LoopInline | LoopRoot => Some true     (* it isn't fused to anyone *)
      | LoopAt _ fuse_var =>
          let ds := dims (def_schedule def) in
          it1 ← find_dim ds fuse_var;
          it2 ← find_dim ds var;
          Some (bool_decide (it2 < it1))
      end.

Definition build_pipeline (s : Stmt) : option Stmt :=
    realization ← build_production func target;
    let producer :=
      match realization.2 with
      | Some updates => Block realization.1 updates
      | None => realization.1
      end in
    let producer := ProducerConsumer (fn_name func) true producer in
    let consumer := ProducerConsumer (fn_name func) false s in
    Some (Block producer consumer).

  (** The region of a realization, from the [.min_realized] and
      [.extent_realized] names. *)
Definition realize_bounds (f : Function) : list (Expr * Expr) :=
    map (fun arg =>
           (Variable_ Int32 (fn_name f +:+ "." +:+ arg +:+ ".min_realized"),
            Variable_ Int32 (fn_name f +:+ "." +:+ arg +:+ ".extent_realized")))
        (fn_args f).

Definition build_realize (s : Stmt) : Stmt :=
    let s := if negb is_output
             then Realize (fn_name func) (fn_output_types func)
                          (realize_bounds func) const_true s
             else s in
    (* this is also the point at which explicit bounds are injected *)
    if NoAsserts target then s else inject_explicit_bounds s func.

  (** Does the node get injected around [body]? *)
Definition wants_injection (body : Stmt) : bool :=
    negb (function_is_already_realized_in_stmt func body) &&
    (function_is_used_in_stmt func body || is_output).

  (** [visit(For)], the compute-level test on the mutated body. *)
Definition at_compute_level (loop_name : string) (body : Stmt) (st : Found)
  : option (Stmt * Found) :=
  if level_match_name (compute_level (fn_schedule func)) loop_name then
    right ← is_the_right_level loop_name;
    if right : bool then
      body ← (if wants_injection body then build_pipeline body else Some body);
      Some (body, mkFound (found_store_level st) true)
    else Some (body, st)
  else Some (body, st).

  (** [visit(For)], the store-level test that follows. *)
Definition at_store_level (loop_name : string) (body : Stmt) (st : Found)
  : option (Stmt * Found) :=
  if level_match_name (store_level (fn_schedule func)) loop_name then
    right ← is_the_right_level loop_name;
    if right : bool then
      _ ← internal_assert (found_compute_level st);
      let body := if wants_injection body then build_realize body else body in
      Some (body, mkFound true (found_compute_level st))
    else Some (body, st)
  else Some (body, st).

Definition at_levels (loop_name : string) (body : Stmt) (st : Found)
  : option (Stmt * Found) :=
  r ← at_compute_level loop_name body st;
  at_store_level loop_name r.1 r.2.

  (** An extern function scheduled inline cannot live inside a vector loop. *)
Definition extern_in_vector_loop (ft : ForType) (for_loop : Stmt) : bool :=
    has_extern_definition func &&
    is_inline (compute_level (fn_schedule func)) &&
    bool_decide (ft = Vectorized) &&
    negb (function_is_already_realized_in_stmt func for_loop) &&
    function_is_used_in_stmt func for_loop.

  (** An inline update (or extern) used by a [Provide] of another function. *)
Definition inline_update_here (provide_name : string) (op : Stmt) : bool :=
    negb (String.eqb provide_name (fn_name func)) &&
    negb (fn_is_pure func) &&
    is_inline (compute_level (fn_schedule func)) &&
    function_is_used_in_stmt func op.

  (** The mutator.  Expressions are left alone, so only statements are
      rebuilt. *)
Fixpoint mutate (s : Stmt) (st : Found) : option (Stmt * Found) :=
    match s with
    | For name mn ex ft api body =>
        if extern_in_vector_loop ft s then
          p ← build_pipeline s;
          Some (build_realize p, mkFound true true)
        else
          (* dig through the lets, mutate, test the levels, reinstate *)
          r ← (fix through_lets (b : Stmt) : option (Stmt * Found) :=
                 match b with
                 | LetStmt n v b' =>
                     r ← through_lets b'; Some (LetStmt n v r.1, r.2)
                 | _ => r ← mutate b st; at_levels name r.1 r.2
                 end) body;
          Some (For name mn ex ft api r.1, r.2)
    | Provide name _ _ =>
        if inline_update_here name s then
          p ← build_pipeline s;
          Some (build_realize p, mkFound true true)
        else Some (s, st)
    | LetStmt n v b => r ← mutate b st; Some (LetStmt n v r.1, r.2)
    | ProducerConsumer n p b =>
        r ← mutate b st; Some (ProducerConsumer n p r.1, r.2)
    | Realize n ts bs c b => r ← mutate b st; Some (Realize n ts bs c r.1, r.2)
    | Block a b =>
        ra ← mutate a st; rb ← mutate b ra.2; Some (Block ra.1 rb.1, rb.2)
    | IfThenElse c t None =>
        rt ← mutate t st; Some (IfThenElse c rt.1 None, rt.2)
    | IfThenElse c t (Some e) =>
        rt ← mutate t st; re ← mutate e rt.2;
        Some (IfThenElse c rt.1 (Some re.1), re.2)
    | AssertStmt _ _ | Evaluate _ => Some (s, st)
    end.

End InjectRealization.
End InjectRealization.

(* ===================================================================== *)
(** ** Injecting one statement into another, and bound substitution
       (lines 823-949) *)

Module InjectStmt.
Section InjectStmt.
Context `{Helpers}.
Variables (injected_stmt : Stmt) (level : LoopLevel).

  (** The mutator with its [found_level] flag. *)
Fixpoint mutate (s : Stmt) (found_level : bool) : Stmt * bool :=
    match s with
    | For name mn ex ft api body =>
        let r := mutate body found_level in
        let r := if level_match_name level name
                 then (Block r.1 injected_stmt, true) else r in
        (For name mn ex ft api r.1, r.2)
    | LetStmt n v b =>
        let r := mutate b found_level in (LetStmt n v r.1, r.2)
    | ProducerConsumer n p b =>
        let r := mutate b found_level in (ProducerConsumer n p r.1, r.2)
    | Realize n ts bs c b =>
        let r := mutate b found_level in (Realize n ts bs c r.1, r.2)
    | Block a b =>
        let ra := mutate a found_level in
        let rb := mutate b ra.2 in (Block ra.1 rb.1, rb.2)
    | IfThenElse c t None =>
        let rt := mutate t found_level in (IfThenElse c rt.1 None, rt.2)
    | IfThenElse c t (Some e) =>
        let rt := mutate t found_level in
        let re := mutate e rt.2 in (IfThenElse c rt.1 (Some re.1), re.2)
    | AssertStmt _ _ | Provide _ _ _ | Evaluate _ => (s, found_level)
    end.

End InjectStmt.
End InjectStmt.

(** Inject [injected] into [root] at [level]. *)
Definition inject_stmt `{Helpers} (root injected : option Stmt)
           (level : LoopLevel) : option (option Stmt) :=
  match root, injected with
  | None, _ => Some injected
  | _, None => Some root
  | Some r, Some i =>
      if is_inline level || is_root level then Some (Some (Block r i))
      else
        let res := InjectStmt.mutate i level r false in
        _ ← internal_assert res.2;
        Some (Some res.1)
  end.

(** [map::emplace]: an existing binding is kept. *)
Definition emplace {V : Type} (k : string) (v : V) (m : gmap string V)
  : gmap string V :=
  match m !! k with
  | Some _ => m
  | None => <[k := v]> m
  end.

Module SubstituteBounds.
Section SubstituteBounds.
Context `{Helpers}.
Variable replacements : gmap string Expr.

  (** The renamed loop of a fused child and the bindings of its bounds. *)
Definition fused_loop (name : string) (min_val extent_val : Expr)
             (ft : ForType) (api : DeviceAPI) (body : Stmt) : option Stmt :=
    parts ← Str.split_last_dot name;    (* internal_assert(last_dot != npos) *)
    let new_var := parts.1 +:+ ".fused." +:+ parts.2 in
    (* the child loop has extent one: clear its scheduling flag *)
    let for_type := if is_one extent_val then Serial else ft in
    let stmt := For new_var (Variable_ Int32 (new_var +:+ ".loop_min"))
                    (Variable_ Int32 (new_var +:+ ".loop_extent"))
                    for_type api body in
    let stmt := LetStmt (new_var +:+ ".loop_min") min_val stmt in
    let stmt := LetStmt (new_var +:+ ".loop_max")
                        (simplify (Binary Sub (Binary Add min_val extent_val)
                                              (int_ 1))) stmt in
    let stmt := LetStmt (new_var +:+ ".loop_extent") extent_val stmt in
    (* replace any reference to the old loop name with the new one *)
    Some (substitute name (Variable_ Int32 new_var) stmt).

  (** The replacement values of a loop whose min and extent are both
      variables with a registered replacement. *)
Definition replaced_bounds (mn ex : Expr) : option (Expr * Expr) :=
    match mn, ex with
    | Variable_ _ min_name, Variable_ _ extent_name =>
        min_val ← replacements !! min_name;
        extent_val ← replacements !! extent_name;
        Some (min_val, extent_val)
    | _, _ => None
    end.

  (** The mutator; [bounds] is the map it updates in place. *)
Fixpoint mutate (s : Stmt) (bounds : gmap string (option Expr))
    : option (Stmt * gmap string (option Expr)) :=
    match s with
    | LetStmt n v b =>
        let bounds := match bounds !! n with
                      | Some _ => <[n := Some v]> bounds
                      | None => bounds
                      end in
        r ← mutate b bounds; Some (LetStmt n v r.1, r.2)
    | For name mn ex ft api body =>
        match replaced_bounds mn ex with
        | Some (min_val, extent_val) =>
            r ← mutate body bounds;
            stmt ← fused_loop name min_val extent_val ft api r.1;
            Some (stmt, r.2)
        | None =>
            r ← mutate body bounds; Some (For name mn ex ft api r.1, r.2)
        end
    | ProducerConsumer n p b =>
        r ← mutate b bounds; Some (ProducerConsumer n p r.1, r.2)
    | Realize n ts bs c b =>
        r ← mutate b bounds; Some (Realize n ts bs c r.1, r.2)
    | Block a b =>
        ra ← mutate a bounds; rb ← mutate b ra.2;
        Some (Block ra.1 rb.1, rb.2)
    | IfThenElse c t None =>
        rt ← mutate t bounds; Some (IfThenElse c rt.1 None, rt.2)
    | IfThenElse c t (Some e) =>
        rt ← mutate t bounds; re ← mutate e rt.2;
        Some (IfThenElse c rt.1 (Some re.1), re.2)
    | AssertStmt _ _ | Provide _ _ _ | Evaluate _ => Some (s, bounds)
    end.

End SubstituteBounds.
End SubstituteBounds.

(** [substitute_bounds]: every loop whose bounds are in [replacements] is
    renamed and rebound; the bindings named in [bounds] are captured. *)
Definition substitute_bounds `{Helpers} (s : option Stmt)
           (bounds : gmap string (option Expr)) (replacements : gmap string Expr)
  : option (option Stmt * gmap string (option Expr)) :=
  match s with
  | None => Some (None, bounds)
  | Some s => r ← SubstituteBounds.mutate replacements s bounds;
              Some (Some r.1, r.2)
  end.

(* ===================================================================== *)
(** ** The fused-group injector (lines 951-1322) *)

(** [<func>.s<stage>.<var>] *)
Definition stage_var (func : string) (stage : nat) (var : string) : string :=
  func +:+ ".s" +:+ Str.to_string stage +:+ "." +:+ var.

(** The dims from index [idx] up to, but excluding, the last one
    ([__outermost]): [for (i = idx; i < dims.size() - 1; ++i)]. *)
Definition fused_dims (ds : list Dim) (idx : nat) : list Dim :=
  drop idx (take (length ds - 1) ds).

(** The maps built while the producers of a group are constructed. *)
Record GroupState : Type := mkGroupState {
  gs_bounds : gmap string (option Expr);  (* original bounds, to capture *)
  gs_replacements : gmap string Expr;     (* bounds of the child loops *)
  gs_add_lets : list (string * Expr)
}.

Module InjectGroupRealization.
Section InjectGroupRealization.
Context `{Helpers}.
Variables (group : list Function) (is_output_list : list bool)
            (target : Target) (env : gmap string Function).

Definition compute_at : LoopLevel :=
    match group with
    | g :: _ => compute_level (fn_schedule g)
    | [] => LoopInline
    end.

Definition store_at : LoopLevel :=
    match group with
    | g :: _ => store_level (fn_schedule g)
    | [] => LoopInline
    end.

  (** What one fused pair registers for the dim named [var]: the child's
      bounds are to be captured and replaced, the parent's to be captured. *)
Definition register_dim (pair : FusedPair) (st : GroupState) (d : Dim)
    : GroupState :=
    let var := stage_var (func_2 pair) (stage_2 pair) (dim_var d) in
    let var_orig := stage_var (func_1 pair) (stage_1 pair) (dim_var d) in
    let val := Variable_ Int32 var_orig in
    let b := gs_bounds st in
    let b := emplace (var +:+ ".loop_min") None b in
    let b := emplace (var +:+ ".loop_max") None b in
    let b := emplace (var +:+ ".loop_extent") None b in
    let r := gs_replacements st in
    let r := emplace (var +:+ ".loop_min") val r in
    let r := emplace (var +:+ ".loop_max") val r in
    let r := emplace (var +:+ ".loop_extent") (make_const Int32 1) r in
    let b := emplace (var_orig +:+ ".loop_min") None b in
    let b := emplace (var_orig +:+ ".loop_max") None b in
    let b := emplace (var_orig +:+ ".loop_extent") None b in
    mkGroupState b r (gs_add_lets st).

  (** The body of the loop over the fused pairs of a definition: the pair
      is ignored when its child is not in the environment or is skipped. *)
Definition register_pair (skip : gmap string bool) (ds : list Dim)
             (acc : nat * GroupState) (pair : FusedPair)
    : option (nat * GroupState) :=
    match env !! func_2 pair with
    | None => Some acc
    | Some _ =>
        skipped ← skip !! func_2 pair;
        if skipped : bool then Some acc
        else
          idx ← find_dim ds (var_name pair);
          Some (Nat.min acc.1 idx,
                foldl (register_dim pair) acc.2 (fused_dims ds idx))
    end.

  (** Where the fusion of this stage into its parent starts. *)
Definition own_start_fuse (skip : gmap string bool) (ds : list Dim)
             (fuse : LoopLevel) : option nat :=
    match fuse with
    | LoopInline | LoopRoot => Some (length ds)
    | LoopAt parent fuse_var =>
        skipped ← skip !! parent;
        if skipped : bool then Some (length ds) else find_dim ds fuse_var
    end.

Definition build_produce_definition (skip : gmap string bool) (f : Function)
             (prefix : string) (def : Definition_) (is_update : bool)
             (st : GroupState) : option (Stmt * GroupState) :=
    let ds := dims (def_schedule def) in       (* from inner to outer *)
    start_fuse ← own_start_fuse skip ds (fuse_level (def_schedule def));
    r ← foldlM (register_pair skip ds) (start_fuse, st)
               (fused_pairs (def_schedule def));
    let '(start_fuse, st) := r in
    produce ← build_provide_loop_nest (fn_name f) prefix (Z.of_nat start_fuse)
                                      (fn_args f) def is_update;
    (* the containing lets move to the topmost position *)
    let '(lets, produce) := strip_lets produce in
    Some (produce,
          mkGroupState (gs_bounds st) (gs_replacements st)
                       (gs_add_lets st ++ lets)).

  (** The method [build_produce] of the group injector: stage 0, then
      every update, each injected at its fuse level. *)
Definition build_produce (skip : gmap string bool) (f : Function)
             (acc : option Stmt * GroupState)
    : option (option Stmt * GroupState) :=
    let stage (acc : option Stmt * GroupState) (sd : nat * Definition_) :=
      let '(k, def) := sd in
      r ← build_produce_definition skip f (stage_var (fn_name f) k "")
                                   def (bool_decide (k ≠ 0)) acc.2;
      produce ← inject_stmt acc.1 (Some r.1) (fuse_level (def_schedule def));
      Some (produce, r.2) in
    foldlM stage acc
           ((0, fn_definition f) :: imap (fun j d => (S j, d)) (fn_updates f)).

  (** The depth-first walk over the fused pairs; [fuel] bounds its depth. *)
Fixpoint collect_all_dependence_helper (fuel : nat) (skip : gmap string bool)
           (prefix : string) (def : Definition_) (p : FusedPair)
           (st : list FusedPair * gset string)
    : option (list FusedPair * gset string) :=
    match fuel with
    | 0 => None
    | S fuel' =>
        let st := (st.1 ++ [p], {[prefix]} ∪ st.2) in
        foldlM (fun (st : list FusedPair * gset string) pair =>
                  skipped ← skip !! func_2 pair;
                  if skipped : bool then Some st
                  else match env !! func_2 pair with
                       | None => Some st
                       | Some f =>
                           let prefix_2 := stage_var (func_2 pair) (stage_2 pair)
                                                     (var_name pair) in
                           if bool_decide (prefix_2 ∈ st.2) then Some st
                           else
                             def_2 ← stage_definition f (stage_2 pair);
                             collect_all_dependence_helper
                               fuel' skip prefix_2 def_2 pair st
                       end)
               st (fused_pairs (def_schedule def))
    end.

  (** Every child stage the environment can name: a bound on the number
      of distinct prefixes the walk can visit. *)
Definition all_fused_pairs : list FusedPair :=
    concat (map (fun f =>
                   concat (map (fun d => fused_pairs (def_schedule d))
                               (fn_definition f :: fn_updates f)))
                (map snd (map_to_list env))).

  (** Collect all fused pairs that directly/indirectly relate to [def]. *)
Definition collect_all_dependence (skip : gmap string bool)
             (def : Definition_) : option (list FusedPair) :=
    let fuel := S (length all_fused_pairs) in
    fst <$>
    foldlM (fun (st : list FusedPair * gset string) pair =>
              skipped ← skip !! func_2 pair;
              if skipped : bool then Some st
              else match env !! func_2 pair with
                   | None => Some st
                   | Some f =>
                       let prefix := stage_var (func_2 pair) (stage_2 pair)
                                               (var_name pair) in
                       if bool_decide (prefix ∈ st.2) then Some st
                       else
                         def_2 ← stage_definition f (stage_2 pair);
                         collect_all_dependence_helper
                           fuel skip prefix def_2 pair st
                   end)
           ([], ∅) (fused_pairs (def_schedule def)).

  (** The current bounds of the parent loop [var_1]: the union computed so
      far, or else the captured original bounds. *)
Definition parent_bounds (bounds : gmap string (option Expr))
             (replacements : gmap string Expr) (var_1 : string)
    : option Expr * option Expr :=
    match replacements !! (var_1 +:+ ".loop_min") with
    | None => (mjoin (bounds !! (var_1 +:+ ".loop_min")),
               mjoin (bounds !! (var_1 +:+ ".loop_max")))
    | Some mn => (Some mn, replacements !! (var_1 +:+ ".loop_max"))
    end.

  (** The union of the parent's bounds with one child's bounds on one dim. *)
Definition union_dim (bounds : gmap string (option Expr)) (prefix : string)
             (pair : FusedPair) (replacements : gmap string Expr) (d : Dim)
    : option (gmap string Expr) :=
    let var_2 := stage_var (func_2 pair) (stage_2 pair) (dim_var d) in
    min_2 ← bounds !! (var_2 +:+ ".loop_min");
    max_2 ← bounds !! (var_2 +:+ ".loop_max");
    _ ← bounds !! (var_2 +:+ ".loop_extent");
    let var_1 := prefix +:+ "." +:+ dim_var d in
    _ ← bounds !! (var_1 +:+ ".loop_min");
    _ ← bounds !! (var_1 +:+ ".loop_max");
    _ ← bounds !! (var_1 +:+ ".loop_extent");
    let '(min_1, max_1) := parent_bounds bounds replacements var_1 in
    (* [min] and [max] abort on an undefined operand *)
    min_1 ← min_1; min_2 ← min_2; max_1 ← max_1; max_2 ← max_2;
    let new_min := simplify (Binary Min min_1 min_2) in
    let new_max := simplify (Binary Max max_1 max_2) in
    let new_extent :=
      simplify (Binary Sub (Binary Add new_max (int_ 1)) new_min) in
    Some (<[var_1 +:+ ".loop_extent" := new_extent]>
          (<[var_1 +:+ ".loop_max" := new_max]>
           (<[var_1 +:+ ".loop_min" := new_min]> replacements))).

  (** The union bounds of the parent loops over all dependent pairs. *)
Definition union_bounds (skip : gmap string bool) (f : Function)
             (bounds : gmap string (option Expr))
             (dependence : list FusedPair) : option (gmap string Expr) :=
    let prefix := fn_name f +:+ ".s0" in
    let ds := dims (def_schedule (fn_definition f)) in
    foldlM (fun replacements pair =>
              skipped ← skip !! func_2 pair;
              if skipped : bool then Some replacements
              else
                idx ← find_dim ds (var_name pair);
                foldlM (union_dim bounds prefix pair) replacements
                       (fused_dims ds idx))
           ∅ dependence.

  (** Replace the bounds of the parent fused loop with the union of the
      bounds of the fused group. *)
Definition replace_parent_bound_with_union_bound
             (skip : gmap string bool) (f : Function) (produce : option Stmt)
             (bounds : gmap string (option Expr)) : option (option Stmt) :=
    dependence ← collect_all_dependence skip (fn_definition f);
    replacements ← union_bounds skip f bounds dependence;
    fst <$> substitute_bounds produce ∅ replacements.

Definition build_realize (s : Stmt) (func : Function) (is_output : bool)
    : Stmt :=
    InjectRealization.build_realize func is_output target s.

  (** Members are visited last to first; each test sees the statement
      built so far. *)
Definition build_realize_group (s : Stmt) : Stmt :=
    foldl (fun s (g : Function * bool) =>
             if function_is_used_in_stmt g.1 s || g.2
             then build_realize s g.1 g.2 else s)
          s (rev (zip group is_output_list)).

  (** The skip mask: a member is skipped when it is neither used in the
      statement nor an output. *)
Definition skip_mask (s : Stmt) : gmap string bool :=
    foldl (fun skip (g : Function * bool) =>
             <[fn_name g.1 := negb (function_is_used_in_stmt g.1 s || g.2)]> skip)
          ∅ (zip group is_output_list).

Definition num_skipped (s : Stmt) : nat :=
    length (filter (fun g : Function * bool =>
                      negb (function_is_used_in_stmt g.1 s || g.2) = true)
                   (zip group is_output_list)).

  (** [ProducerConsumer] markers of the members that are not skipped, the
      first member outermost. *)
Definition wrap_markers (skip : gmap string bool) (is_producer : bool)
             (s : Stmt) : option Stmt :=
    foldlM (fun s (g : Function) =>
              skipped ← skip !! fn_name g;
              Some (if skipped : bool then s
                    else ProducerConsumer (fn_name g) is_producer s))
           s (rev group).

Definition build_pipeline_group (s : Stmt) : option Stmt :=
    let skip := skip_mask s in
    if bool_decide (num_skipped s = length group) then Some s
    else
      parent ← head group;
      parent_skipped ← skip !! fn_name parent;
      _ ← internal_assert (negb parent_skipped);    (* user_assert *)
      consume ← wrap_markers skip false s;
      (* build the loops of the members that are not skipped *)
      r ← foldlM (fun acc (g : Function) =>
                    skipped ← skip !! fn_name g;
                    if skipped : bool then Some acc
                    else build_produce skip g acc)
                 (None, mkGroupState ∅ ∅ []) group;
      let '(produce, st) := r in
      produce ← produce;
      (* rewrap the loop in the containing lets *)
      let produce := wrap_lets (gs_add_lets st) produce in
      (* the child fused loops refer to the parent loop vars *)
      r ← substitute_bounds (Some produce) (gs_bounds st) (gs_replacements st);
      let '(produce, bounds) := r in
      (* the parent fused loops get the union of the bounds *)
      produce ← replace_parent_bound_with_union_bound skip parent produce bounds;
      produce ← produce;
      produce ← wrap_markers skip true produce;
      Some (Block produce consume).

  (** The part of [visit(For)] after the body has been mutated. *)
Definition at_levels (loop_name : string) (body : Stmt) (st : Found)
    : option (Stmt * Found) :=
    r ← (if level_match_name compute_at loop_name then
           body ← build_pipeline_group body;
           Some (body, mkFound (found_store_level st) true)
         else Some (body, st));
    let '(body, st) := r in
    if level_match_name store_at loop_name then
      _ ← internal_assert (found_compute_level st);
      Some (build_realize_group body, mkFound true (found_compute_level st))
    else Some (body, st).

Fixpoint mutate (s : Stmt) (st : Found) : option (Stmt * Found) :=
    match s with
    | For name mn ex ft api body =>
        r ← (fix through_lets (b : Stmt) : option (Stmt * Found) :=
               match b with
               | LetStmt n v b' =>
                   r ← through_lets b'; Some (LetStmt n v r.1, r.2)
               | _ => r ← mutate b st; at_levels name r.1 r.2
               end) body;
        Some (For name mn ex ft api r.1, r.2)
    | LetStmt n v b => r ← mutate b st; Some (LetStmt n v r.1, r.2)
    | ProducerConsumer n p b =>
        r ← mutate b st; Some (ProducerConsumer n p r.1, r.2)
    | Realize n ts bs c b => r ← mutate b st; Some (Realize n ts bs c r.1, r.2)
    | Block a b =>
        ra ← mutate a st; rb ← mutate b ra.2; Some (Block ra.1 rb.1, rb.2)
    | IfThenElse c t None =>
        rt ← mutate t st; Some (IfThenElse c rt.1 None, rt.2)
    | IfThenElse c t (Some e) =>
        rt ← mutate t st; re ← mutate e rt.2;
        Some (IfThenElse c rt.1 (Some re.1), re.2)
    | AssertStmt _ _ | Provide _ _ _ | Evaluate _ => Some (s, st)
    end.

  (** Construction of the injector (its assertions) and one run of it. *)
Definition inject (s : Stmt) : option (Stmt * Found) :=
    _ ← internal_assert (bool_decide (group ≠ []));
    _ ← internal_assert (bool_decide (length group = length is_output_list));
    _ ← internal_assert (negb (is_inline compute_at));
    mutate s (mkFound false false).

End InjectGroupRealization.
End InjectGroupRealization.

(* ===================================================================== *)
(** ** The legality analyzer (lines 1326-1405) *)

Record Site : Type := mkSite {
  is_parallel : bool;
  loop_level : LoopLevel
}.

Module ComputeLegalSchedules.

  (** The result fields of the visitor. *)
Record State : Type := mkState {
    found : bool;
    sites_allowed : list Site
  }.

Definition initial : State := mkState false [].

Section ComputeLegalSchedules.
Context `{Helpers}.
Variables (func : Function) (env : gmap string Function).

  (** [register_use]: called with the stack of enclosing loops. *)
Definition register_use (sites : list Site) (st : State) : State :=
    if negb (found st) then mkState true sites
    else
      (* take the common sites between sites and sites_allowed *)
      mkState true
        (filter (fun s1 =>
                   existsb (fun s2 => level_match (loop_level s1) (loop_level s2))
                           (sites_allowed st) = true)
                sites).

Fixpoint visit_expr (sites : list Site) (e : Expr) (st : State) : State :=
    match e with
    | IntImm _ _ | UIntImm _ _ | StringImm _ => st
    | Variable_ t name =>
        if is_buffer_of (fn_name func) t name then register_use sites st else st
    | Binary _ a b => visit_expr sites b (visit_expr sites a st)
    | Not a => visit_expr sites a st
    | Select c t f =>
        visit_expr sites f (visit_expr sites t (visit_expr sites c st))
    | Let_ _ v b => visit_expr sites b (visit_expr sites v st)
    | Call _ name args _ _ =>
        let st := foldl (fun st a => visit_expr sites a st) st args in
        if String.eqb name (fn_name func) then register_use sites st else st
    end.

Definition visit_exprs (sites : list Site) (es : list Expr) (st : State)
    : State :=
    foldl (fun st e => visit_expr sites e st) st es.

  (** The site of a loop, from its name: the function before the first
      dot and the variable after the last. *)
Definition site_of_loop (name : string) (ft : ForType) : option Site :=
    func_part ← Str.before_first_dot name;
    parts ← Str.split_last_dot name;
    let var := parts.2 in
    level ← (if String.eqb func_part "" then
               _ ← internal_assert (negb (String.eqb var ""));
               Some LoopRoot
             else
               f ← env !! func_part;
               Some (LoopAt (fn_name f) var));
    Some (mkSite (bool_decide (ft = Parallel) || bool_decide (ft = Vectorized))
                 level).

Fixpoint visit (sites : list Site) (s : Stmt) (st : State) : option State :=
    match s with
    | For name mn ex ft _ body =>
        let st := visit_expr sites ex (visit_expr sites mn st) in
        site ← site_of_loop name ft;
        visit (sites ++ [site]) body st
    | LetStmt _ v b => visit sites b (visit_expr sites v st)
    | AssertStmt c m => Some (visit_expr sites m (visit_expr sites c st))
    | ProducerConsumer _ _ b => visit sites b st
    | Provide _ vs args =>
        Some (visit_exprs sites args (visit_exprs sites vs st))
    | Realize _ _ bs c b =>
        let st := foldl (fun st (r : Expr * Expr) =>
                           visit_expr sites r.2 (visit_expr sites r.1 st))
                        st bs in
        visit sites b (visit_expr sites c st)
    | Block a b => st ← visit sites a st; visit sites b st
    | IfThenElse c t e =>
        st ← visit sites t (visit_expr sites c st);
        match e with
        | Some e' => visit sites e' st
        | None => Some st
        end
    | Evaluate v => Some (visit_expr sites v st)
    end.

  (** [ComputeLegalSchedules legal(f, env); s.accept(&legal);] *)
Definition legal_sites (s : Stmt) : option (list Site) :=
    sites_allowed <$> visit [] s initial.

End ComputeLegalSchedules.
End ComputeLegalSchedules.

(* ===================================================================== *)
(** ** Schedule validation (lines 1516-1651) *)

Inductive Outcome : Type :=
| Accepted          (* the function returns *)
| UserError         (* user_error / failed user_assert *)
| InternalError.    (* failed internal_assert *)

(** A definition and, transitively, the definitions of its specializations. *)
Fixpoint with_specializations (d : Definition_) : list Definition_ :=
  match d with
  | mkDefinition _ _ _ _ _ specs =>
      d :: (fix go (l : list (Expr * Definition_)) : list Definition_ :=
              match l with
              | [] => []
              | (_, sd) :: l' => with_specializations sd ++ go l'
              end) specs
  end.

(** The cursors of the scan over the legal sites. *)
Record Placement : Type := mkPlacement {
  store_at_ok : bool;
  compute_at_ok : bool;
  store_idx : nat;
  compute_idx : nat
}.

Section Validation.
Context `{Helpers}.

  (** One iteration of the scan: site [i]. *)
Definition scan_site (store_at compute_at : LoopLevel)
             (p : Placement) (entry : nat * Site) : Placement :=
    let '(i, site) := entry in
    let p := if level_match (loop_level site) store_at
             then mkPlacement true (compute_at_ok p) i (compute_idx p)
             else p in
    if level_match (loop_level site) compute_at
    then mkPlacement (store_at_ok p) (store_at_ok p) (store_idx p) i
    else p.

Definition scan_sites (store_at compute_at : LoopLevel) (sites : list Site)
    : Placement :=
    foldl (scan_site store_at compute_at) (mkPlacement false false 0 0)
          (imap pair sites).

  (** Is there a parallel loop between the store site (excluded) and the
      compute site (included)? *)
Definition parallel_between (sites : list Site) (p : Placement) : bool :=
    existsb (fun i => match sites !! i with
                      | Some site => is_parallel site
                      | None => false
                      end)
            (seq (S (store_idx p)) (S (compute_idx p) - S (store_idx p))).

  (** The placement check on the legal sites: [true] when no error is
      raised. *)
Definition placement_ok (store_at compute_at : LoopLevel)
             (sites : list Site) : bool :=
    let p := scan_sites store_at compute_at sites in
    if store_at_ok p && compute_at_ok p
    then negb (parallel_between sites p)
    else false.

Definition inlined_extern_input (f : Function) : bool :=
    match fn_extern f with
    | Some ext =>
        existsb (fun arg => match arg with
                            | FuncArg g => is_inline (ref_compute_level g)
                            | _ => false
                            end)
                (extern_arguments ext)
    | None => false
    end.

Definition unsupported_device (f : Function) (target : Target) : bool :=
    existsb (fun def =>
               existsb (fun d => negb (supports_device_api target (dim_device_api d)))
                       (dims (def_schedule def)))
            (concat (map with_specializations (fn_definition f :: fn_updates f))).

Definition validate_schedule (f : Function) (s : Stmt) (target : Target)
             (is_output : bool) (env : gmap string Function) : Outcome :=
    if inlined_extern_input f then UserError
    else if unsupported_device f target then UserError
    else
      let store_at := store_level (fn_schedule f) in
      let compute_at := compute_level (fn_schedule f) in
      if is_output then
        (* outputs must be compute_root and store_root *)
        if is_root store_at && is_root compute_at then Accepted else UserError
      else if is_inline store_at && is_inline compute_at then
        (* inlining is allowed only if there is no specialization *)
        match def_specializations (fn_definition f) with
        | [] => Accepted
        | _ => UserError
        end
      else
        (* otherwise inspect the uses to see what is ok *)
        match ComputeLegalSchedules.legal_sites f env s with
        | None => InternalError
        | Some sites =>
            if placement_ok store_at compute_at sites then Accepted
            else UserError
        end.

End Validation.

(* ===================================================================== *)
(** ** Removing the loops over [__outermost] (lines 1871-1893) and the
       tail of the driver (lines 1954-1960) *)

(** The number of nested statements: a bound on the depth of a traversal. *)
Fixpoint stmt_height (s : Stmt) : nat :=
  match s with
  | LetStmt _ _ b | ProducerConsumer _ _ b | For _ _ _ _ _ b
  | Realize _ _ _ _ b => S (stmt_height b)
  | Block a b => S (Nat.max (stmt_height a) (stmt_height b))
  | IfThenElse _ t e =>
      S (Nat.max (stmt_height t)
                 (match e with Some e' => stmt_height e' | None => 0 end))
  | AssertStmt _ _ | Provide _ _ _ | Evaluate _ => 1
  end.

Definition is_outermost_loop (name : string) : bool :=
  Str.ends_with name ".__outermost".

Definition is_outermost_bound (name : string) : bool :=
  Str.ends_with name ".__outermost.loop_extent" ||
  Str.ends_with name ".__outermost.loop_min" ||
  Str.ends_with name ".__outermost.loop_max".

Module RemoveLoopsOverOutermost.
Section RemoveLoopsOverOutermost.
Context `{Helpers}.

  (** The test of [visit(For)]. *)
Definition removable_loop (name : string) (extent : Expr) (api : DeviceAPI)
    : bool :=
    is_outermost_loop name && is_one (simplify extent) &&
    bool_decide (api = DeviceNone).

  (** The mutator.  It recurses into a substituted body, so the recursion
      is bounded by [fuel]; [None] means the fuel ran out. *)
Fixpoint mutate (fuel : nat) (s : Stmt) : option Stmt :=
    match fuel with
    | 0 => None
    | S fuel =>
        match s with
        | For name mn ex ft api body =>
            if removable_loop name ex api
            then mutate fuel (substitute name mn body)
            else For name mn ex ft api <$> mutate fuel body
        | LetStmt name v body =>
            if is_outermost_bound name
            then mutate fuel (substitute name (simplify v) body)
            else LetStmt name v <$> mutate fuel body
        | ProducerConsumer n p b => ProducerConsumer n p <$> mutate fuel b
        | Realize n ts bs c b => Realize n ts bs c <$> mutate fuel b
        | Block a b =>
            a' ← mutate fuel a; b' ← mutate fuel b; Some (Block a' b')
        | IfThenElse c t None =>
            t' ← mutate fuel t; Some (IfThenElse c t' None)
        | IfThenElse c t (Some e) =>
            t' ← mutate fuel t; e' ← mutate fuel e;
            Some (IfThenElse c t' (Some e'))
        | AssertStmt _ _ | Provide _ _ _ | Evaluate _ => Some s
        end
    end.

  (** [RemoveLoopsOverOutermost().mutate(s)] *)
Definition run (s : Stmt) : option Stmt := mutate (stmt_height s) s.

End RemoveLoopsOverOutermost.
End RemoveLoopsOverOutermost.

(** The end of [schedule_functions]: take the body of the loop over root,
    then remove the loops over [__outermost]. *)
Definition strip_root_and_outermost `{Helpers} (s : Stmt) : option Stmt :=
  match s with
  | For _ _ _ _ _ body => RemoveLoopsOverOutermost.run body
  | _ => None       (* internal_assert(root_loop) *)
  end.

(* ===================================================================== *)
(** ** A reference implementation of the helpers

    Used to run the pass on concrete schedules.  It covers what the
    examples need: substitution of free variables, a constant-folding
    simplifier, and schedules without splits. *)

Module Reference.

(** Substitute.h: free occurrences only; a binder of the same name hides it. *)
Fixpoint substitute_expr (name : string) (r : Expr) (e : Expr) : Expr :=
  match e with
  | IntImm _ _ | UIntImm _ _ | StringImm _ => e
  | Variable_ _ n => if String.eqb n name then r else e
  | Binary op a b => Binary op (substitute_expr name r a) (substitute_expr name r b)
  | Not a => Not (substitute_expr name r a)
  | Select c t f =>
      Select (substitute_expr name r c) (substitute_expr name r t)
             (substitute_expr name r f)
  | Let_ n v b =>
      Let_ n (substitute_expr name r v)
           (if String.eqb n name then b else substitute_expr name r b)
  | Call t n args ct vi => Call t n (map (substitute_expr name r) args) ct vi
  end.

Fixpoint substitute_stmt (name : string) (r : Expr) (s : Stmt) : Stmt :=
  let se := substitute_expr name r in
  match s with
  | LetStmt n v b =>
      LetStmt n (se v) (if String.eqb n name then b else substitute_stmt name r b)
  | AssertStmt c m => AssertStmt (se c) (se m)
  | ProducerConsumer n p b => ProducerConsumer n p (substitute_stmt name r b)
  | For n mn ex ft api b =>
      For n (se mn) (se ex) ft api
          (if String.eqb n name then b else substitute_stmt name r b)
  | Provide n vs args => Provide n (map se vs) (map se args)
  | Realize n ts bs c b =>
      Realize n ts (map (fun r' => (se r'.1, se r'.2)) bs) (se c)
              (substitute_stmt name r b)
  | Block a b => Block (substitute_stmt name r a) (substitute_stmt name r b)
  | IfThenElse c t e =>
      IfThenElse (se c) (substitute_stmt name r t)
                 (match e with
                  | Some e' => Some (substitute_stmt name r e')
                  | None => None
                  end)
  | Evaluate v => Evaluate (se v)
  end.

(** Qualify.h: every variable reference gets the prefix. *)
Fixpoint qualify_expr (prefix : string) (e : Expr) : Expr :=
  match e with
  | IntImm _ _ | UIntImm _ _ | StringImm _ => e
  | Variable_ t n => Variable_ t (prefix +:+ n)
  | Binary op a b => Binary op (qualify_expr prefix a) (qualify_expr prefix b)
  | Not a => Not (qualify_expr prefix a)
  | Select c t f =>
      Select (qualify_expr prefix c) (qualify_expr prefix t) (qualify_expr prefix f)
  | Let_ n v b => Let_ (prefix +:+ n) (qualify_expr prefix v) (qualify_expr prefix b)
  | Call t n args ct vi => Call t n (map (qualify_expr prefix) args) ct vi
  end.

(** ExprUsesVar.h: is there a reference to the variable? *)
Fixpoint uses_var (e : Expr) (name : string) : bool :=
  match e with
  | IntImm _ _ | UIntImm _ _ | StringImm _ => false
  | Variable_ _ n => String.eqb n name
  | Binary _ a b => uses_var a name || uses_var b name
  | Not a => uses_var a name
  | Select c t f => uses_var c name || uses_var t name || uses_var f name
  | Let_ _ v b => uses_var v name || uses_var b name
  | Call _ _ args _ _ => existsb (fun a => uses_var a name) args
  end.

(** Simplify.h, as far as the examples go: integer constants are folded. *)
Definition fold_binary (op : BinOp) (a b : Expr) : Expr :=
  match a, b with
  | IntImm t x, IntImm _ y =>
      match op with
      | Add => IntImm t (x + y)
      | Sub => IntImm t (x - y)
      | Mul => IntImm t (x * y)
      | Min => IntImm t (Z.min x y)
      | Max => IntImm t (Z.max x y)
      | _ => Binary op a b
      end
  | _, _ => Binary op a b
  end.

Fixpoint fold_constants (e : Expr) : Expr :=
  match e with
  | Binary op a b => fold_binary op (fold_constants a) (fold_constants b)
  | _ => e
  end.

(** Schedule.h: a loop [<func>.….<var>] is matched by the level
    [(func, var)]; the root level is the function-less level [__root]. *)
Definition level_func (l : LoopLevel) : string :=
  match l with LoopAt f _ => f | _ => "" end.

Definition level_var (l : LoopLevel) : string :=
  match l with
  | LoopAt _ v => v
  | LoopRoot => "__root"
  | LoopInline => ""
  end.

Definition match_name (l : LoopLevel) (loop : string) : bool :=
  Str.starts_with loop (level_func l +:+ ".") &&
  Str.ends_with loop ("." +:+ level_var l).

Definition match_level (l other : LoopLevel) : bool :=
  String.eqb (level_func l) (level_func other) &&
  (String.eqb (level_var l) (level_var other)
   || Str.ends_with (level_var l) ("." +:+ level_var other)
   || Str.ends_with (level_var other) ("." +:+ level_var l)).

Definition helpers : Helpers := {|
  simplify := fold_constants;
  substitute := substitute_stmt;
  qualify := qualify_expr;
  expr_uses_var := uses_var;
  apply_splits := fun _ _ _ _ => mkApplySplitResult [] [] [];
  compute_loop_bounds_after_split := fun _ _ => [];
  unique_name := fun f => "t0";
  sizeof_buffer_t := 72;
  level_match_name := match_name;
  level_match := match_level;
  root_loop_name := ".__root"
|}.

End Reference.

(* ===================================================================== *)
(** * More of the pass *)

(* ===================================================================== *)
(** ** Validation of the fused groups (lines 1654-1869) *)

(** Checks run in the order of the source: the first one that fails
    decides the outcome. *)
Definition and_then (o k : Outcome) : Outcome :=
  match o with
  | Accepted => k
  | _ => o
  end.

(** [user_assert(b)] and [internal_assert(b)] as outcomes. *)
Definition user_assert (b : bool) : Outcome :=
  if b then Accepted else UserError.

Definition internal_check (b : bool) : Outcome :=
  if b then Accepted else InternalError.

(** [for (x : l) { body(x); }] with a body that may raise an error. *)
Definition for_each {A : Type} (body : A -> Outcome) (l : list A) : Outcome :=
  foldr (fun x rest => and_then (body x) rest) Accepted l.

(** [std::find_if(dims.begin(), dims.end(), var_name_match(d.var, var))]:
    [None] when [var_name_match] aborts, [Some None] for [dims.end()]. *)
Fixpoint find_if_dim (ds : list Dim) (var : string) : option (option nat) :=
  match ds with
  | [] => Some None
  | d :: ds' =>
      b ← var_name_match (dim_var d) var;
      if b : bool then Some (Some 0)
      else r ← find_if_dim ds' var; Some (S <$> (r : option nat))
  end.

#[global] Instance SplitType_eq_dec : EqDecision SplitType.
Proof. solve_decision. Defined.
#[global] Instance TailStrategy_eq_dec : EqDecision TailStrategy.
Proof. solve_decision. Defined.

(** [Split::is_split()] and [Split::is_fuse()] *)
Definition is_split (s : Split) : bool := bool_decide (split_type s = SplitVar).
Definition is_fuse (s : Split) : bool := bool_decide (split_type s = FuseVars).

(** One iteration of the search for the splits that produce a dim: the
    names known to be relevant and the splits found so far. *)
Definition relevant_step (acc : list string * list Split) (s : Split)
  : list string * list Split :=
  let '(relevant_dims, found) := acc in
  let relevant :=
    bool_decide (split_old_var s ∈ relevant_dims)
    || bool_decide (split_outer s ∈ relevant_dims) in
  let relevant :=
    if is_split s || is_fuse s
    then relevant || bool_decide (split_inner s ∈ relevant_dims)
    else relevant in
  if relevant then
    (relevant_dims ++ [split_old_var s; split_outer s]
       ++ (if is_split s || is_fuse s then [split_inner s] else []),
     found ++ [s])
  else acc.

(** The splits that produce the dim [var], the last split first:
    [for (j = splits.size(); j > 0; --j)]. *)
Definition relevant_splits (var : string) (splits : list Split) : list Split :=
  (foldl relevant_step ([var], []) (rev splits)).2.

Section FusedGroups.
(** The comparison of two dims ([operator!=] of Schedule.h) and the
    equality of two expressions ([equal] of IREquality.h) are taken as
    parameters. *)
Variable dim_differs : Dim -> Dim -> bool.
Variable equal : option Expr -> option Expr -> bool.

(** Do two splits describe the same scheduling step? *)
Definition splits_match (s1 s2 : Split) : bool :=
  let same :=
    bool_decide (split_type s1 = split_type s2)
    && String.eqb (split_old_var s1) (split_old_var s2)
    && String.eqb (split_outer s1) (split_outer s2)
    && equal (split_factor s1) (split_factor s2)
    && Bool.eqb (split_exact s1) (split_exact s2) in
  if is_split s1 || is_fuse s1
  then same && String.eqb (split_inner s1) (split_inner s2)
  else same.

(** The body of the loop over the relevant splits. *)
Definition check_split_pair (s : Split * Split) : Outcome :=
  and_then (user_assert (splits_match s.1 s.2))
           (if is_split s.1
            then user_assert (negb (bool_decide (split_tail s.1 = ShiftInwards)))
            else Accepted).

(** The check of one fused dim when both stages belong to one function. *)
Definition check_same_func_dim (fn_1 : Function) (def_1 def_2 : Definition_)
           (d : Dim) : Outcome :=
  let var := dim_var d in
  if bool_decide (var ∈ fn_args fn_1) then Accepted    (* a pure var *)
  else if bool_decide (var ∈ map rv_var (rvars (def_schedule def_1)))
       then Accepted                                     (* an rvar *)
  else
    let s_1 := relevant_splits var (splits (def_schedule def_1)) in
    let s_2 := relevant_splits var (splits (def_schedule def_2)) in
    and_then (user_assert (bool_decide (length s_1 = length s_2)))
             (for_each check_split_pair (zip s_1 s_2)).

(** The checks on the dims of a fused pair, once both stages are known. *)
Definition check_fused_dims (p : FusedPair) (fn_1 : Function)
           (def_1 def_2 : Definition_) : Outcome :=
  let dims_1 := dims (def_schedule def_1) in
  let dims_2 := dims (def_schedule def_2) in
  match find_if_dim dims_1 (var_name p) with
  | None => InternalError
  | Some None => UserError           (* cannot find var_name in func_1 *)
  | Some (Some start_fuse_1) =>
      match find_if_dim dims_2 (var_name p) with
      | None => InternalError
      | Some None => UserError       (* cannot find var_name in func_2 *)
      | Some (Some start_fuse_2) =>
          (* __outermost is ignored *)
          let n_fused := length dims_1 - start_fuse_1 - 1 in
          and_then
            (user_assert (bool_decide
                            (n_fused = length dims_2 - start_fuse_2 - 1)))
            (and_then
               (for_each (fun ds : Dim * Dim =>
                            if dim_differs ds.1 ds.2 then UserError else Accepted)
                         (zip (fused_dims dims_1 start_fuse_1)
                              (fused_dims dims_2 start_fuse_2)))
               (if String.eqb (func_1 p) (func_2 p)
                then for_each (check_same_func_dim fn_1 def_1 def_2)
                              (fused_dims dims_1 start_fuse_1)
                else Accepted))
      end
  end.

(** The body of the loop of [validate_fused_group_schedule_helper]. *)
Definition check_fused_pair (env : gmap string Function) (fn : string)
           (stage : nat) (def_1 : Definition_) (p : FusedPair) : Outcome :=
  and_then
    (internal_check (String.eqb fn (func_1 p) && Nat.eqb stage (stage_1 p)))
    match env !! func_1 p with
    | None => InternalError
    | Some fn_1 =>
        match env !! func_2 p with
        | None => Accepted               (* the function is not used anywhere *)
        | Some fn_2 =>
            match stage_definition fn_2 (stage_2 p) with
            | None => InternalError
            | Some def_2 =>
                let level_1 := compute_level (fn_schedule fn_1) in
                let level_2 := compute_level (fn_schedule fn_2) in
                and_then
                  (user_assert
                     (bool_decide (def_specializations (fn_definition fn_2) = [])))
                (and_then (user_assert (negb (is_inline level_1)))
                (and_then (user_assert (negb (is_inline level_2)))
                (and_then (user_assert (negb (has_extern_definition fn_1)))
                (and_then (user_assert (negb (has_extern_definition fn_2)))
                (and_then
                   (user_assert (String.eqb (func_1 p) (func_2 p)
                                 || bool_decide (level_1 = level_2)))
                   (check_fused_dims p fn_1 def_1 def_2))))))
            end
        end
    end.

Definition validate_fused_group_schedule_helper (fn : string) (stage : nat)
           (def_1 : Definition_) (env : gmap string Function) : Outcome :=
  for_each (check_fused_pair env fn stage def_1) (fused_pairs (def_schedule def_1)).

Definition validate_fused_groups_schedule (fused_groups : list (list string))
           (env : gmap string Function) : Outcome :=
  for_each
    (for_each
       (fun fn =>
          match env !! fn with
          | None => InternalError
          | Some f =>
              and_then
                (validate_fused_group_schedule_helper fn 0 (fn_definition f) env)
                (for_each (fun u : nat * Definition_ =>
                             validate_fused_group_schedule_helper
                               fn (S u.1) u.2 env)
                          (imap pair (fn_updates f)))
          end))
    fused_groups.

End FusedGroups.

(* ===================================================================== *)
(** ** The report of the uses of a function (lines 1440-1519) *)

Module StmtUsesFunc.

(** [StmtUsesFunc]: is there a call of the name [func]?  The default
    traversal of [IRVisitor] (IRVisitor.cpp) visits the children of a
    node in order; for a call these are its arguments. *)
Fixpoint visit_expr (func : string) (e : Expr) : bool :=
  match e with
  | IntImm _ _ | UIntImm _ _ | StringImm _ | Variable_ _ _ => false
  | Binary _ a b => visit_expr func a || visit_expr func b
  | Not a => visit_expr func a
  | Select c t f => visit_expr func c || visit_expr func t || visit_expr func f
  | Let_ _ v b => visit_expr func v || visit_expr func b
  | Call _ name args _ _ =>
      String.eqb name func || existsb (visit_expr func) args
  end.

Fixpoint visit (func : string) (s : Stmt) : bool :=
  match s with
  | LetStmt _ v b => visit_expr func v || visit func b
  | AssertStmt c m => visit_expr func c || visit_expr func m
  | ProducerConsumer _ _ b => visit func b
  | For _ mn ex _ _ b => visit_expr func mn || visit_expr func ex || visit func b
  | Provide _ vs args =>
      existsb (visit_expr func) vs || existsb (visit_expr func) args
  | Realize _ _ bs c b =>
      existsb (fun r => visit_expr func r.1 || visit_expr func r.2) bs
      || visit_expr func c || visit func b
  | Block a b => visit func a || visit func b
  | IfThenElse c t e =>
      visit_expr func c || visit func t ||
      match e with Some e' => visit func e' | None => false end
  | Evaluate v => visit_expr func v
  end.

End StmtUsesFunc.

(** A line written to the stream by [PrintUsesOfFunc]. *)
Inductive Line : Type :=
| Ellipsis (indent : nat)                          (* [...] *)
| ForLine (indent : nat) (name : string)           (* [for <name>:] *)
| UsesLine (indent : nat) (caller func : string).  (* [<caller> uses <func>] *)

Definition newline : string := String "010"%char EmptyString.

(** [do_indent]: two spaces per level. *)
Fixpoint do_indent (indent : nat) : string :=
  match indent with
  | 0 => EmptyString
  | S n => "  " +:+ do_indent n
  end.

(** The characters of a line. *)
Definition render (l : Line) : string :=
  match l with
  | Ellipsis i => do_indent i +:+ "..." +:+ newline
  | ForLine i name => do_indent i +:+ "for " +:+ name +:+ ":" +:+ newline
  | UsesLine i caller func =>
      do_indent i +:+ caller +:+ " uses " +:+ func +:+ newline
  end.

(** The fields of the printer; the stream is kept as the lines written
    to it. *)
Record Printer : Type := mkPrinter {
  indent : nat;
  caller : string;
  last_print_was_ellipsis : bool;
  stream : list Line
}.

Module PrintUsesOfFunc.
Section PrintUsesOfFunc.
Context `{Helpers}.
Variable func : string.

(** Writing one line. *)
Definition print (l : Line) (is_ellipsis : bool) (st : Printer) : Printer :=
  mkPrinter (indent st) (caller st) is_ellipsis (stream st ++ [l]).

Fixpoint visit_expr (e : Expr) (st : Printer) : Printer :=
  match e with
  | IntImm _ _ | UIntImm _ _ | StringImm _ | Variable_ _ _ => st
  | Binary _ a b => visit_expr b (visit_expr a st)
  | Not a => visit_expr a st
  | Select c t f => visit_expr f (visit_expr t (visit_expr c st))
  | Let_ _ v b => visit_expr b (visit_expr v st)
  | Call _ name args _ _ =>
      if String.eqb name func
      then print (UsesLine (indent st) (caller st) func) false st
      else foldl (fun st a => visit_expr a st) st args
  end.

Definition visit_exprs (es : list Expr) (st : Printer) : Printer :=
  foldl (fun st e => visit_expr e st) st es.

(** A loop over [__outermost] or over root is not reported. *)
Definition transparent_loop (name : string) : bool :=
  Str.ends_with name outermost_name || Str.ends_with name root_loop_name.

(** What [visit(For)] writes before it descends into the loop. *)
Definition enter_loop (name : string) (body : Stmt) (st : Printer) : Printer :=
  if negb (StmtUsesFunc.visit func body) then
    if negb (last_print_was_ellipsis st)
    then print (Ellipsis (indent st)) true st
    else st
  else
    let st := print (ForLine (indent st) name) false st in
    mkPrinter (S (indent st)) (caller st) (last_print_was_ellipsis st) (stream st).

Fixpoint visit (s : Stmt) (st : Printer) : Printer :=
  match s with
  | For name mn ex _ _ body =>
      if transparent_loop name then
        visit body (visit_expr ex (visit_expr mn st))
      else
        let old_indent := indent st in
        let st := enter_loop name body st in
        let st := visit body (visit_expr ex (visit_expr mn st)) in
        mkPrinter old_indent (caller st) (last_print_was_ellipsis st) (stream st)
  | ProducerConsumer name is_producer body =>
      if is_producer then
        let old_caller := caller st in
        let st := mkPrinter (indent st) name (last_print_was_ellipsis st)
                            (stream st) in
        let st := visit body st in
        mkPrinter (indent st) old_caller (last_print_was_ellipsis st) (stream st)
      else visit body st
  | LetStmt _ v b => visit b (visit_expr v st)
  | AssertStmt c m => visit_expr m (visit_expr c st)
  | Provide _ vs args => visit_exprs args (visit_exprs vs st)
  | Realize _ _ bs c b =>
      let st := foldl (fun st (r : Expr * Expr) =>
                         visit_expr r.2 (visit_expr r.1 st)) st bs in
      visit b (visit_expr c st)
  | Block a b => visit b (visit a st)
  | IfThenElse c t e =>
      let st := visit t (visit_expr c st) in
      match e with
      | Some e' => visit e' st
      | None => st
      end
  | Evaluate v => visit_expr v st
  end.

(** [PrintUsesOfFunc printer(f.name(), err); s.accept(&printer);]: the
    lines written, and the text that reaches the stream. *)
Definition report (s : Stmt) : list Line :=
  stream (visit s (mkPrinter 1 "" false [])).

Definition report_text (s : Stmt) : string :=
  foldr (fun l rest => render l +:+ rest) "" (report s).

End PrintUsesOfFunc.
End PrintUsesOfFunc.

(* ===================================================================== *)
(** ** The driver (lines 1895-1964) *)

Section Driver.
Context `{Helpers}.
(** [Function::same_as] (Function.h), [inline_function] (Inline.h) and, as
    above, the comparisons used by the validation of the fused groups are
    taken as parameters. *)
Variable same_as : Function -> Function -> bool.
Variable inline_function : Stmt -> Function -> Stmt.
Variable dim_differs : Dim -> Dim -> bool.
Variable equal : option Expr -> option Expr -> bool.

Variables (outputs : list Function) (env : gmap string Function)
          (target : Target).

(** The loop over the members of a group, last member first: each is
    looked up, validated against the statement built so far, and its
    [memoized] flag is recorded.  The result lists the members with
    their output flags in the order of the group; [None] stands for an
    error. *)
Definition collect_group (s : Stmt) (group : list string) (any_memoized : bool)
  : option (list (Function * bool) * bool) :=
  foldlM (fun (acc : list (Function * bool) * bool) (name : string) =>
            f ← env !! name;
            let is_output := existsb (fun o => same_as o f) outputs in
            match validate_schedule f s target is_output env with
            | Accepted =>
                Some ((f, is_output) :: acc.1,
                      acc.2 || memoized (fn_schedule f))
            | _ => None
            end)
         ([], any_memoized) (rev group).

(** The number of fused pairs of the first member whose child is in the
    environment. *)
Definition relevant_fused_pair (f : Function) : nat :=
  length (filter (fun p => is_Some (env !! func_2 p))
                 (fused_pairs (fn_schedule f))).

(** [internal_assert(injector.found_store_level && injector.found_compute_level)] *)
Definition found_both (r : Stmt * Found) : option Stmt :=
  _ ← internal_assert (found_store_level r.2 && found_compute_level r.2);
  Some r.1.

(** One iteration of the loop over the fused groups. *)
Definition schedule_group (acc : Stmt * bool) (group : list string)
  : option (Stmt * bool) :=
  let '(s, any_memoized) := acc in
  r ← collect_group s group any_memoized;
  let '(members, any_memoized) := r in
  first ← head members;                 (* internal_assert(!group.empty()) *)
  let f := first.1 in
  s ← (if bool_decide (length group = 1)
          && bool_decide (relevant_fused_pair f = 0)
       then
         (* one function, and no loop fusion among its definitions *)
         if can_be_inlined f && is_inline (compute_level (fn_schedule f))
         then Some (inline_function s f)
         else
           r ← InjectRealization.mutate f first.2 target env s
                                        (mkFound false false);
           found_both r
       else
         r ← InjectGroupRealization.inject (map fst members) (map snd members)
                                           target env s;
         found_both r);
  Some (s, any_memoized).

(** The loop over the fused groups, from the last group to the first,
    started on the loop over root. *)
Definition schedule_groups (fused_groups : list (list string))
  : option (Stmt * bool) :=
  let s := For root_loop_name (int_ 0) (int_ 1) Serial Host
               (Evaluate (int_ 0)) in
  foldlM schedule_group (s, false) (rev fused_groups).

(** [schedule_functions]: the statement and the flag [any_memoized]. *)
Definition schedule_functions (fused_groups : list (list string))
  : option (Stmt * bool) :=
  match validate_fused_groups_schedule dim_differs equal fused_groups env with
  | Accepted =>
      r ← schedule_groups fused_groups;
      s ← strip_root_and_outermost r.1;
      Some (s, r.2)
  | _ => None
  end.

End Driver.
(* ===================================================================== *)
(** * Properties *)

(* --- vocabulary of the statements --- *)

(** May the container [moving] hop over the container [outer] just outside
    it?  Only when the value of [moving] makes no use of the name that
    [outer] binds. *)
Definition may_pass `{Helpers} (moving outer : Container) : bool :=
  match c_value moving with
  | Some v => negb (expr_uses_var v (c_name outer))
  | None => false
  end.

(** The tests met by following else branches from the top of a statement,
    outermost first, and the statement they fall through to. *)
Fixpoint else_spine (s : Stmt) : list (Expr * Stmt) * Stmt :=
  match s with
  | IfThenElse c t (Some e) =>
      let '(tests, base) := else_spine e in ((c, t) :: tests, base)
  | _ => ([], s)
  end.

(** The stage flag of a definition and of all its specializations agrees
    with [is_update]. *)
Fixpoint stage_flags_ok (is_update : bool) (d : Definition_) : bool :=
  match d with
  | mkDefinition init _ _ _ _ specs =>
      bool_decide (negb is_update = init) &&
      (fix go (l : list (Expr * Definition_)) : bool :=
         match l with
         | [] => true
         | (_, sd) :: l' => stage_flags_ok is_update sd && go l'
         end) specs
  end.

(** Induction over definitions that reaches the specializations. *)
Section DefinitionInd.
Variable P : Definition_ -> Prop.
Hypothesis HDef : forall init args values sched preds specs,
    Forall (fun sp => P sp.2) specs ->
    P (mkDefinition init args values sched preds specs).

Fixpoint Definition_ind' (d : Definition_) : P d :=
  match d with
  | mkDefinition init args values sched preds specs =>
      HDef init args values sched preds specs
        ((fix go (l : list (Expr * Definition_)) : Forall (fun sp => P sp.2) l :=
            match l with
            | [] => Forall_nil_2 _
            | sp :: l' => Forall_cons_2 (fun sp => P sp.2) sp l'
                            (Definition_ind' sp.2) (go l')
            end) specs)
  end.
End DefinitionInd.

(** The chaining loop of [build_provide_loop_nest], with the builder of a
    specialized nest as a parameter. *)
Fixpoint specialize_with (build : Definition_ -> option Stmt) (base : Stmt)
         (specs : list (Expr * Definition_)) : option Stmt :=
  match specs with
  | [] => Some base
  | (c, s_def) :: rest =>
      stmt ← specialize_with build base rest;
      then_case ← build s_def;
      Some (IfThenElse c then_case (Some stmt))
  end.





(** What [rewrap] needs of a container. *)
Definition ok_container (s : Schedule) (c : Container) : Prop :=
  match c_type c with
  | CFor => dim_idx c < length (dims s)
  | _ => is_Some (c_value c)
  end.


(** The value of an expression over the integers, booleans being 0 and 1;
    calls, strings, lets and division are left without a value. *)
Definition Z_of_bool (b : bool) : Z := if b then 1%Z else 0%Z.

Definition eval_binop (op : BinOp) (x y : Z) : option Z :=
  match op with
  | Add => Some (x + y)%Z
  | Sub => Some (x - y)%Z
  | Mul => Some (x * y)%Z
  | Min => Some (Z.min x y)
  | Max => Some (Z.max x y)
  | EQ => Some (Z_of_bool (x =? y)%Z)
  | NE => Some (Z_of_bool (negb (x =? y)%Z))
  | LT => Some (Z_of_bool (x <? y)%Z)
  | LE => Some (Z_of_bool (x <=? y)%Z)
  | GT => Some (Z_of_bool (y <? x)%Z)
  | GE => Some (Z_of_bool (y <=? x)%Z)
  | And => Some (Z_of_bool (negb (x =? 0)%Z && negb (y =? 0)%Z))
  | Or => Some (Z_of_bool (negb (x =? 0)%Z || negb (y =? 0)%Z))
  | Div | Mod => None
  end.

Fixpoint eval (env : string -> Z) (e : Expr) : option Z :=
  match e with
  | IntImm _ v | UIntImm _ v => Some v
  | Variable_ _ n => Some (env n)
  | Binary op a b => x ← eval env a; y ← eval env b; eval_binop op x y
  | Not a => x ← eval env a; Some (Z_of_bool (x =? 0)%Z)
  | Select c t f =>
      x ← eval env c; if (x =? 0)%Z then eval env f else eval env t
  | StringImm _ | Let_ _ _ _ | Call _ _ _ _ _ => None
  end.

(** The check of an explicit bound as the specification writes it:
    [(user_min <= inferred_min) && (user_min + extent - 1 >= inferred_max)]. *)
Definition bound_check (user_min extent inferred_min inferred_max : Expr) : Expr :=
  Binary And (Binary LE user_min inferred_min)
             (Binary GE (Binary Sub (Binary Add user_min extent) (int_ 1))
                        inferred_max).

(** The assertions of all explicit bounds of all stages, in the order in
    which the pass emits them. *)
Definition explicit_bound_asserts (func : Function) : list Stmt :=
  flat_map (fun stage =>
              omap (explicit_bound_assert func stage) (bounds (fn_schedule func)))
           (seq 0 (S (length (fn_updates func)))).

(** The realization of a function that is not an output. *)
Definition realization_of (func : Function) (body : Stmt) : Stmt :=
  Realize (fn_name func) (fn_output_types func)
          (InjectRealization.realize_bounds func) const_true body.

(** The direct sub-expressions of an expression, and the direct
    expressions and sub-statements of a statement, in visiting order. *)
Definition expr_children (e : Expr) : list Expr :=
  match e with
  | IntImm _ _ | UIntImm _ _ | StringImm _ | Variable_ _ _ => []
  | Binary _ a b => [a; b]
  | Not a => [a]
  | Select c t f => [c; t; f]
  | Let_ _ v b => [v; b]
  | Call _ _ args _ _ => args
  end.

Definition stmt_exprs (s : Stmt) : list Expr :=
  match s with
  | LetStmt _ v _ => [v]
  | AssertStmt c m => [c; m]
  | ProducerConsumer _ _ _ | Block _ _ => []
  | For _ mn ex _ _ _ => [mn; ex]
  | Provide _ vs args => vs ++ args
  | Realize _ _ bs c _ => flat_map (fun r => [r.1; r.2]) bs ++ [c]
  | IfThenElse c _ _ => [c]
  | Evaluate v => [v]
  end.

Definition stmt_children (s : Stmt) : list Stmt :=
  match s with
  | LetStmt _ _ b | ProducerConsumer _ _ b | For _ _ _ _ _ b
  | Realize _ _ _ _ b => [b]
  | Block a b => [a; b]
  | IfThenElse _ t e => t :: match e with Some e' => [e'] | None => [] end
  | AssertStmt _ _ | Provide _ _ _ | Evaluate _ => []
  end.

(** [subexpr e e']: the node [e] occurs in the expression [e']. *)
Inductive subexpr : Expr -> Expr -> Prop :=
| subexpr_here e : subexpr e e
| subexpr_child e c e' : c ∈ expr_children e' -> subexpr e c -> subexpr e e'.

(** [occurs_in e s]: the statement [s] contains the expression node [e]. *)
Inductive occurs_in : Expr -> Stmt -> Prop :=
| occurs_expr e r s : r ∈ stmt_exprs s -> subexpr e r -> occurs_in e s
| occurs_child e c s : c ∈ stmt_children s -> occurs_in e c -> occurs_in e s.

(** A node that counts as a use of the function named [func]: a call of
    that name, or a handle variable named [<func>.….buffer]. *)
Definition use_node (func : string) (e : Expr) : bool :=
  match e with
  | Call _ name _ _ _ => String.eqb name func
  | Variable_ t name =>
      is_handle t && Str.starts_with name (func +:+ ".") &&
      Str.ends_with name ".buffer"
  | _ => false
  end.

(** Reading of the use claim, second half: at a loop that is the compute
    level of the function, the single-function injector changes the body
    exactly when the function is used in it or is an output. *)
Definition use_alone_decides_injection `{Helpers} : Prop :=
  forall func is_output target env loop_name body st body' st',
    level_match_name (compute_level (fn_schedule func)) loop_name = true ->
    InjectRealization.is_the_right_level env loop_name = Some true ->
    InjectRealization.at_compute_level func is_output target env
                                       loop_name body st = Some (body', st') ->
    (body' <> body <-> function_is_used_in_stmt func body || is_output = true).



(** The stacks of enclosing loops at the uses of [func] inside an
    expression, in visiting order. *)
Fixpoint expr_use_stacks (func : string) (sites : list Site) (e : Expr)
  : list (list Site) :=
  match e with
  | IntImm _ _ | UIntImm _ _ | StringImm _ => []
  | Variable_ t name => if is_buffer_of func t name then [sites] else []
  | Binary _ a b => expr_use_stacks func sites a ++ expr_use_stacks func sites b
  | Not a => expr_use_stacks func sites a
  | Select c t f =>
      expr_use_stacks func sites c ++ expr_use_stacks func sites t
      ++ expr_use_stacks func sites f
  | Let_ _ v b => expr_use_stacks func sites v ++ expr_use_stacks func sites b
  | Call _ name args _ _ =>
      flat_map (expr_use_stacks func sites) args
      ++ (if String.eqb name func then [sites] else [])
  end.

(** The stacks of enclosing loops recorded at all uses of [func] in a
    statement, in visiting order; [None] when a loop name is malformed. *)
Fixpoint use_stacks `{Helpers} (func : string) (env : gmap string Function)
         (sites : list Site) (s : Stmt) : option (list (list Site)) :=
  let here := expr_use_stacks func sites in
  match s with
  | For name mn ex ft _ body =>
      site ← ComputeLegalSchedules.site_of_loop env name ft;
      inner ← use_stacks func env (sites ++ [site]) body;
      Some (here mn ++ here ex ++ inner)
  | LetStmt _ v b => inner ← use_stacks func env sites b; Some (here v ++ inner)
  | AssertStmt c m => Some (here c ++ here m)
  | ProducerConsumer _ _ b => use_stacks func env sites b
  | Provide _ vs args => Some (flat_map here vs ++ flat_map here args)
  | Realize _ _ bs c b =>
      inner ← use_stacks func env sites b;
      Some (flat_map (fun r => here r.1 ++ here r.2) bs ++ here c ++ inner)
  | Block a b =>
      first ← use_stacks func env sites a;
      rest ← use_stacks func env sites b;
      Some (first ++ rest)
  | IfThenElse c t e =>
      then_ ← use_stacks func env sites t;
      else_ ← match e with
              | Some e' => use_stacks func env sites e'
              | None => Some []
              end;
      Some (here c ++ then_ ++ else_)
  | Evaluate v => Some (here v)
  end.

(** The sites of [stack] that match some site of [allowed]. *)
Definition common_sites `{Helpers} (allowed stack : list Site) : list Site :=
  filter (fun s1 => existsb (fun s2 => level_match (loop_level s1) (loop_level s2))
                            allowed = true)
         stack.

(** The intersection across all uses: the first stack, narrowed by every
    later stack in turn. *)
Definition intersect_stacks `{Helpers} (stacks : list (list Site)) : list Site :=
  match stacks with
  | [] => []
  | first :: rest => foldl common_sites first rest
  end.

(** The longest common prefix of two stacks, sites compared with
    [LoopLevel.match], outermost first. *)
Fixpoint common_prefix `{Helpers} (a b : list Site) : list Site :=
  match a, b with
  | x :: a', y :: b' =>
      if level_match (loop_level x) (loop_level y)
      then x :: common_prefix a' b' else []
  | _, _ => []
  end.

Definition longest_common_prefix `{Helpers} (stacks : list (list Site))
  : list Site :=
  match stacks with
  | [] => []
  | first :: rest => foldl common_prefix first rest
  end.

(** Reading of the legality claim: the allowed sites are the longest
    common prefix of the stacks recorded at the uses. *)
Definition allowed_is_common_prefix `{Helpers} : Prop :=
  forall func env s stacks allowed,
    use_stacks (fn_name func) env [] s = Some stacks ->
    ComputeLegalSchedules.legal_sites func env s = Some allowed ->
    allowed = longest_common_prefix stacks.

(** [level_match] behaves as an equivalence on the levels of these sites. *)
Definition match_is_equivalence_on `{Helpers} (sites : list Site) : Prop :=
  (forall a, a ∈ sites -> level_match (loop_level a) (loop_level a) = true) /\
  (forall a b c, a ∈ sites -> b ∈ sites -> c ∈ sites ->
                 level_match (loop_level a) (loop_level b) = true ->
                 level_match (loop_level b) (loop_level c) = true ->
                 level_match (loop_level a) (loop_level c) = true).

(** A computable check of [match_is_equivalence_on]. *)
Definition match_is_equivalence_onb `{Helpers} (sites : list Site) : bool :=
  forallb (fun a => level_match (loop_level a) (loop_level a)) sites &&
  forallb (fun a =>
     forallb (fun b =>
        forallb (fun c =>
           implb (level_match (loop_level a) (loop_level b) &&
                  level_match (loop_level b) (loop_level c))
                 (level_match (loop_level a) (loop_level c)))
                sites) sites) sites.

(** [register_use] as the step of a fold over the recorded stacks. *)
Definition register `{Helpers} (st : ComputeLegalSchedules.State)
           (stack : list Site) : ComputeLegalSchedules.State :=
  ComputeLegalSchedules.register_use stack st.





(** [substmt t s]: the node [t] occurs in the statement [s]. *)
Inductive substmt : Stmt -> Stmt -> Prop :=
| substmt_here s : substmt s s
| substmt_child t c s : c ∈ stmt_children s -> substmt t c -> substmt t s.

(** Every node of the statement satisfies [P]. *)
Definition all_nodes (P : Stmt -> Prop) (s : Stmt) : Prop :=
  forall t, substmt t s -> P t.

(** No loop named [….__outermost] and no binding of a bound of such a loop. *)
Definition no_outermost (t : Stmt) : Prop :=
  match t with
  | For name _ _ _ _ _ => is_outermost_loop name = false
  | LetStmt name _ _ => is_outermost_bound name = false
  | _ => True
  end.

(** No loop that the final pass removes, and no binding of a bound of an
    [__outermost] loop. *)
Definition no_removable `{Helpers} (t : Stmt) : Prop :=
  match t with
  | For name _ extent _ api _ =>
      RemoveLoopsOverOutermost.removable_loop name extent api = false
  | LetStmt name _ _ => is_outermost_bound name = false
  | _ => True
  end.

(** Reading of the claim on the final pass: nothing named [__outermost]
    survives it. *)
Definition outermost_all_removed `{Helpers} : Prop :=
  forall s s',
    RemoveLoopsOverOutermost.run s = Some s' -> all_nodes no_outermost s'.

(** Substitution rewrites expressions only: the nesting of statements is
    unchanged. *)
Definition substitute_keeps_height `{Helpers} : Prop :=
  forall name e s, stmt_height (substitute name e s) = stmt_height s.


(** The three bounds of a loop. *)
Inductive BoundKind : Type := KMin | KMax | KExtent.

Definition bound_suffix (k : BoundKind) : string :=
  match k with
  | KMin => ".loop_min"
  | KMax => ".loop_max"
  | KExtent => ".loop_extent"
  end.



(** The loop variables of the child stage and of the parent stage of a
    fused pair, for the dim [d]. *)
Definition child_var (pair : FusedPair) (d : Dim) : string :=
  stage_var (func_2 pair) (stage_2 pair) (dim_var d).



(** The name under which the walk over the fused pairs records a child:
    [<func_2>.s<stage_2>.<var>]. *)
Definition child_prefix (p : FusedPair) : string :=
  stage_var (func_2 p) (stage_2 p) (var_name p).




(** The body of the loops of the walk: what is done with one pair. *)
Definition visit_pair `{Helpers} (env : gmap string Function)
           (skip : gmap string bool) (fuel : nat)
           (st : list FusedPair * gset string) (pair : FusedPair)
  : option (list FusedPair * gset string) :=
  skipped ← skip !! func_2 pair;
  if skipped : bool then Some st
  else match env !! func_2 pair with
       | None => Some st
       | Some f =>
           if bool_decide (child_prefix pair ∈ st.2) then Some st
           else
             def_2 ← stage_definition f (stage_2 pair);
             InjectGroupRealization.collect_all_dependence_helper
               env fuel skip (child_prefix pair) def_2 pair st
       end.





(** The binding captured for a name, when there is one and it is defined. *)
Definition captured (bounds : gmap string (option Expr)) (name : string)
  : option Expr :=
  mjoin (bounds !! name).

(** The current bound of the parent loop [var_1]: the union computed so
    far when there is one, the captured original bound otherwise. *)
Definition current_parent_bound (bounds : gmap string (option Expr))
           (replacements : gmap string Expr) (var_1 : string) (kind : BoundKind)
  : option Expr :=
  match replacements !! (var_1 +:+ ".loop_min") with
  | None => captured bounds (var_1 +:+ bound_suffix kind)
  | Some _ => replacements !! (var_1 +:+ bound_suffix kind)
  end.

(** The loop variable of the parent stage [<prefix>.<var>] for the dim [d]. *)
Definition union_var (prefix : string) (d : Dim) : string :=
  prefix +:+ "." +:+ dim_var d.



(** The dims and the loop prefix of the parent stage of a fused group. *)
Definition parent_dims (f : Function) : list Dim :=
  dims (def_schedule (fn_definition f)).

Definition parent_prefix (f : Function) : string := fn_name f +:+ ".s0".





(* --- more vocabulary --- *)

(** An impure call node. *)
Definition impure_call (e : Expr) : bool :=
  match e with
  | Call _ _ _ ct _ => negb (is_pure ct)
  | _ => false
  end.

(** A [Realize] node of the function named [func]. *)
Definition realize_node (func : string) (s : Stmt) : bool :=
  match s with
  | Realize name _ _ _ _ => String.eqb name func
  | _ => false
  end.

(** The loops of a container list, in the order of the list. *)
Definition loops_of (nest : list Container) : list Container :=
  filter (fun c => c_type c = CFor) nest.

(** The loop that digs through the lets of a loop body: [k] is applied to
    the statement under the lets and the lets are reinstated around its
    result. *)
Definition under_lets {A} (k : Stmt -> option (Stmt * A)) (body : Stmt)
  : option (Stmt * A) :=
  r ← k (strip_lets body).2;
  Some (wrap_lets (strip_lets body).1 r.1, r.2).

(** No loop of the statement is matched by the level. *)
Definition no_loop_matches `{Helpers} (level : LoopLevel) (s : Stmt) : Prop :=
  all_nodes (fun t => match t with
                      | For name _ _ _ _ _ => level_match_name level name = false
                      | _ => True
                      end) s.

(** The flags of an injector only ever go from unset to set. *)
Definition found_le (a b : Found) : Prop :=
  (found_store_level a = true -> found_store_level b = true) /\
  (found_compute_level a = true -> found_compute_level b = true).

(** The statement binds the name [k] in a [LetStmt]. *)
Definition binds_name (k : string) (s : Stmt) : Prop :=
  exists v body, substmt (LetStmt k v body) s.

(** [covers d d']: the definition [d'] is [d] or is reached from it
    through specializations. *)
Inductive covers : Definition_ -> Definition_ -> Prop :=
| covers_here d : covers d d
| covers_spec d c sd d' :
    (c, sd) ∈ def_specializations d -> covers sd d' -> covers d d'.

(** The definitions of a function: its stages and their specializations. *)
Definition definition_of (f : Function) (d : Definition_) : Prop :=
  exists stage, stage ∈ fn_definition f :: fn_updates f /\ covers stage d.

(** The recorded pairs name distinct child stages, all of them marked as
    visited. *)
Definition walk_distinct (st : list FusedPair * gset string) : Prop :=
  NoDup (child_prefix <$> st.1) /\ forall q, q ∈ st.1 -> child_prefix q ∈ st.2.

(** The names of the bounds of the loops of the parent stage. *)
Definition parent_bound_name (f : Function) (k : string) : Prop :=
  exists d kind, d ∈ parent_dims f /\
                 k = union_var (parent_prefix f) d +:+ bound_suffix kind.

(** Two relevant splits agree, and the first is not a split with the
    tail strategy [ShiftInwards]. *)
Definition splits_agree (equal : option Expr -> option Expr -> bool)
           (s1 s2 : Split) : Prop :=
  splits_match equal s1 s2 = true /\
  (split_type s1 = SplitVar -> split_tail s1 <> ShiftInwards).

(** A fused dim of two stages of one function is a pure var, an rvar, or
    the result of the same splits in both stages. *)
Definition same_func_dim_valid (equal : option Expr -> option Expr -> bool)
           (f : Function) (def_1 def_2 : Definition_) (d : Dim) : Prop :=
  dim_var d ∉ fn_args f ->
  dim_var d ∉ map rv_var (rvars (def_schedule def_1)) ->
  Forall2 (splits_agree equal)
          (relevant_splits (dim_var d) (splits (def_schedule def_1)))
          (relevant_splits (dim_var d) (splits (def_schedule def_2))).

(** What the validation asks of a fused pair whose child [f2] is in the
    environment; [f1] is the parent and [def_1] the parent stage. *)
Definition fused_pair_valid (dim_differs : Dim -> Dim -> bool)
           (equal : option Expr -> option Expr -> bool)
           (f1 f2 : Function) (def_1 : Definition_) (p : FusedPair) : Prop :=
  def_specializations (fn_definition f2) = [] /\
  is_inline (compute_level (fn_schedule f1)) = false /\
  is_inline (compute_level (fn_schedule f2)) = false /\
  fn_extern f1 = None /\ fn_extern f2 = None /\
  (func_1 p = func_2 p \/
   compute_level (fn_schedule f1) = compute_level (fn_schedule f2)) /\
  exists def_2 i1 i2,
    stage_definition f2 (stage_2 p) = Some def_2 /\
    find_dim (dims (def_schedule def_1)) (var_name p) = Some i1 /\
    find_dim (dims (def_schedule def_2)) (var_name p) = Some i2 /\
    Forall2 (fun a b => dim_differs a b = false)
            (fused_dims (dims (def_schedule def_1)) i1)
            (fused_dims (dims (def_schedule def_2)) i2) /\
    (func_1 p = func_2 p ->
     Forall (same_func_dim_valid equal f1 def_1 def_2)
            (fused_dims (dims (def_schedule def_1)) i1)).

Definition is_ellipsis (l : Line) : bool :=
  match l with Ellipsis _ => true | _ => false end.

Definition is_uses (l : Line) : bool :=
  match l with UsesLine _ _ _ => true | _ => false end.

(** No two lines in a row are ellipses. *)
Fixpoint no_double_ellipsis (l : list Line) : bool :=
  match l with
  | a :: rest =>
      negb (is_ellipsis a && match rest with
                             | b :: _ => is_ellipsis b
                             | [] => false
                             end)
      && no_double_ellipsis rest
  | [] => true
  end.

Definition ends_in_ellipsis (l : list Line) : bool :=
  match last l with
  | Some x => is_ellipsis x
  | None => false
  end.

(** The invariant of the printer: no ellipsis was repeated, and the flag
    is set whenever the last line written is an ellipsis. *)
Definition printer_ok (st : Printer) : Prop :=
  no_double_ellipsis (stream st) = true /\
  (ends_in_ellipsis (stream st) = true -> last_print_was_ellipsis st = true).

(** A loop of the statement that is reported by name: it is not a loop
    over [__outermost] or root, and its body calls the function. *)
Definition reported_loop `{Helpers} (func name : string) (s : Stmt) : Prop :=
  exists mn ex ft api body,
    substmt (For name mn ex ft api body) s /\
    PrintUsesOfFunc.transparent_loop name = false /\
    StmtUsesFunc.visit func body = true.

(** [inline_function] rewrites the expressions of a loop and its body; the
    loop itself stays. *)
Definition inline_keeps_loops (inline_function : Stmt -> Function -> Stmt)
  : Prop :=
  forall name mn ex ft api body f, exists mn' ex' body',
    inline_function (For name mn ex ft api body) f
    = For name mn' ex' ft api body'.

(** A serial loop. *)
Definition serial_loop (s : Stmt) : Prop :=
  exists name mn ex api body, s = For name mn ex Serial api body.

(** The buffers that the arguments of an extern definition hand to the
    call, image parameters apart: one per output of a function argument,
    and one per buffer argument. *)
Definition is_input_buffer (ext : ExternDefinition) (buffer : Expr) : Prop :=
  exists arg, arg ∈ extern_arguments ext /\
    match arg with
    | FuncArg input =>
        exists k, k < ref_outputs input /\
          buffer = Variable_ Handle_
                     (buffer_name (ref_name input) (ref_outputs input) k)
    | BufferArg b => buffer = Variable_ Handle_ (b +:+ ".buffer")
    | ExprArg _ | ImageParamArg _ => False
    end.

(** The buffers that receive the outputs of an extern stage: the buffers
    of the function when it is stored where it is computed, temporary
    ones otherwise. *)
Definition is_output_buffer (f : Function) (buffer : Expr) : Prop :=
  exists j, j < fn_outputs f /\
    buffer = Variable_ Handle_
      (if bool_decide (store_level (fn_schedule f)
                       = compute_level (fn_schedule f))
       then buffer_name (fn_name f) (fn_outputs f) j
       else fn_name f +:+ "." +:+ Str.to_string j +:+ ".tmp_buffer").

(** The two annotations of the memory sanitizer. *)
Definition mark_buffer `{Helpers} (buffer : Expr) : Expr :=
  Call Int32 "halide_msan_annotate_memory_is_initialized"
       [buffer; UIntImm (UInt_ 64) sizeof_buffer_t] Extern 0.

Definition mark_contents (buffer : Expr) : Expr :=
  Call Int32 "halide_msan_annotate_buffer_is_initialized" [buffer] Extern 0.

(** A statement with no statement inside: an assertion, a store or an
    evaluation. *)
Definition is_leaf (t : Stmt) : bool :=
  match t with
  | AssertStmt _ _ | Provide _ _ _ | Evaluate _ => true
  | _ => false
  end.

(** Every leaf of [s] is found in [s']. *)
Definition keeps_leaves (s s' : Stmt) : Prop :=
  forall t, is_leaf t = true -> substmt t s -> substmt t s'.
(* --- sample schedules and statements --- *)

Module Examples.

Definition dims_x : list Dim :=
  [mkDim "x" Serial DeviceNone; mkDim "__outermost" Serial DeviceNone].

Definition plain_schedule (ds : list Dim) : Schedule :=
  mkSchedule ds [] [] [] LoopRoot LoopRoot LoopInline [] false false.

Definition x_ : Expr := Variable_ Int32 "x".

(** [f(x) = x + 1], specialized on [p] and on [q]. *)
Definition base_def (specs : list (Expr * Definition_)) : Definition_ :=
  mkDefinition true [x_] [Binary Add x_ (int_ 1)] (plain_schedule dims_x) [] specs.

Definition specialized_def : Definition_ :=
  base_def [(Variable_ Bool_ "p", base_def []); (Variable_ Bool_ "q", base_def [])].





(** [g(x) = x + 1] computed at [f]'s loop over [x]. *)
Definition g_at_f_x : Function :=
  mkFunction "g" ["x"]
    (mkDefinition true [x_] [Binary Add x_ (int_ 1)]
       (mkSchedule dims_x [] [] [] (LoopAt "f" "x") (LoopAt "f" "x")
                   LoopInline [] false false) [] [])
    [] [Int32] None.

Definition f_root : Function :=
  mkFunction "f" ["x"] (base_def []) [] [Int32] None.

Definition env_fg : gmap string Function :=
  <["f" := f_root]> (<["g" := g_at_f_x]> ∅).

Definition target_host : Target := mkTarget false false [DeviceNone; Host].

(** A body that calls [g] inside a realization of [g]. *)
Definition realized_use_of_g : Stmt :=
  Realize "g" [Int32] [] const_true
          (Evaluate (Call Int32 "g" [Variable_ Int32 "f.s0.x"] Halide 0)).

Definition dims_xy : list Dim :=
  [mkDim "x" Serial DeviceNone; mkDim "y" Parallel DeviceNone;
   mkDim "__outermost" Serial DeviceNone].



Definition zero : Expr := int_ 0.
Definition one : Expr := int_ 1.

Definition loop (name : string) (body : Stmt) : Stmt :=
  For name zero one Serial DeviceNone body.

Definition call_g : Stmt :=
  Evaluate (Call Int32 "g" [Variable_ Int32 "x"] Halide 0).

(** [g] is called in the pure stage of [f], inside the loops over [y] and
    [x], and in the update stage of [f], inside the loops over [z] and [x]. *)
Definition two_uses_of_g : Stmt :=
  For ".__root" zero one Serial Host
      (Block (loop "f.s0.y" (loop "f.s0.x" call_g))
             (loop "f.s1.z" (loop "f.s1.x" call_g))).

Definition site_root : Site := mkSite false LoopRoot.
Definition site_f (var : string) : Site := mkSite false (LoopAt "f" var).

(** A loop over [__outermost] that carries a device API. *)
Definition gpu_outermost : Stmt :=
  For "f.s0.__outermost" zero one Serial Default_GPU (Evaluate zero).

(** The bindings and loops of [f.s0] as the loop-nest builder leaves them. *)
Definition nest_with_outermost : Stmt :=
  LetStmt "f.s0.__outermost.loop_extent" one
    (LetStmt "f.s0.__outermost.loop_min" zero
       (For "f.s0.__outermost"
            (Variable_ Int32 "f.s0.__outermost.loop_min")
            (Variable_ Int32 "f.s0.__outermost.loop_extent")
            Serial DeviceNone
            (loop "f.s0.x" (Provide "f" [x_] [Variable_ Int32 "f.s0.__outermost"])))).

(** [g.compute_with(f, x)]: stage 0 of [g] is fused into stage 0 of [f]. *)
Definition pair_f_g : FusedPair := mkFusedPair "f" "g" 0 0 "x".

Definition f_parent : Function :=
  mkFunction "f" ["x"]
    (mkDefinition true [x_] [Binary Add x_ (int_ 1)]
       (mkSchedule dims_x [] [] [] LoopRoot LoopRoot LoopInline
                   [pair_f_g] false false) [] [])
    [] [Int32] None.

Definition g_child : Function :=
  mkFunction "g" ["x"]
    (mkDefinition true [x_] [Binary Mul x_ (int_ 2)]
       (mkSchedule dims_x [] [] [] LoopRoot LoopRoot (LoopAt "f" "x")
                   [] false false) [] [])
    [] [Int32] None.

Definition env_group : gmap string Function :=
  <["f" := f_parent]> (<["g" := g_child]> ∅).

Definition no_skip : gmap string bool := <["f" := false]> (<["g" := false]> ∅).

(** A consumer of both [f] and [g]. *)
Definition consumer_of_f_g : Stmt :=
  Evaluate (Binary Add (Call Int32 "f" [zero] Halide 0)
                       (Call Int32 "g" [zero] Halide 0)).

Definition root_skeleton (body : Stmt) : Stmt :=
  For ".__root" zero one Serial Host body.



(** The bounds captured while the loops of [f] and [g] are built. *)
Definition captured_bounds : gmap string (option Expr) :=
  <["f.s0.x.loop_min" := Some (Variable_ Int32 "f.x.min")]>
    (<["f.s0.x.loop_max" := Some (Variable_ Int32 "f.x.max")]>
       (<["f.s0.x.loop_extent" := Some (Variable_ Int32 "f.x.extent")]>
          (<["g.s0.x.loop_min" := Some (Variable_ Int32 "g.x.min")]>
             (<["g.s0.x.loop_max" := Some (Variable_ Int32 "g.x.max")]>
                (<["g.s0.x.loop_extent" := Some (Variable_ Int32 "g.x.extent")]>
                   ∅))))).

(** A container list as the loop-nest builder puts it together for
    [f.s0] over [x] and [y]: the loops, a let stripped off the statement
    and a predicate; and what the two sorts make of it. *)
Definition no_splits : ApplySplitResult := mkApplySplitResult [] [] [].

Definition sample_lets : list (string * Expr) :=
  [("f.s0.t", Binary Add (Variable_ Int32 "f.s0.y") (int_ 1))].

Definition sample_preds : list Expr := [Binary LT (Variable_ Int32 "p") (int_ 3)].

Definition sample_nest : list Container :=
  initial_nest (H := Reference.helpers) "f.s0." (plain_schedule dims_xy)
               no_splits sample_lets sample_preds.

Definition sample_nest_lets_sorted : list Container :=
  Eval vm_compute in
    default [] (sort_lets (H := Reference.helpers) 3 1 sample_nest).

Definition sample_nest_sorted : list Container :=
  Eval vm_compute in
    default [] (sort_predicates (H := Reference.helpers) 1 sample_nest_lets_sorted).

(** A nest none of whose loops belongs to [f], and one in which [g] is
    called inside [f]'s loop over [x]; what the single-function injector
    makes of the latter for [g]. *)
Definition unrelated_nest : Stmt := root_skeleton (loop "h.s0.y" call_g).

Definition g_used_in_f : Stmt := root_skeleton (loop "f.s0.x" call_g).

Definition g_injected : Stmt * Found :=
  Eval vm_compute in
    default (Evaluate zero, mkFound false false)
            (InjectRealization.mutate (H := Reference.helpers)
               g_at_f_x false target_host env_fg g_used_in_f
               (mkFound false false)).

(** The loop of the fused child [g] with the binding of its min, the
    replacements registered for it, and a map that asks for the capture
    of that binding. *)
Definition child_loop_of_g : Stmt :=
  LetStmt "g.s0.x.loop_min" (Variable_ Int32 "g.s0.x.min")
    (For "g.s0.x" (Variable_ Int32 "g.s0.x.loop_min")
         (Variable_ Int32 "g.s0.x.loop_extent") Parallel DeviceNone
         (Provide "g" [Variable_ Int32 "g.s0.x"] [Variable_ Int32 "g.s0.x"])).

Definition child_replacements : gmap string Expr :=
  <["g.s0.x.loop_min" := Variable_ Int32 "f.s0.x"]>
    (<["g.s0.x.loop_extent" := make_const Int32 1]> ∅).

Definition bounds_to_capture : gmap string (option Expr) :=
  <["g.s0.x.loop_min" := None]> ∅.

Definition child_loop_substituted : Stmt * gmap string (option Expr) :=
  default (Evaluate zero, ∅)
          (SubstituteBounds.mutate (H := Reference.helpers) child_replacements
                                   child_loop_of_g bounds_to_capture).

(** [f]'s loop over [x] with a body that calls nothing. *)
Definition f_alone : Stmt := root_skeleton (loop "f.s0.x" (Evaluate zero)).

(** A definition that names the fused pair of [f] and [g] twice. *)
Definition twice_fused_def : Definition_ :=
  mkDefinition true [x_] [x_]
    (mkSchedule dims_x [] [] [] LoopRoot LoopRoot LoopInline
                [pair_f_g; pair_f_g] false false) [] [].

(** The union of the bounds of [f] with those of its fused child [g]. *)
Definition unioned_bounds : gmap string Expr :=
  default ∅ (InjectGroupRealization.union_bounds (H := Reference.helpers)
               no_skip f_parent captured_bounds [pair_f_g]).

(** [f(x) = g(x) + 1] computed at root, with a memoized [g(x) = x + 1]
    computed at [f]'s loop over [x]. *)
Definition f_calling_g : Function :=
  mkFunction "f" ["x"]
    (mkDefinition true [x_]
       [Binary Add (Call Int32 "g" [x_] Halide 0) (int_ 1)]
       (plain_schedule dims_x) [] [])
    [] [Int32] None.

Definition g_memoized : Function :=
  mkFunction "g" ["x"]
    (mkDefinition true [x_] [Binary Add x_ (int_ 1)]
       (mkSchedule dims_x [] [] [] (LoopAt "f" "x") (LoopAt "f" "x")
                   LoopInline [] false true) [] [])
    [] [Int32] None.

Definition env_pipeline : gmap string Function :=
  <["f" := f_calling_g]> (<["g" := g_memoized]> ∅).

(** Stand-ins for [Function::same_as] and [inline_function]. *)
Definition same_name (a b : Function) : bool :=
  String.eqb (fn_name a) (fn_name b).

Definition no_inlining (s : Stmt) (f : Function) : Stmt := s.

(** The pipeline of [f_calling_g] and [g_memoized] before the loop over
    root is removed. *)
Definition pipeline_rooted : Stmt :=
  Eval vm_compute in
    match schedule_groups (H := Reference.helpers) same_name no_inlining
                          [f_calling_g] env_pipeline target_host
                          [["g"]; ["f"]] with
    | Some r => r.1
    | None => Evaluate zero
    end.

(** What the group injector makes of a consumer of the fused [f] and [g]. *)
Definition group_consumer : Stmt := root_skeleton consumer_of_f_g.

Definition group_injected : Stmt * Found :=
  Eval vm_compute in
    default (Evaluate zero, mkFound false false)
            (InjectGroupRealization.mutate (H := Reference.helpers)
               [f_parent; g_child] [false; false] target_host env_group
               group_consumer (mkFound false false)).

End Examples.
(* --- proofs --- *)

Section BuilderFacts.
Context `{Helpers}.

Lemma swap_up_app (l1 : list Container) c x l2 :
  swap_up (l1 ++ c :: x :: l2) (length l1) = l1 ++ x :: c :: l2.
Proof.
  unfold swap_up.
  rewrite list_lookup_middle by done.
  replace (S (length l1)) with (length (l1 ++ [c])) by (rewrite length_app; simpl; lia).
  replace (l1 ++ c :: x :: l2) with ((l1 ++ [c]) ++ x :: l2) by (by rewrite <- app_assoc).
  rewrite list_lookup_middle by done.
  rewrite insert_app_r_alt by lia.
  replace (length (l1 ++ [c]) - length (l1 ++ [c])) with 0 by lia. simpl.
  rewrite <- app_assoc. simpl.
  rewrite insert_app_r_alt by lia.
  replace (length l1 - length l1) with 0 by lia. done.
Qed.

(** The inner loop moves [x] over the longest run of containers just
    outside it whose names its value does not use. *)
Lemma push_up_split (l1 : list Container) x l2 v :
  c_value x = Some v ->
  exists a b,
    l1 = a ++ b /\
    push_up (l1 ++ x :: l2) (length l1) = Some (a ++ x :: b ++ l2) /\
    Forall (fun c => may_pass x c = true) b /\
    (a = [] \/ exists a' c, a = a' ++ [c] /\ may_pass x c = false).
Proof.
  intros Hv. revert l2.
  induction l1 as [|c l IH] using rev_ind; intros l2.
  - exists [], []. simpl. auto.
  - assert (Hx : (l ++ c :: x :: l2) !! S (length l) = Some x).
    { rewrite lookup_app_r by lia.
      replace (S (length l) - length l) with 1 by lia. done. }
    assert (Hc : (l ++ c :: x :: l2) !! length l = Some c)
      by (by apply list_lookup_middle).
    assert (Hstep : push_up ((l ++ [c]) ++ x :: l2) (length (l ++ [c])) =
                    if negb (expr_uses_var v (c_name c))
                    then push_up (l ++ x :: c :: l2) (length l)
                    else Some (l ++ c :: x :: l2)).
    { rewrite length_app, <- app_assoc. simpl. rewrite Nat.add_1_r. simpl.
      rewrite Hx, Hc. simpl. rewrite Hv. simpl. by rewrite swap_up_app. }
    rewrite Hstep.
    destruct (expr_uses_var v (c_name c)) eqn:Huse; simpl.
    + exists (l ++ [c]), []. rewrite app_nil_r.
      split; [done|]. split; [by rewrite <- app_assoc|]. split; [constructor|].
      right. exists l, c. split; [done|]. unfold may_pass. by rewrite Hv, Huse.
    + destruct (IH (c :: l2)) as (a & b & -> & Hpush & Hb & Ha).
      exists a, (b ++ [c]). rewrite Hpush.
      split; [by rewrite <- app_assoc|].
      split; [by rewrite <- !app_assoc|].
      split; [|done].
      apply Forall_app. split; [done|]. constructor; [|done].
      unfold may_pass. by rewrite Hv, Huse.
Qed.


Lemma foldlM_cons {A B} (f : A -> B -> option A) a x l :
  foldlM f a (x :: l) = f a x ≫= fun a' => foldlM f a' l.
Proof. done. Qed.

Lemma sort_let_step_at (done : list Container) x rest :
  c_type x = CLet -> is_Some (c_value x) ->
  sort_let_step (done ++ x :: rest) (length done) =
  push_up (done ++ x :: rest) (length done).
Proof.
  intros Hty Hv. unfold sort_let_step.
  rewrite list_lookup_middle by done. simpl.
  rewrite !bool_decide_eq_true_2 by done. done.
Qed.

Lemma sort_lets_split (done todo rest : list Container) :
  Forall (fun c => c_type c = CLet /\ is_Some (c_value c)) todo ->
  exists done',
    foldlM sort_let_step (done ++ todo ++ rest)
           (seq (length done) (length todo)) = Some (done' ++ rest) /\
    done' ≡ₚ done ++ todo.
Proof.
  revert done. induction todo as [|x todo IH]; intros done Htodo.
  - exists done. simpl. by rewrite app_nil_r.
  - inversion Htodo as [|? ? [Hty Hsome] Htodo']; subst.
    destruct Hsome as [v Hv].
    change (length (x :: todo)) with (S (length todo)).
    change ((x :: todo) ++ rest) with (x :: todo ++ rest).
    cbn [seq]. rewrite foldlM_cons.
    rewrite sort_let_step_at by eauto.
    destruct (push_up_split done x (todo ++ rest) v Hv)
      as (a & b & -> & Hpush & _ & _).
    rewrite Hpush. simpl.
    destruct (IH (a ++ x :: b) Htodo') as (done' & Hfold & Hperm).
    rewrite length_app in Hfold. simpl in Hfold.
    rewrite length_app.
    replace (S (length a + length b)) with (length a + S (length b)) by lia.
    rewrite <- app_assoc in Hfold. simpl in Hfold.
    exists done'. split; [exact Hfold|].
    rewrite Hperm. rewrite <- !app_assoc. simpl.
    apply Permutation_app_head.
    by rewrite (Permutation_middle b todo x).
Qed.

Lemma sort_predicates_split (done todo : list Container) :
  Forall (fun c => c_type c = CIf /\ is_Some (c_value c)) todo ->
  exists done',
    foldlM sort_predicate_step (done ++ todo)
           (seq (length done) (length todo)) = Some done' /\
    done' ≡ₚ done ++ todo.
Proof.
  revert done. induction todo as [|x todo IH]; intros done Htodo.
  - exists done. simpl. by rewrite app_nil_r.
  - inversion Htodo as [|? ? [Hty Hsome] Htodo']; subst.
    destruct Hsome as [v Hv].
    change (length (x :: todo)) with (S (length todo)).
    cbn [seq]. rewrite foldlM_cons.
    assert (Hstep : exists a b, done = a ++ b /\
              sort_predicate_step (done ++ x :: todo) (length done) =
              Some (a ++ x :: b ++ todo)).
    { unfold sort_predicate_step.
      rewrite list_lookup_middle by done. simpl. rewrite Hv. simpl.
      rewrite bool_decide_eq_true_2 by done. simpl.
      destruct (contains_impure_call v).
      - exists done, []. by rewrite app_nil_r.
      - destruct (push_up_split done x todo v Hv) as (a & b & ? & ? & _).
        eauto. }
    destruct Hstep as (a & b & -> & ->). simpl.
    destruct (IH (a ++ x :: b) Htodo') as (done' & Hfold & Hperm).
    rewrite length_app in Hfold. simpl in Hfold.
    rewrite length_app.
    replace (S (length a + length b)) with (length a + S (length b)) by lia.
    rewrite <- app_assoc in Hfold. simpl in Hfold.
    exists done'. split; [exact Hfold|].
    rewrite Hperm. rewrite <- !app_assoc. simpl.
    apply Permutation_app_head.
    by rewrite (Permutation_middle b todo x).
Qed.

Lemma rewrap_total (s : Schedule) (nest : list Container) (stmt : Stmt) :
  Forall (ok_container s) nest ->
  is_Some (foldlM (fun st c => rewrap s c st) stmt nest).
Proof.
  revert stmt. induction nest as [|c nest IH]; intros stmt Hok.
  - by eexists.
  - inversion Hok as [|? ? Hc Hrest]; subst.
    rewrite foldlM_cons.
    assert (is_Some (rewrap s c stmt)) as [st' ->].
    { unfold rewrap, ok_container in *.
      destruct (c_type c).
      - apply lookup_lt_is_Some_2 in Hc as [d ->]. by eexists.
      - destruct Hc as [v ->]. by eexists.
      - destruct Hc as [v ->]. by eexists. }
    simpl. by apply IH.
Qed.

Lemma initial_nest_ok prefix (s : Schedule) r stripped preds :
  Forall (ok_container s) (initial_nest prefix s r stripped preds).
Proof.
  unfold initial_nest. rewrite !Forall_app. repeat split.
  - apply Forall_rev. apply Forall_lookup_2. intros i c Hc.
    rewrite list_lookup_imap in Hc.
    destruct (dims s !! i) as [d|] eqn:Hd; simpl in Hc; [|done].
    injection Hc as <-. unfold ok_container. simpl.
    by eapply lookup_lt_Some.
  - apply Forall_rev, Forall_map, Forall_true. intros [? ?].
    unfold ok_container. simpl. by eexists.
  - apply Forall_map, Forall_true. intros [? ?].
    unfold ok_container. simpl. by eexists.
  - apply Forall_map, Forall_true. intros ?.
    unfold ok_container. simpl. by eexists.
  - apply Forall_map, Forall_true. intros ?.
    unfold ok_container. simpl. by eexists.
Qed.

(** The builder of one loop nest never aborts and ends with the bound
    bindings. *)
Lemma build_provide_loop_nest_helper_total
      func_name prefix start_fuse pure_dims site values preds s is_update :
  exists stmt,
    build_provide_loop_nest_helper func_name prefix start_fuse pure_dims
                                   site values preds s is_update
    = Some (bound_lets prefix pure_dims s stmt).
Proof.
  unfold build_provide_loop_nest_helper.
  set (r := apply_splits _ _ _ _).
  destruct (strip_lets _) as [stripped stmt0].
  set (fors := rev (imap (fun i d => mkContainer CFor i (prefix +:+ dim_var d) None)
                         (dims s))).
  set (lets := rev (map (fun l => mkContainer CLet 0 l.1 (Some l.2)) (let_stmts r))
               ++ map (fun l => mkContainer CLet 0 l.1 (Some l.2)) stripped).
  set (ifs := map (fun p => mkContainer CIf 0 "" (Some p)) (predicates r)
              ++ map (fun p => mkContainer CIf 0 "" (Some (likely (qualify prefix p))))
                     preds).
  assert (Hnest : initial_nest prefix s r stripped preds = fors ++ lets ++ ifs).
  { unfold initial_nest, fors, lets, ifs. by rewrite <- !app_assoc. }
  assert (Hfors : length fors = length (dims s)).
  { unfold fors. by rewrite length_rev, length_imap. }
  assert (Hifs : length ifs = length (predicates r) + length preds).
  { unfold ifs. by rewrite length_app, !length_map. }
  assert (Hlets : Forall (fun c => c_type c = CLet /\ is_Some (c_value c)) lets).
  { unfold lets. apply Forall_app. split.
    - apply Forall_rev, Forall_map, Forall_true. intros [? ?]. simpl. eauto.
    - apply Forall_map, Forall_true. intros [? ?]. simpl. eauto. }
  assert (Hifs' : Forall (fun c => c_type c = CIf /\ is_Some (c_value c)) ifs).
  { unfold ifs. apply Forall_app. split.
    - apply Forall_map, Forall_true. intros ?. simpl. eauto.
    - apply Forall_map, Forall_true. intros ?. simpl. eauto. }
  pose proof (initial_nest_ok prefix s r stripped preds) as Hok.
  rewrite Hnest in *.
  unfold sort_lets.
  rewrite !length_app, <- Hfors, <- Hifs.
  replace (length fors + (length lets + length ifs) - length ifs - length fors)
    with (length lets) by lia.
  destruct (sort_lets_split fors lets ifs Hlets) as (done' & -> & Hperm).
  simpl. unfold sort_predicates.
  assert (Hlen : length done' = length fors + length lets).
  { by rewrite Hperm, length_app. }
  rewrite length_app, Hlen.
  replace (length fors + length lets + length ifs - length ifs)
    with (length done') by lia.
  replace (length fors + length lets + length ifs - length done')
    with (length ifs) by lia.
  destruct (sort_predicates_split done' ifs Hifs') as (nest & -> & Hperm2).
  simpl.
  destruct (rewrap_total s (rev nest) stmt0) as [stmt ->].
  { apply Forall_rev. rewrite Hperm2, Hperm. by rewrite <- app_assoc. }
  simpl. by eexists.
Qed.

(** The nest ends with the bindings of the bounds: it is a [LetStmt]. *)
Lemma foldl_let_stmt {A} (f : Stmt -> A -> Stmt) (l : list A) (s : Stmt) :
  (forall st x, exists n v b, f st x = LetStmt n v b) ->
  (exists n v b, s = LetStmt n v b) ->
  exists n v b, foldl f s l = LetStmt n v b.
Proof.
  intros Hf. revert s. induction l as [|x l IH]; intros s Hs; [done|].
  simpl. apply IH. apply Hf.
Qed.

Lemma bound_lets_is_let prefix pure_dims s stmt :
  exists n v b, bound_lets prefix pure_dims s stmt = LetStmt n v b.
Proof.
  unfold bound_lets.
  apply foldl_let_stmt; [intros; by eexists _, _, _|].
  apply foldl_let_stmt; [intros; by eexists _, _, _|].
  by eexists _, _, _.
Qed.

Lemma build_provide_loop_nest_unfold
      func_name prefix start_fuse pure_dims init args values sched preds specs
      is_update :
  build_provide_loop_nest func_name prefix start_fuse pure_dims
    (mkDefinition init args values sched preds specs) is_update =
  (_ ← internal_assert (bool_decide (negb is_update = init));
   stmt ← build_provide_loop_nest_helper
          func_name prefix start_fuse pure_dims
          (map (qualify prefix) args) (map (qualify prefix) values)
          preds sched is_update;
   specialize_with
     (fun d => build_provide_loop_nest func_name prefix start_fuse pure_dims
                                       d is_update)
     stmt specs).
Proof.
  simpl. destruct (internal_assert _); [|done]. simpl.
  destruct (build_provide_loop_nest_helper _ _ _ _ _ _ _ _ _) as [stmt|]; [|done].
  simpl. induction specs as [|[c sd] rest IH]; [done|].
  simpl. by rewrite IH.
Qed.

Lemma else_spine_let n v b : else_spine (LetStmt n v b) = ([], LetStmt n v b).
Proof. done. Qed.

Lemma stage_flags_ok_unfold is_update init args values sched preds specs :
  stage_flags_ok is_update (mkDefinition init args values sched preds specs) = true ->
  negb is_update = init /\
  Forall (fun sp => stage_flags_ok is_update sp.2 = true) specs.
Proof.
  simpl. intros [Hi Hs]%andb_true_iff. split.
  - by apply bool_decide_eq_true_1 in Hi.
  - clear Hi. induction specs as [|[c sd] rest IH]; [constructor|].
    apply andb_true_iff in Hs as [? ?]. constructor; [done|]. by apply IH.
Qed.

(** Every stage whose flags are consistent gets a loop nest. *)
Lemma build_provide_loop_nest_total
      func_name prefix start_fuse pure_dims def is_update :
  stage_flags_ok is_update def = true ->
  is_Some (build_provide_loop_nest func_name prefix start_fuse pure_dims
                                   def is_update).
Proof.
  induction def as [init args values sched preds specs IH] using Definition_ind'.
  intros [Hi Hs]%stage_flags_ok_unfold.
  rewrite build_provide_loop_nest_unfold.
  rewrite bool_decide_eq_true_2 by done. simpl.
  destruct (build_provide_loop_nest_helper_total func_name prefix start_fuse
              pure_dims (map (qualify prefix) args) (map (qualify prefix) values)
              preds sched is_update) as [stmt ->].
  simpl.
  induction specs as [|[c sd] rest IHr]; [by eexists|].
  inversion IH as [|? ? Hsd Hrest]; subst.
  inversion Hs as [|? ? Hsd' Hrest']; subst.
  simpl in *. destruct (IHr Hrest Hrest') as [st ->]. simpl.
  destruct (Hsd Hsd') as [th ->]. simpl. by eexists.
Qed.

(** C5. For a definition with k specializations the loop-nest builder
    returns a statement whose else-spine is a chain of exactly k
    [IfThenElse] nodes: the test of specialization 0 is the outermost, the
    then-branch of test i is the nest of specialization i, and the chain
    falls through to the base (non-specialized) nest. *)
Theorem build_provide_loop_nest_specialization_chain
        func_name prefix start_fuse pure_dims def is_update :
  stage_flags_ok is_update def = true ->
  exists stmt base tests,
    build_provide_loop_nest func_name prefix start_fuse pure_dims def is_update
    = Some stmt /\
    build_provide_loop_nest_helper
      func_name prefix start_fuse pure_dims
      (map (qualify prefix) (def_args def)) (map (qualify prefix) (def_values def))
      (def_split_predicate def) (def_schedule def) is_update = Some base /\
    else_spine stmt = (tests, base) /\
    length tests = length (def_specializations def) /\
    Forall2 (fun sp test =>
               test.1 = sp.1 /\
               build_provide_loop_nest func_name prefix start_fuse pure_dims
                                       sp.2 is_update = Some test.2)
            (def_specializations def) tests.
Proof.
  destruct def as [init args values sched preds specs].
  intros [Hi Hs]%stage_flags_ok_unfold.
  rewrite build_provide_loop_nest_unfold.
  rewrite bool_decide_eq_true_2 by done. simpl.
  destruct (build_provide_loop_nest_helper_total func_name prefix start_fuse
              pure_dims (map (qualify prefix) args) (map (qualify prefix) values)
              preds sched is_update) as [inner Hbase].
  rewrite Hbase. simpl.
  destruct (bound_lets_is_let prefix pure_dims sched inner) as (n & v & b & Hlet).
  rewrite Hlet in *.
  set (base := LetStmt n v b).
  enough (exists stmt tests,
             specialize_with
               (fun d => build_provide_loop_nest func_name prefix start_fuse
                                                 pure_dims d is_update)
               base specs = Some stmt /\
             else_spine stmt = (tests, base) /\
             length tests = length specs /\
             Forall2 (fun sp test =>
                        test.1 = sp.1 /\
                        build_provide_loop_nest func_name prefix start_fuse
                          pure_dims sp.2 is_update = Some test.2) specs tests)
    as (stmt & tests & ? & ? & ? & ?) by (exists stmt, base, tests; auto).
  induction specs as [|[c sd] rest IH].
  - exists base, []. simpl. auto.
  - inversion Hs as [|? ? Hsd Hrest]; subst.
    destruct (IH Hrest) as (st & tests & Hst & Hspine & Hlen & Hall).
    destruct (build_provide_loop_nest_total func_name prefix start_fuse
                pure_dims sd is_update Hsd) as [th Hth].
    exists (IfThenElse c th (Some st)), ((c, th) :: tests).
    simpl. rewrite Hst. simpl. rewrite Hth. simpl. rewrite Hspine.
    repeat split; auto.
Qed.


End BuilderFacts.

Lemma build_provide_loop_nest_specialization_chain_witness :
  exists stmt base tests,
    build_provide_loop_nest (H := Reference.helpers) "f" "f.s0." (-1) ["x"]
                            Examples.specialized_def false = Some stmt /\
    build_provide_loop_nest_helper (H := Reference.helpers)
      "f" "f.s0." (-1) ["x"]
      (map (qualify (Helpers := Reference.helpers) "f.s0.")
           (def_args Examples.specialized_def))
      (map (qualify (Helpers := Reference.helpers) "f.s0.")
           (def_values Examples.specialized_def))
      (def_split_predicate Examples.specialized_def)
      (def_schedule Examples.specialized_def) false = Some base /\
    else_spine stmt = (tests, base) /\
    length tests = length (def_specializations Examples.specialized_def) /\
    Forall2 (fun sp test =>
               test.1 = sp.1 /\
               build_provide_loop_nest (H := Reference.helpers)
                 "f" "f.s0." (-1) ["x"] sp.2 false = Some test.2)
            (def_specializations Examples.specialized_def) tests.
Proof.
  apply (build_provide_loop_nest_specialization_chain
           (H := Reference.helpers) "f" "f.s0." (-1) ["x"]
           Examples.specialized_def false).
  reflexivity.
Defined.



Section ExplicitBounds.

Lemma foldr_Block_snoc (l : list Stmt) a body :
  foldr Block body (l ++ [a]) = foldr Block (Block a body) l.
Proof. by rewrite foldr_app. Qed.

Lemma inject_bounds_of_stage func stage (bs : list Bound) body :
  foldl (fun body b =>
           match explicit_bound_assert func stage b with
           | Some a => Block a body
           | None => body
           end) body bs
  = foldr Block body (rev (omap (explicit_bound_assert func stage) bs)).
Proof.
  revert body. induction bs as [|b bs IH]; intros body; [done|].
  simpl. rewrite IH.
  destruct (explicit_bound_assert func stage b) as [a|]; [|done].
  simpl. by rewrite foldr_Block_snoc.
Qed.

Lemma inject_explicit_bounds_spec body func :
  inject_explicit_bounds body func
  = foldr Block body (rev (explicit_bound_asserts func)).
Proof.
  unfold inject_explicit_bounds, explicit_bound_asserts.
  generalize (seq 0 (S (length (fn_updates func)))) as stages.
  intros stages. revert body.
  induction stages as [|st stages IH]; intros body; [done|].
  simpl. rewrite IH, inject_bounds_of_stage.
  by rewrite rev_app_distr, foldr_app.
Qed.

Lemma eval_bound_check env umin extent imin imax :
  eval env (Binary And (Binary LE umin imin)
                       (Binary GE (Binary Sub (Binary Add extent umin) (int_ 1))
                                  imax))
  = eval env (bound_check umin extent imin imax).
Proof.
  unfold bound_check. simpl.
  destruct (eval env umin) as [u|], (eval env imin) as [i|],
           (eval env extent) as [x|]; simpl; try done.
  by rewrite (Z.add_comm x u).
Qed.

(** C7. The realization of a function is preceded by one assertion for
    every stage [0..#updates] and every explicit bound with an extent;
    its condition is [(user_min <= inferred_min) && (user_min + extent - 1
    >= inferred_max)] and its message calls
    [halide_error_explicit_bounds_too_small].  A bound without extent
    emits nothing, and nothing at all is emitted under [NoAsserts]. *)
Theorem explicit_bounds_assertions func is_output target (s : Stmt) :
  let inner := if is_output : bool then s else realization_of func s in
  InjectRealization.build_realize func is_output target s
  = (if NoAsserts target then inner
     else foldr Block inner (rev (explicit_bound_asserts func))) /\
  (forall a, a ∈ explicit_bound_asserts func <->
             exists stage b, stage <= length (fn_updates func) /\
                             b ∈ bounds (fn_schedule func) /\
                             explicit_bound_assert func stage b = Some a) /\
  (forall stage b,
      let prefix := stage_var (fn_name func) stage (bound_var b) in
      let inferred_min := Variable_ Int32 (prefix +:+ ".min_unbounded") in
      let inferred_max := Variable_ Int32 (prefix +:+ ".max_unbounded") in
      match bound_extent b with
      | None => explicit_bound_assert func stage b = None
      | Some extent =>
          let user_min := default inferred_min (bound_min b) in
          let check :=
            Binary And (Binary LE user_min inferred_min)
                       (Binary GE (Binary Sub (Binary Add extent user_min) (int_ 1))
                                  inferred_max) in
          exists msg_args,
            explicit_bound_assert func stage b
            = Some (AssertStmt check
                      (Call Int32 "halide_error_explicit_bounds_too_small"
                            msg_args Extern 0)) /\
            forall env, eval env check
                        = eval env (bound_check user_min extent
                                                inferred_min inferred_max)
      end).
Proof.
  split; [|split].
  - unfold InjectRealization.build_realize, realization_of. simpl.
    destruct is_output, (NoAsserts target); simpl; try done;
      apply inject_explicit_bounds_spec.
  - intros a. unfold explicit_bound_asserts.
    rewrite list_elem_of_In, in_flat_map. split.
    + intros (stage & Hstage & Ha).
      apply list_elem_of_In, list_elem_of_omap in Ha as (b & Hb & Hba).
      apply list_elem_of_In, elem_of_seq in Hstage.
      exists stage, b. split; [lia|done].
    + intros (stage & b & Hstage & Hb & Hba).
      exists stage. split.
      * apply list_elem_of_In, elem_of_seq. lia.
      * apply list_elem_of_In, list_elem_of_omap. eauto.
  - intros stage b. unfold explicit_bound_assert, stage_var. cbv zeta.
    destruct (bound_extent b) as [extent|]; [|done].
    eexists _. split; [reflexivity|].
    intros env. apply eval_bound_check.
Qed.

End ExplicitBounds.

Section UseFacts.

Lemma Expr_children_ind (P : Expr -> Prop) :
  (forall e, Forall P (expr_children e) -> P e) -> forall e, P e.
Proof.
  intros HP. induction e using Expr_ind'; apply HP; simpl; auto.
Qed.

Lemma Stmt_children_ind (P : Stmt -> Prop) :
  (forall s, Forall P (stmt_children s) -> P s) -> forall s, P s.
Proof.
  intros HP. induction s using Stmt_ind'; apply HP; simpl; auto.
Qed.

Lemma existsb_true_iff {A} (f : A -> bool) (l : list A) :
  existsb f l = true <-> exists x, x ∈ l /\ f x = true.
Proof.
  rewrite existsb_exists. setoid_rewrite list_elem_of_In. done.
Qed.

Lemma visit_expr_children func e :
  IsUsedInStmt.visit_expr func e
  = use_node func e || existsb (IsUsedInStmt.visit_expr func) (expr_children e).
Proof.
  destruct e; simpl; rewrite ?orb_false_r; try done.
  - by rewrite orb_assoc.
  - by rewrite orb_comm.
Qed.

Lemma visit_expr_iff func e :
  IsUsedInStmt.visit_expr func e = true <->
  exists e', subexpr e' e /\ use_node func e' = true.
Proof.
  induction e as [e IH] using Expr_children_ind.
  rewrite visit_expr_children, orb_true_iff, existsb_true_iff. split.
  - intros [Hhere|(c & Hc & Hvisit)].
    + exists e. split; [constructor|done].
    + rewrite Forall_forall in IH. apply (IH c Hc) in Hvisit as (e' & Hsub & Huse).
      exists e'. split; [by eapply subexpr_child|done].
  - intros (e' & Hsub & Huse). inversion Hsub as [|? c ? Hc Hsub']; subst.
    + by left.
    + right. exists c. split; [done|].
      rewrite Forall_forall in IH. apply (IH c Hc). eauto.
Qed.

Lemma visit_children func s :
  IsUsedInStmt.visit func s
  = existsb (IsUsedInStmt.visit_expr func) (stmt_exprs s)
    || existsb (IsUsedInStmt.visit func) (stmt_children s).
Proof.
  destruct s as [| | | | | ? ? bs ? ?| | ? ? [e'|]|]; simpl;
    rewrite ?orb_false_r, ?existsb_app; simpl; rewrite ?orb_false_r;
    try done.
  - do 2 f_equal.
    induction bs as [|r bs IH]; [done|]. simpl. by rewrite IH, orb_assoc.
  - by rewrite orb_assoc.
Qed.

(** The visitor answers [true] exactly when the statement contains a use. *)
Lemma function_is_used_in_stmt_iff f s :
  function_is_used_in_stmt f s = true <->
  exists e, occurs_in e s /\ use_node (fn_name f) e = true.
Proof.
  unfold function_is_used_in_stmt.
  induction s as [s IH] using Stmt_children_ind.
  rewrite visit_children, orb_true_iff, !existsb_true_iff. split.
  - intros [(r & Hr & Hvisit)|(c & Hc & Hvisit)].
    + apply visit_expr_iff in Hvisit as (e & Hsub & Huse).
      exists e. split; [by eapply occurs_expr|done].
    + rewrite Forall_forall in IH. apply (IH c Hc) in Hvisit as (e & Hocc & Huse).
      exists e. split; [by eapply occurs_child|done].
  - intros (e & Hocc & Huse). inversion Hocc as [? r ? Hr Hsub|? c ? Hc Hocc']; subst.
    + left. exists r. split; [done|]. apply visit_expr_iff. eauto.
    + right. exists c. split; [done|].
      rewrite Forall_forall in IH. apply (IH c Hc). eauto.
Qed.

Context `{Helpers}.

Lemma foldl_insert_notin {A V} (key : A -> string) (val : A -> V)
      (l : list A) (m : gmap string V) (k : string) :
  k ∉ map key l ->
  foldl (fun m x => <[key x := val x]> m) m l !! k = m !! k.
Proof.
  revert m. induction l as [|y l IH]; intros m Hk; [done|].
  simpl in *. apply not_elem_of_cons in Hk as [Hne Hk].
  rewrite IH by done. by rewrite lookup_insert_ne.
Qed.

Lemma foldl_insert_lookup {A V} (key : A -> string) (val : A -> V)
      (l : list A) (m : gmap string V) (x : A) :
  NoDup (map key l) -> x ∈ l ->
  foldl (fun m x => <[key x := val x]> m) m l !! key x = Some (val x).
Proof.
  revert m. induction l as [|y l IH]; intros m Hnd Hx; [by inversion Hx|].
  simpl in *. apply NoDup_cons in Hnd as [Hy Hnd].
  apply elem_of_cons in Hx as [->|Hx].
  - rewrite foldl_insert_notin by done. by rewrite lookup_insert_eq.
  - by apply IH.
Qed.

(** C10 (amended). A function is used in a statement exactly when the
    statement contains a call of its name or a handle variable named
    [<name>.….buffer].  At a loop of the compute (store) level that is the
    right level, the single-function injector wraps the body in the
    produce (realize) nodes exactly when the function is not already
    realized in the body and is used in it or is an output; a member of a
    fused group is skipped exactly when it is neither used nor an output. *)
Theorem use_decides_injection (func : Function) (is_output : bool)
        (target : Target) (env : gmap string Function) :
  (forall s, function_is_used_in_stmt func s = true <->
             exists e, occurs_in e s /\ use_node (fn_name func) e = true) /\
  (forall loop_name body st,
      level_match_name (compute_level (fn_schedule func)) loop_name = true ->
      InjectRealization.is_the_right_level env loop_name = Some true ->
      InjectRealization.at_compute_level func is_output target env
                                         loop_name body st
      = if negb (function_is_already_realized_in_stmt func body) &&
           (function_is_used_in_stmt func body || is_output)
        then realization ← build_production func target;
             Some (Block (ProducerConsumer (fn_name func) true
                            match realization.2 with
                            | Some updates => Block realization.1 updates
                            | None => realization.1
                            end)
                         (ProducerConsumer (fn_name func) false body),
                   mkFound (found_store_level st) true)
        else Some (body, mkFound (found_store_level st) true)) /\
  (forall loop_name body st,
      level_match_name (store_level (fn_schedule func)) loop_name = true ->
      InjectRealization.is_the_right_level env loop_name = Some true ->
      found_compute_level st = true ->
      InjectRealization.at_store_level func is_output target env
                                       loop_name body st
      = Some (if negb (function_is_already_realized_in_stmt func body) &&
                 (function_is_used_in_stmt func body || is_output)
              then InjectRealization.build_realize func is_output target body
              else body,
              mkFound true true)) /\
  (forall group is_output_list s i g out,
      NoDup (map fn_name group) ->
      group !! i = Some g -> is_output_list !! i = Some out ->
      InjectGroupRealization.skip_mask group is_output_list s !! fn_name g
      = Some (negb (function_is_used_in_stmt g s || out))).
Proof.
  split; [|split; [|split]].
  - intros s. apply function_is_used_in_stmt_iff.
  - intros loop_name body st Hmatch Hright.
    unfold InjectRealization.at_compute_level,
           InjectRealization.wants_injection, InjectRealization.build_pipeline.
    rewrite Hmatch, Hright. simpl.
    destruct (negb _ && _); [|done].
    by destruct (build_production func target).
  - intros loop_name body st Hmatch Hright Hfound.
    unfold InjectRealization.at_store_level, InjectRealization.wants_injection.
    rewrite Hmatch, Hright. simpl. rewrite Hfound. done.
  - intros group outs s i g out Hnd Hg Hout.
    unfold InjectGroupRealization.skip_mask.
    apply (foldl_insert_lookup
             (fun g : Function * bool => fn_name g.1)
             (fun g : Function * bool => negb (function_is_used_in_stmt g.1 s || g.2))
             (zip group outs) ∅ (g, out)).
    + assert (Hpre : map (fun g : Function * bool => fn_name g.1) (zip group outs)
                     `prefix_of` map fn_name group).
      { clear. revert outs. induction group as [|g group IH]; intros outs.
        - simpl. done.
        - destruct outs as [|o outs]; simpl.
          + apply prefix_nil.
          + apply prefix_cons, IH. }
      destruct Hpre as [k Hk]. rewrite Hk in Hnd.
      by apply NoDup_app in Hnd as [? _].
    + apply list_elem_of_lookup. exists i.
      apply lookup_zip_with_Some. eauto.
Qed.

End UseFacts.

Lemma use_decides_injection_witness :
  InjectRealization.at_compute_level (H := Reference.helpers)
    Examples.g_at_f_x false Examples.target_host Examples.env_fg
    "f.s0.x" Examples.realized_use_of_g (mkFound false false)
  = Some (Examples.realized_use_of_g, mkFound false true).
Proof.
  destruct (use_decides_injection (H := Reference.helpers)
              Examples.g_at_f_x false Examples.target_host Examples.env_fg)
    as (_ & Hcompute & _).
  rewrite (Hcompute "f.s0.x" Examples.realized_use_of_g (mkFound false false));
    reflexivity.
Defined.

(** C10, as stated, fails: the body uses [g], yet the injector leaves it
    alone at the compute level of [g], because [g] is already realized
    in it. *)
Lemma use_alone_counterexample :
  ~ use_alone_decides_injection (H := Reference.helpers).
Proof.
  intros Hclaim.
  specialize (Hclaim Examples.g_at_f_x false Examples.target_host Examples.env_fg
                     "f.s0.x" Examples.realized_use_of_g (mkFound false false)
                     Examples.realized_use_of_g (mkFound false true)
                     eq_refl eq_refl eq_refl).
  destruct Hclaim as [_ Hwrap]. by apply Hwrap.
Qed.

Module StrFacts.

Lemma split_string_cons c s :
  Str.is_dot c = false ->
  Str.split_string (String c s)
  = match Str.split_string s with
    | h :: t => String c h :: t
    | [] => [String c EmptyString]
    end.
Proof. intros Hc. simpl. by rewrite Hc. Qed.



Lemma no_dot_app a b :
  Str.no_dot (a +:+ b) = Str.no_dot a && Str.no_dot b.
Proof.
  induction a as [|c a IH]; [done|]. simpl. by rewrite IH, andb_assoc.
Qed.






End StrFacts.

Section RightLevel.
Context `{Helpers}.
Variable env : gmap string Function.




End RightLevel.


Section LegalFacts.
Context `{Helpers}.
Variables (func : Function) (env : gmap string Function).


Lemma visit_expr_stacks sites e st :
  ComputeLegalSchedules.visit_expr func sites e st
  = foldl register st (expr_use_stacks (fn_name func) sites e).
Proof.
  revert st. induction e as [| | | |op a b IHa IHb|a IHa|c t f IHc IHt IHf
                             |n v b IHv IHb|t n args ct vi IH]
                     using Expr_ind'; intros st; simpl; try done.
  - by destruct (is_buffer_of _ _ _).
  - by rewrite foldl_app, IHa, IHb.
  - by rewrite !foldl_app, IHc, IHt, IHf.
  - by rewrite foldl_app, IHv, IHb.
  - rewrite foldl_app.
    assert (Hargs : forall st,
               foldl (fun st a => ComputeLegalSchedules.visit_expr func sites a st)
                     st args
               = foldl register st
                       (flat_map (expr_use_stacks (fn_name func) sites) args)).
    { induction IH as [|a args Ha _ IHargs]; intros st'; [done|].
      simpl. by rewrite foldl_app, Ha, IHargs. }
    rewrite Hargs. by destruct (String.eqb n (fn_name func)).
Qed.

Lemma visit_exprs_stacks sites es st :
  ComputeLegalSchedules.visit_exprs func sites es st
  = foldl register st (flat_map (expr_use_stacks (fn_name func) sites) es).
Proof.
  unfold ComputeLegalSchedules.visit_exprs. revert st.
  induction es as [|e es IH]; intros st; [done|].
  simpl. by rewrite foldl_app, visit_expr_stacks, IH.
Qed.

Lemma visit_stacks sites s st :
  ComputeLegalSchedules.visit func env sites s st
  = (stacks ← use_stacks (fn_name func) env sites s;
     Some (foldl register st stacks)).
Proof.
  revert sites st.
  induction s as [n v b IH|c m|n p b IH|n mn ex ft api b IH|n vs args
                  |n ts bs c b IH|a b IHa IHb|c t IHt|c t e IHt IHe|v]
                 using Stmt_ind'; intros sites st; simpl.
  - rewrite IH, visit_expr_stacks.
    destruct (use_stacks _ _ _ b); simpl; [|done]. by rewrite foldl_app.
  - by rewrite !visit_expr_stacks, foldl_app.
  - apply IH.
  - destruct (ComputeLegalSchedules.site_of_loop env n ft) as [site|]; simpl; [|done].
    rewrite IH, !visit_expr_stacks.
    destruct (use_stacks _ _ _ b); simpl; [|done]. by rewrite !foldl_app.
  - by rewrite !visit_exprs_stacks, foldl_app.
  - rewrite IH, visit_expr_stacks.
    destruct (use_stacks _ _ _ b); simpl; [|done].
    rewrite !foldl_app. do 3 f_equal.
    clear. revert st. induction bs as [|r bs IHbs]; intros st; [done|].
    simpl. by rewrite !foldl_app, !visit_expr_stacks, IHbs.
  - rewrite IHa. destruct (use_stacks _ _ _ a); simpl; [|done].
    rewrite IHb. destruct (use_stacks _ _ _ b); simpl; [|done].
    by rewrite foldl_app.
  - rewrite IHt, visit_expr_stacks.
    destruct (use_stacks _ _ _ t); simpl; [|done].
    by rewrite !foldl_app.
  - rewrite IHt, visit_expr_stacks.
    destruct (use_stacks _ _ _ t); simpl; [|done].
    rewrite IHe. destruct (use_stacks _ _ _ e); simpl; [|done].
    by rewrite !foldl_app.
  - by rewrite visit_expr_stacks.
Qed.

Lemma register_found allowed stacks :
  foldl register (ComputeLegalSchedules.mkState true allowed) stacks
  = ComputeLegalSchedules.mkState true (foldl common_sites allowed stacks).
Proof.
  revert allowed. induction stacks as [|stack stacks IH]; intros allowed; [done|].
  simpl. by rewrite <- IH.
Qed.

Lemma legal_sites_intersect s :
  ComputeLegalSchedules.legal_sites func env s
  = intersect_stacks <$> use_stacks (fn_name func) env [] s.
Proof.
  unfold ComputeLegalSchedules.legal_sites. rewrite visit_stacks.
  destruct (use_stacks _ _ _ s) as [stacks|]; simpl; [|done].
  f_equal. destruct stacks as [|first rest]; [done|].
  change (foldl register ComputeLegalSchedules.initial (first :: rest))
    with (foldl register (ComputeLegalSchedules.mkState true first) rest).
  by rewrite register_found.
Qed.

Lemma match_is_equivalence_onb_true sites :
  match_is_equivalence_onb sites = true -> match_is_equivalence_on sites.
Proof.
  unfold match_is_equivalence_onb.
  rewrite andb_true_iff, !forallb_forall.
  intros [Hrefl Htrans]. split.
  - intros a Ha. by apply Hrefl, list_elem_of_In.
  - intros a b c Ha Hb Hc Hab Hbc.
    specialize (Htrans a (proj1 (list_elem_of_In _ _) Ha)).
    rewrite forallb_forall in Htrans.
    specialize (Htrans b (proj1 (list_elem_of_In _ _) Hb)).
    rewrite forallb_forall in Htrans.
    specialize (Htrans c (proj1 (list_elem_of_In _ _) Hc)).
    by rewrite Hab, Hbc in Htrans.
Qed.

Lemma elem_of_common_sites allowed stack x :
  x ∈ common_sites allowed stack <->
  x ∈ stack /\
  exists y, y ∈ allowed /\ level_match (loop_level x) (loop_level y) = true.
Proof.
  unfold common_sites. rewrite list_elem_of_filter, existsb_true_iff.
  tauto.
Qed.

Lemma intersection_matches_all (all first : list Site) rest x :
  match_is_equivalence_on all ->
  (forall st, st ∈ first :: rest -> st ⊆ all) ->
  x ∈ foldl common_sites first rest ->
  (exists final, last (first :: rest) = Some final /\ x ∈ final) /\
  (forall st, st ∈ first :: rest ->
              exists y, y ∈ st /\
                        level_match (loop_level x) (loop_level y) = true).
Proof.
  intros [Hrefl Htrans]. revert x.
  induction rest as [|final rest IH] using rev_ind; intros x Hall Hx.
  - simpl in *. split; [by exists first|].
    intros st ->%list_elem_of_singleton. exists x. split; [done|].
    apply Hrefl, (Hall first); [left|done].
  - rewrite foldl_app in Hx. simpl in Hx.
    apply elem_of_common_sites in Hx as (Hx & y & Hy & Hxy).
    assert (Hall' : forall st, st ∈ first :: rest -> st ⊆ all).
    { intros st Hst. apply Hall.
      rewrite app_comm_cons. apply elem_of_app. by left. }
    assert (Hfinal : final ⊆ all).
    { apply Hall. rewrite app_comm_cons. apply elem_of_app. right. left. }
    destruct (IH y Hall' Hy) as [(prev & Hprev & Hyprev) Hmatch].
    split.
    + exists final. split; [|done].
      by rewrite app_comm_cons, last_snoc.
    + intros st Hst. rewrite app_comm_cons in Hst.
      apply elem_of_app in Hst as [Hst| ->%list_elem_of_singleton].
      * destruct (Hmatch st Hst) as (z & Hz & Hyz).
        exists z. split; [done|].
        apply (Htrans x y z); auto.
        -- apply last_Some_elem_of in Hprev. by apply (Hall' prev).
        -- by apply (Hall' st).
      * exists x. split; [done|]. by apply Hrefl, Hfinal.
Qed.

(** C1 (amended). The allowed sites are the intersection of the stacks
    recorded at the uses, taken in visiting order: the first stack,
    narrowed at every later use to the sites of that use's stack that match
    some site allowed so far.  Every allowed site belongs to the stack of
    the last use and, [LoopLevel.match] being an equivalence on the sites
    involved, matches some site of the stack of every use. *)
Theorem legal_sites_intersection s stacks :
  use_stacks (fn_name func) env [] s = Some stacks ->
  match_is_equivalence_on (concat stacks) ->
  ComputeLegalSchedules.legal_sites func env s = Some (intersect_stacks stacks) /\
  Forall (fun x =>
            (exists final, last stacks = Some final /\ x ∈ final) /\
            (forall st, st ∈ stacks ->
                        exists y, y ∈ st /\
                                  level_match (loop_level x) (loop_level y) = true))
         (intersect_stacks stacks).
Proof.
  intros Hstacks Hequiv. split.
  - by rewrite legal_sites_intersect, Hstacks.
  - apply Forall_forall. intros x Hx.
    destruct stacks as [|first rest]; [by inversion Hx|].
    apply (intersection_matches_all (concat (first :: rest))); [done| |done].
    intros st Hst z Hz. apply list_elem_of_In, in_concat.
    exists st. split; by apply list_elem_of_In.
Qed.

End LegalFacts.

Lemma legal_sites_intersection_witness :
  ComputeLegalSchedules.legal_sites (H := Reference.helpers)
    Examples.g_at_f_x Examples.env_fg Examples.two_uses_of_g
  = Some [Examples.site_root; Examples.site_f "x"] /\
  Forall (fun x =>
            (exists final,
                last [[Examples.site_root; Examples.site_f "y"; Examples.site_f "x"];
                      [Examples.site_root; Examples.site_f "z"; Examples.site_f "x"]]
                = Some final /\ x ∈ final) /\
            (forall st,
                st ∈ [[Examples.site_root; Examples.site_f "y"; Examples.site_f "x"];
                      [Examples.site_root; Examples.site_f "z"; Examples.site_f "x"]] ->
                exists y, y ∈ st /\
                          level_match (Helpers := Reference.helpers)
                                      (loop_level x) (loop_level y) = true))
         [Examples.site_root; Examples.site_f "x"].
Proof.
  apply (legal_sites_intersection (H := Reference.helpers)
           Examples.g_at_f_x Examples.env_fg Examples.two_uses_of_g
           [[Examples.site_root; Examples.site_f "y"; Examples.site_f "x"];
            [Examples.site_root; Examples.site_f "z"; Examples.site_f "x"]]).
  - reflexivity.
  - apply match_is_equivalence_onb_true. reflexivity.
Defined.

(** C1, as stated, fails: [g] is used under [f.s0.y > f.s0.x] and under
    [f.s1.z > f.s1.x]; the loops over [x] are allowed although the longest
    common prefix of the two stacks stops at the root. *)
Lemma allowed_sites_counterexample :
  ~ allowed_is_common_prefix (H := Reference.helpers).
Proof.
  intros Hclaim.
  specialize (Hclaim Examples.g_at_f_x Examples.env_fg Examples.two_uses_of_g
                [[Examples.site_root; Examples.site_f "y"; Examples.site_f "x"];
                 [Examples.site_root; Examples.site_f "z"; Examples.site_f "x"]]
                [Examples.site_root; Examples.site_f "x"]
                eq_refl eq_refl).
  discriminate Hclaim.
Qed.

Section ValidationFacts.
Context `{Helpers}.











End ValidationFacts.


Section OutermostFacts.
Context `{Helpers}.

Lemma all_nodes_intro (P : Stmt -> Prop) s :
  P s -> Forall (all_nodes P) (stmt_children s) -> all_nodes P s.
Proof.
  intros Hs Hc t Ht. inversion Ht as [|? c ? Hin Hsub]; subst; [done|].
  rewrite Forall_forall in Hc. by apply (Hc c Hin).
Qed.

Lemma mutate_clean fuel s :
  substitute_keeps_height ->
  stmt_height s <= fuel ->
  exists s', RemoveLoopsOverOutermost.mutate fuel s = Some s' /\
             all_nodes no_removable s'.
Proof.
  intros Hsub. revert s.
  induction fuel as [|fuel IH]; intros s Hfuel.
  { destruct s; simpl in Hfuel; lia. }
  destruct s as [n v b|c m|n p b|n mn ex ft api b|n vs args|n ts bs c b|a b
                 |c t [e|]|v]; simpl in Hfuel; simpl.
  - destruct (is_outermost_bound n) eqn:Hn.
    + apply IH. rewrite Hsub. lia.
    + destruct (IH b ltac:(lia)) as (b' & -> & Hb'). simpl.
      eexists. split; [done|].
      apply all_nodes_intro; simpl; [done|]. by constructor.
  - eexists. split; [done|]. apply all_nodes_intro; simpl; [done|constructor].
  - destruct (IH b ltac:(lia)) as (b' & -> & Hb'). simpl.
    eexists. split; [done|].
    apply all_nodes_intro; simpl; [done|]. by constructor.
  - destruct (RemoveLoopsOverOutermost.removable_loop n ex api) eqn:Hn.
    + apply IH. rewrite Hsub. lia.
    + destruct (IH b ltac:(lia)) as (b' & -> & Hb'). simpl.
      eexists. split; [done|].
      apply all_nodes_intro; simpl; [done|]. by constructor.
  - eexists. split; [done|]. apply all_nodes_intro; simpl; [done|constructor].
  - destruct (IH b ltac:(lia)) as (b' & -> & Hb'). simpl.
    eexists. split; [done|].
    apply all_nodes_intro; simpl; [done|]. by constructor.
  - destruct (IH a ltac:(lia)) as (a' & -> & Ha').
    destruct (IH b ltac:(lia)) as (b' & -> & Hb'). simpl.
    eexists. split; [done|].
    apply all_nodes_intro; simpl; [done|]. by repeat constructor.
  - destruct (IH t ltac:(lia)) as (t' & -> & Ht').
    destruct (IH e ltac:(lia)) as (e' & -> & He'). simpl.
    eexists. split; [done|].
    apply all_nodes_intro; simpl; [done|]. by repeat constructor.
  - destruct (IH t ltac:(lia)) as (t' & -> & Ht'). simpl.
    eexists. split; [done|].
    apply all_nodes_intro; simpl; [done|]. by repeat constructor.
  - eexists. split; [done|]. apply all_nodes_intro; simpl; [done|constructor].
Qed.

(** C6 (amended). The final pass of the driver returns, and what it
    returns contains no [For] whose name ends with [.__outermost], whose
    extent simplifies to one and whose device API is [None], and no
    [LetStmt] binding an [.__outermost.loop_min], [.loop_max] or
    [.loop_extent]: such a loop is replaced by its body with its min
    substituted for its variable, such a binding by its body with its
    simplified value substituted. *)
Theorem outermost_loops_removed (root : Stmt) :
  substitute_keeps_height ->
  (forall name mn ex ft api body,
      root = For name mn ex ft api body ->
      exists s', strip_root_and_outermost root = Some s' /\
                 all_nodes no_removable s') /\
  (forall fuel name mn ex ft body,
      RemoveLoopsOverOutermost.removable_loop name ex DeviceNone = true ->
      RemoveLoopsOverOutermost.mutate (S fuel) (For name mn ex ft DeviceNone body)
      = RemoveLoopsOverOutermost.mutate fuel (substitute name mn body)) /\
  (forall fuel name v body,
      is_outermost_bound name = true ->
      RemoveLoopsOverOutermost.mutate (S fuel) (LetStmt name v body)
      = RemoveLoopsOverOutermost.mutate fuel (substitute name (simplify v) body)).
Proof.
  intros Hsub. split; [|split].
  - intros name mn ex ft api body ->. simpl.
    unfold RemoveLoopsOverOutermost.run. by apply mutate_clean.
  - intros fuel name mn ex ft body Hrem. simpl. by rewrite Hrem.
  - intros fuel name v body Hname. simpl. by rewrite Hname.
Qed.

End OutermostFacts.

Lemma reference_substitute_keeps_height :
  substitute_keeps_height (H := Reference.helpers).
Proof.
  intros name e s. simpl.
  induction s as [n v b IH|c m|n p b IH|n mn ex ft api b IH|n vs args
                  |n ts bs c b IH|a b IHa IHb|c t IHt|c t e' IHt IHe|v]
                 using Stmt_ind'; simpl; try done.
  - destruct (String.eqb n name); by rewrite ?IH.
  - by rewrite IH.
  - destruct (String.eqb n name); by rewrite ?IH.
  - by rewrite IH.
  - by rewrite IHa, IHb.
  - by rewrite IHt.
  - by rewrite IHt, IHe.
Qed.

Lemma outermost_loops_removed_witness :
  exists s',
    strip_root_and_outermost (H := Reference.helpers)
      (For ".__root" Examples.zero Examples.one Serial Host
           Examples.nest_with_outermost) = Some s' /\
    all_nodes (no_removable (H := Reference.helpers)) s'.
Proof.
  destruct (outermost_loops_removed (H := Reference.helpers)
              (For ".__root" Examples.zero Examples.one Serial Host
                   Examples.nest_with_outermost)
              reference_substitute_keeps_height) as [Hrun _].
  by eapply Hrun.
Defined.

(** C6, as stated, fails: a loop over [__outermost] that carries a device
    API is kept by the final pass. *)
Lemma outermost_counterexample :
  ~ outermost_all_removed (H := Reference.helpers).
Proof.
  intros Hclaim.
  specialize (Hclaim Examples.gpu_outermost Examples.gpu_outermost eq_refl
                     Examples.gpu_outermost (substmt_here _)).
  discriminate Hclaim.
Qed.

Module StrFacts2.

Lemma append_cons c a b : String c a +:+ b = String c (a +:+ b).
Proof. done. Qed.

Lemma append_assoc a b c : (a +:+ b) +:+ c = a +:+ (b +:+ c).
Proof.
  induction a as [|x a IH]; [done|]. rewrite !append_cons. by rewrite IH.
Qed.











End StrFacts2.

Section GroupFacts.
Context `{Helpers}.
Variable env : gmap string Function.


Lemma emplace_subseteq {V} k (v : V) (m : gmap string V) : m ⊆ emplace k v m.
Proof.
  unfold emplace. destruct (m !! k) eqn:Hk; [done|]. by apply insert_subseteq.
Qed.










End GroupFacts.


Module StrFacts3.




End StrFacts3.

Section WalkFacts.
Context `{Helpers}.
Variables (env : gmap string Function) (skip : gmap string bool).

Lemma helper_unfold fuel prefix def p st :
  InjectGroupRealization.collect_all_dependence_helper
    env (S fuel) skip prefix def p st
  = foldlM (visit_pair env skip fuel) (st.1 ++ [p], {[prefix]} ∪ st.2)
           (fused_pairs (def_schedule def)).
Proof. done. Qed.

Lemma collect_unfold def :
  InjectGroupRealization.collect_all_dependence env skip def
  = fst <$> foldlM (visit_pair env skip
                      (S (length (InjectGroupRealization.all_fused_pairs env))))
                   ([], ∅) (fused_pairs (def_schedule def)).
Proof. done. Qed.










End WalkFacts.

Section UnionFacts.
Context `{Helpers}.
Variable bounds : gmap string (option Expr).
Variable prefix : string.


Lemma foldlM_snoc {A B} (f : A -> B -> option A) a l x :
  foldlM f a (l ++ [x]) = foldlM f a l ≫= fun a' => f a' x.
Proof.
  revert a. induction l as [|y l IH]; intros a; simpl.
  - by destruct (f a x).
  - destruct (f a y) as [a1|]; simpl; [apply IH|done].
Qed.

(** One step of the union: what it reads and what it writes. *)
Lemma union_dim_inv pair R d R' :
  InjectGroupRealization.union_dim bounds prefix pair R d = Some R' ->
  exists min_1 max_1 min_2 max_2,
    current_parent_bound bounds R (union_var prefix d) KMin = Some min_1 /\
    current_parent_bound bounds R (union_var prefix d) KMax = Some max_1 /\
    captured bounds (child_var pair d +:+ ".loop_min") = Some min_2 /\
    captured bounds (child_var pair d +:+ ".loop_max") = Some max_2 /\
    R' = <[union_var prefix d +:+ ".loop_extent" :=
             simplify (Binary Sub
                         (Binary Add (simplify (Binary Max max_1 max_2)) (int_ 1))
                         (simplify (Binary Min min_1 min_2)))]>
           (<[union_var prefix d +:+ ".loop_max" :=
                simplify (Binary Max max_1 max_2)]>
              (<[union_var prefix d +:+ ".loop_min" :=
                   simplify (Binary Min min_1 min_2)]> R)).
Proof.
  unfold InjectGroupRealization.union_dim, InjectGroupRealization.parent_bounds,
    current_parent_bound, captured.
  fold (child_var pair d). fold (union_var prefix d). simpl bound_suffix.
  intros Hrun.
  destruct (bounds !! (child_var pair d +:+ ".loop_min")) as [min_2|];
    simpl in Hrun; [|done].
  destruct (bounds !! (child_var pair d +:+ ".loop_max")) as [max_2|];
    simpl in Hrun; [|done].
  destruct (bounds !! (child_var pair d +:+ ".loop_extent")) as [ext_2|];
    simpl in Hrun; [|done].
  destruct (bounds !! (union_var prefix d +:+ ".loop_min")) as [min_0|];
    simpl in Hrun; [|done].
  destruct (bounds !! (union_var prefix d +:+ ".loop_max")) as [max_0|];
    simpl in Hrun; [|done].
  destruct (bounds !! (union_var prefix d +:+ ".loop_extent")) as [ext_0|];
    simpl in Hrun; [|done].
  destruct (R !! (union_var prefix d +:+ ".loop_min")) as [mn|] eqn:Hmn.
  - simpl in Hrun.
    destruct min_2 as [min_2|]; simpl in Hrun; [|done].
    destruct (R !! (union_var prefix d +:+ ".loop_max")) as [mx|];
      simpl in Hrun; [|done].
    destruct max_2 as [max_2|]; simpl in Hrun; [|done].
    injection Hrun as <-. by exists mn, mx, min_2, max_2.
  - destruct min_0 as [min_1|]; simpl in Hrun; [|done].
    destruct min_2 as [min_2|]; simpl in Hrun; [|done].
    destruct max_0 as [max_1|]; simpl in Hrun; [|done].
    destruct max_2 as [max_2|]; simpl in Hrun; [|done].
    injection Hrun as <-. by exists min_1, max_1, min_2, max_2.
Qed.









End UnionFacts.

Section GroupUnion.
Context `{Helpers}.
Variable env : gmap string Function.
Variable skip : gmap string bool.
Variable f : Function.
Variable bounds : gmap string (option Expr).


Lemma union_bounds_snoc deps pair :
  InjectGroupRealization.union_bounds skip f bounds (deps ++ [pair])
  = R ← InjectGroupRealization.union_bounds skip f bounds deps;
    skipped ← skip !! func_2 pair;
    if skipped : bool then Some R
    else idx ← find_dim (parent_dims f) (var_name pair);
         foldlM (InjectGroupRealization.union_dim bounds (parent_prefix f) pair) R
                (fused_dims (parent_dims f) idx).
Proof. unfold InjectGroupRealization.union_bounds. by rewrite foldlM_snoc. Qed.





End GroupUnion.


(* ===================================================================== *)
(** * More properties of the pass *)

Module NameFacts.

Lemma ends_with_unfold s suffix :
  Str.ends_with s suffix
  = String.eqb s suffix ||
    match s with
    | EmptyString => false
    | String _ s' => Str.ends_with s' suffix
    end.
Proof. by destruct s. Qed.

Lemma ends_with_iff s suffix :
  Str.ends_with s suffix = true <-> exists p, s = p +:+ suffix.
Proof.
  split.
  - induction s as [|c s IH]; rewrite ends_with_unfold.
    + rewrite orb_false_r. intros Heq%String.eqb_eq. by exists "".
    + intros [Heq%String.eqb_eq|Hrest]%orb_true_iff.
      * by exists "".
      * destruct (IH Hrest) as [p ->]. by exists (String c p).
  - intros [p ->]. induction p as [|c p IH]; rewrite ends_with_unfold.
    + change ("" +:+ suffix) with suffix. by rewrite String.eqb_refl.
    + rewrite StrFacts2.append_cons, IH. apply orb_true_r.
Qed.

(** [var_name_match] aborts exactly on a qualified second argument;
    otherwise it accepts the name itself and every name that ends with a
    dot followed by it, and nothing else. *)
Theorem var_name_match_characterized candidate var :
  (var_name_match candidate var = None <-> Str.no_dot var = false) /\
  (var_name_match candidate var = Some true <->
   Str.no_dot var = true /\
   (candidate = var \/ exists p, candidate = p +:+ "." +:+ var)).
Proof.
  unfold var_name_match. destruct (Str.no_dot var); simpl.
  - split; [done|]. rewrite <- ends_with_iff. split.
    + intros [= [Heq%String.eqb_eq|Hends]%orb_true_iff]; auto.
    + intros [_ [->|Hends]]; f_equal.
      * by rewrite String.eqb_refl.
      * rewrite Hends. apply orb_true_r.
  - split; [done|]. split; [done|]. by intros [? _].
Qed.

End NameFacts.

Section PurityFacts.

Lemma contains_impure_call_children e :
  contains_impure_call e
  = impure_call e || existsb contains_impure_call (expr_children e).
Proof.
  destruct e as [| | | | | | | |t n args ct vi]; simpl; rewrite ?orb_false_r;
    try done.
  by rewrite orb_assoc.
Qed.

(** [contains_impure_call] answers [true] exactly when a call that is
    not pure occurs somewhere in the expression. *)
Theorem contains_impure_call_iff e :
  contains_impure_call e = true <->
  exists t name args ct vi,
    subexpr (Call t name args ct vi) e /\ is_pure ct = false.
Proof.
  induction e as [e IH] using Expr_children_ind.
  rewrite Forall_forall in IH.
  rewrite contains_impure_call_children, orb_true_iff, existsb_true_iff. split.
  - intros [Hhere|(c & Hc & Hsub)].
    + destruct e as [| | | | | | | |t n args ct vi]; try done.
      exists t, n, args, ct, vi. split; [constructor|].
      by apply negb_true_iff.
    + apply (IH c Hc) in Hsub as (t & n & args & ct & vi & Hsub & Hct).
      exists t, n, args, ct, vi. split; [by eapply subexpr_child|done].
  - intros (t & n & args & ct & vi & Hsub & Hct).
    inversion Hsub as [|? c ? Hc Hsub']; subst.
    + left. simpl. by rewrite Hct.
    + right. exists c. split; [done|]. apply (IH c Hc). eauto 10.
Qed.

End PurityFacts.

Section RealizedFacts.

Lemma realized_children func s :
  IsRealizedInStmt.visit func s
  = realize_node func s || existsb (IsRealizedInStmt.visit func) (stmt_children s).
Proof.
  destruct s as [| | | | | | |? ? [e'|]|]; simpl; rewrite ?orb_false_r; try done.
  by rewrite orb_comm.
Qed.

Lemma realized_iff func s :
  IsRealizedInStmt.visit func s = true <->
  exists t, substmt t s /\ realize_node func t = true.
Proof.
  induction s as [s IH] using Stmt_children_ind.
  rewrite Forall_forall in IH.
  rewrite realized_children, orb_true_iff, existsb_true_iff. split.
  - intros [Hhere|(c & Hc & Hsub)].
    + exists s. split; [constructor|done].
    + apply (IH c Hc) in Hsub as (t & Hsub & Ht).
      exists t. split; [by eapply substmt_child|done].
  - intros (t & Hsub & Ht). inversion Hsub as [|? c ? Hc Hsub']; subst.
    + by left.
    + right. exists c. split; [done|]. apply (IH c Hc). eauto.
Qed.

Lemma substmt_trans a b c : substmt a b -> substmt b c -> substmt a c.
Proof.
  intros Hab Hbc. induction Hbc as [|? ? ? Hin Hsub IH]; [done|].
  eapply substmt_child; [done|]. by apply IH.
Qed.

(** [function_is_already_realized_in_stmt] answers [true] exactly when
    the statement contains a [Realize] node of the function's name;
    so a statement that contains a realized statement is realized. *)
Theorem already_realized_iff f s :
  (function_is_already_realized_in_stmt f s = true <->
   exists types bounds condition body,
     substmt (Realize (fn_name f) types bounds condition body) s) /\
  (forall t, substmt t s ->
             function_is_already_realized_in_stmt f t = true ->
             function_is_already_realized_in_stmt f s = true).
Proof.
  unfold function_is_already_realized_in_stmt. split.
  - rewrite realized_iff. split.
    + intros (t & Hsub & Ht). destruct t; try done.
      simpl in Ht. apply String.eqb_eq in Ht as ->. eauto.
    + intros (ts & bs & c & b & Hsub). eexists. split; [done|].
      simpl. apply String.eqb_refl.
  - intros t Hsub. rewrite !realized_iff. intros (r & Hr & Hnode).
    exists r. split; [by eapply substmt_trans|done].
Qed.

End RealizedFacts.

Section SortFacts.
Context `{Helpers}.

Lemma swap_up_split nest j outer inner :
  nest !! j = Some outer -> nest !! S j = Some inner ->
  exists l1 l2,
    nest = l1 ++ outer :: inner :: l2 /\ length l1 = j /\
    swap_up nest j = l1 ++ inner :: outer :: l2.
Proof.
  intros Hj HSj.
  assert (Hnest : nest = take j nest ++ outer :: inner :: drop (S (S j)) nest).
  { rewrite <- (drop_S nest inner (S j) HSj). by rewrite take_drop_middle. }
  assert (Hlen : length (take j nest) = j).
  { apply lookup_lt_Some in Hj. rewrite length_take. lia. }
  revert Hnest Hlen.
  generalize (take j nest) as l1. generalize (drop (S (S j)) nest) as l2.
  intros l2 l1 -> <-. exists l1, l2. split; [done|]. split; [done|].
  apply swap_up_app.
Qed.

Lemma loops_of_swap l1 (x outer : Container) l2 :
  c_type x <> CFor ->
  loops_of (l1 ++ x :: outer :: l2) = loops_of (l1 ++ outer :: x :: l2).
Proof.
  intros Hx. unfold loops_of. rewrite !filter_app. f_equal.
  rewrite (filter_cons_False _ x) by done.
  destruct (decide (c_type outer = CFor)) as [Ho|Ho].
  - rewrite !(filter_cons_True _ outer) by done.
    by rewrite (filter_cons_False _ x) by done.
  - rewrite !(filter_cons_False _ outer) by done.
    by rewrite (filter_cons_False _ x) by done.
Qed.

(** The inner loop of the sorts permutes the list and, when the
    container it moves is not a loop, leaves the loops in their order. *)
Lemma push_up_keeps i nest nest' x :
  nest !! i = Some x -> c_type x <> CFor ->
  push_up nest i = Some nest' ->
  nest' ≡ₚ nest /\ loops_of nest' = loops_of nest.
Proof.
  revert nest. induction i as [|j IH]; intros nest Hx Hty Hpush.
  { injection Hpush as <-. done. }
  simpl in Hpush. rewrite Hx in Hpush. simpl in Hpush.
  destruct (nest !! j) as [outer|] eqn:Hj; simpl in Hpush; [|done].
  destruct (c_value x) as [v|]; simpl in Hpush; [|done].
  destruct (expr_uses_var v (c_name outer)); simpl in Hpush.
  { injection Hpush as <-. done. }
  destruct (swap_up_split nest j outer x Hj Hx) as (l1 & l2 & -> & Hlen & Hswap).
  rewrite Hswap in Hpush.
  destruct (IH (l1 ++ x :: outer :: l2)) as [Hperm Hloops]; [|done|done|].
  { rewrite <- Hlen. by apply list_lookup_middle. }
  split.
  - rewrite Hperm. apply Permutation_app_head. constructor.
  - rewrite Hloops. by apply loops_of_swap.
Qed.

Lemma sort_let_step_keeps nest i nest' :
  sort_let_step nest i = Some nest' ->
  nest' ≡ₚ nest /\ loops_of nest' = loops_of nest.
Proof.
  unfold sort_let_step. intros Hstep.
  destruct (nest !! i) as [c|] eqn:Hc; simpl in Hstep; [|done].
  destruct (bool_decide (is_Some (c_value c))); simpl in Hstep; [|done].
  destruct (decide (c_type c = CLet)) as [Hty|Hty].
  - rewrite bool_decide_eq_true_2 in Hstep by done. simpl in Hstep.
    eapply push_up_keeps; [done| |done]. by rewrite Hty.
  - by rewrite bool_decide_eq_false_2 in Hstep by done.
Qed.

Lemma sort_predicate_step_keeps nest i nest' :
  sort_predicate_step nest i = Some nest' ->
  nest' ≡ₚ nest /\ loops_of nest' = loops_of nest.
Proof.
  unfold sort_predicate_step. intros Hstep.
  destruct (nest !! i) as [c|] eqn:Hc; simpl in Hstep; [|done].
  destruct (c_value c) as [v|]; simpl in Hstep; [|done].
  destruct (decide (c_type c = CIf)) as [Hty|Hty].
  - rewrite bool_decide_eq_true_2 in Hstep by done. simpl in Hstep.
    destruct (contains_impure_call v).
    { injection Hstep as <-. done. }
    eapply push_up_keeps; [done| |done]. by rewrite Hty.
  - by rewrite bool_decide_eq_false_2 in Hstep by done.
Qed.

Lemma sort_steps_keep (step : list Container -> nat -> option (list Container))
      idxs nest nest' :
  (forall n i n', step n i = Some n' -> n' ≡ₚ n /\ loops_of n' = loops_of n) ->
  foldlM step nest idxs = Some nest' ->
  nest' ≡ₚ nest /\ loops_of nest' = loops_of nest.
Proof.
  intros Hstep. revert nest.
  induction idxs as [|i idxs IH]; intros nest Hrun.
  { injection Hrun as <-. done. }
  rewrite foldlM_cons in Hrun.
  destruct (step nest i) as [n1|] eqn:Hn1; simpl in Hrun; [|done].
  destruct (Hstep _ _ _ Hn1) as [Hp1 Hl1].
  destruct (IH _ Hrun) as [Hp Hl].
  split; [by rewrite Hp|by rewrite Hl].
Qed.

Lemma filter_all {A} (P : A -> Prop) `{forall a, Decision (P a)} (l : list A) :
  Forall P l -> filter P l = l.
Proof.
  intros Hl. induction Hl as [|c l Hc _ IH]; [done|].
  by rewrite filter_cons_True, IH by done.
Qed.

Lemma filter_none {A} (P : A -> Prop) `{forall a, Decision (P a)} (l : list A) :
  Forall (fun a => ~ P a) l -> filter P l = [].
Proof.
  intros Hl. induction Hl as [|c l Hc _ IH]; [done|].
  by rewrite filter_cons_False by done.
Qed.

Lemma loops_of_initial_nest prefix s r stripped preds :
  loops_of (initial_nest prefix s r stripped preds)
  = rev (imap (fun i d => mkContainer CFor i (prefix +:+ dim_var d) None) (dims s)).
Proof.
  unfold initial_nest, loops_of. rewrite !filter_app.
  rewrite filter_all.
  2:{ apply Forall_rev, Forall_forall.
      by intros c (i & d & -> & _)%elem_of_lookup_imap. }
  rewrite !filter_none; [by rewrite !app_nil_r|..].
  - apply Forall_forall. by intros c (p & -> & _)%list_elem_of_fmap.
  - apply Forall_forall. by intros c (p & -> & _)%list_elem_of_fmap.
  - apply Forall_forall. by intros c (p & -> & _)%list_elem_of_fmap.
  - apply Forall_rev, Forall_forall. by intros c (p & -> & _)%list_elem_of_fmap.
Qed.

(** The two sorts of the loop-nest builder permute the containers and
    never reorder the loops: after them the loops are found in the order
    in which they were put, outermost dim first. *)
Theorem sort_keeps_the_loops prefix s r stripped preds nest1 nest2 :
  sort_lets (length (dims s)) (length (predicates r) + length preds)
            (initial_nest prefix s r stripped preds) = Some nest1 ->
  sort_predicates (length (predicates r) + length preds) nest1 = Some nest2 ->
  nest2 ≡ₚ initial_nest prefix s r stripped preds /\
  loops_of nest2
  = rev (imap (fun i d => mkContainer CFor i (prefix +:+ dim_var d) None) (dims s)).
Proof.
  intros Hlets Hpreds.
  apply sort_steps_keep in Hlets as [Hp1 Hl1]; [|apply sort_let_step_keeps].
  apply sort_steps_keep in Hpreds as [Hp2 Hl2]; [|apply sort_predicate_step_keeps].
  split; [by rewrite Hp2|].
  by rewrite Hl2, Hl1, loops_of_initial_nest.
Qed.

End SortFacts.

Lemma sort_keeps_the_loops_witness :
  Examples.sample_nest_sorted ≡ₚ Examples.sample_nest /\
  loops_of Examples.sample_nest_sorted
  = rev (imap (fun i d => mkContainer CFor i ("f.s0." +:+ dim_var d) None)
              (dims (Examples.plain_schedule Examples.dims_xy))).
Proof.
  apply (sort_keeps_the_loops (H := Reference.helpers) "f.s0."
           (Examples.plain_schedule Examples.dims_xy) Examples.no_splits
           Examples.sample_lets Examples.sample_preds
           Examples.sample_nest_lets_sorted Examples.sample_nest_sorted);
    reflexivity.
Defined.

Section CoreInduction.
Variable P : Stmt -> Prop.
Hypothesis HLetStmt : forall n v b, P b -> P (LetStmt n v b).
Hypothesis HAssert : forall c m, P (AssertStmt c m).
Hypothesis HPC : forall n p b, P b -> P (ProducerConsumer n p b).
Hypothesis HFor : forall n mn ex ft api b,
    P (strip_lets b).2 -> P (For n mn ex ft api b).
Hypothesis HProvide : forall n vs args, P (Provide n vs args).
Hypothesis HRealize : forall n ts bs c b, P b -> P (Realize n ts bs c b).
Hypothesis HBlock : forall a b, P a -> P b -> P (Block a b).
Hypothesis HIf1 : forall c t, P t -> P (IfThenElse c t None).
Hypothesis HIf2 : forall c t e, P t -> P e -> P (IfThenElse c t (Some e)).
Hypothesis HEval : forall v, P (Evaluate v).

(** Induction over statements in which a loop gives the hypothesis for
    what is under the lets of its body. *)
Lemma Stmt_core_ind s : P s.
Proof.
  enough (P s /\ P (strip_lets s).2) as [? _] by done.
  induction s as [n v b [IHb IHc]|c m|n p b [IHb _]|n mn ex ft api b [_ IHc]
                  |n vs args|n ts bs c b [IHb _]|a b [IHa _] [IHb _]
                  |c t [IHt _]|c t e [IHt _] [IHe _]|v] using Stmt_ind';
    try (split; simpl; auto; fail).
  split; [by apply HLetStmt|].
  simpl. by destruct (strip_lets b).
Qed.

End CoreInduction.

Section InjectorFacts.
Context `{Helpers}.
Variables (func : Function) (is_output : bool) (target : Target)
          (env : gmap string Function).

Lemma dig_through_lets {A} (k : Stmt -> option (Stmt * A)) body :
  (fix through_lets (b : Stmt) : option (Stmt * A) :=
     match b with
     | LetStmt n v b' => r ← through_lets b'; Some (LetStmt n v r.1, r.2)
     | _ => k b
     end) body
  = under_lets k body.
Proof.
  unfold under_lets.
  induction body as [n v b IH|c m|n p b _|n mn ex ft api b _|n vs args
                     |n ts bs c b _|a b _ _|c t _|c t e _ _|v] using Stmt_ind';
    try (simpl; by destruct (k _) as [[? ?]|]).
  rewrite IH. simpl. destruct (strip_lets b) as [lets core]. simpl.
  by destruct (k core) as [[? ?]|].
Qed.

(** [visit(For)] of the single-function injector, as the source writes
    it: strip the lets, mutate, test the levels, reinstate the lets. *)
Lemma inject_realization_for name mn ex ft api body st :
  InjectRealization.mutate func is_output target env
                           (For name mn ex ft api body) st
  = if InjectRealization.extern_in_vector_loop func ft
         (For name mn ex ft api body)
    then p ← InjectRealization.build_pipeline func target
               (For name mn ex ft api body);
         Some (InjectRealization.build_realize func is_output target p,
               mkFound true true)
    else r ← under_lets
               (fun b => r ← InjectRealization.mutate func is_output target env b st;
                         InjectRealization.at_levels func is_output target env
                                                     name r.1 r.2) body;
         Some (For name mn ex ft api r.1, r.2).
Proof.
  cbn [InjectRealization.mutate].
  destruct (InjectRealization.extern_in_vector_loop _ _ _); [done|].
  by rewrite dig_through_lets.
Qed.

Lemma wrap_strip_lets s : wrap_lets (strip_lets s).1 (strip_lets s).2 = s.
Proof.
  induction s as [n v b IH|c m|n p b _|n mn ex ft api b _|n vs args
                  |n ts bs c b _|a b _ _|c t _|c t e _ _|v] using Stmt_ind';
    try done.
  simpl. destruct (strip_lets b) as [lets core]. simpl in *. by rewrite IH.
Qed.

Lemma substmt_core s : substmt (strip_lets s).2 s.
Proof.
  induction s as [n v b IH|c m|n p b _|n mn ex ft api b _|n vs args
                  |n ts bs c b _|a b _ _|c t _|c t e _ _|v] using Stmt_ind';
    try constructor.
  simpl. destruct (strip_lets b) as [lets core]. simpl in *.
  eapply substmt_child; [|exact IH]. simpl. left.
Qed.

Lemma all_nodes_child (Q : Stmt -> Prop) c s :
  all_nodes Q s -> substmt c s -> all_nodes Q c.
Proof. intros Hs Hc t Ht. apply Hs. by eapply substmt_trans. Qed.

Lemma no_loop_matches_child level c s :
  no_loop_matches level s -> c ∈ stmt_children s -> no_loop_matches level c.
Proof.
  intros Hs Hc. eapply all_nodes_child; [exact Hs|].
  eapply substmt_child; [exact Hc|constructor].
Qed.

Lemma special_cases_off :
  is_inline (compute_level (fn_schedule func)) = false \/ fn_is_pure func = true ->
  (forall ft s, InjectRealization.extern_in_vector_loop func ft s = false) /\
  (forall name s, InjectRealization.inline_update_here func name s = false).
Proof.
  unfold InjectRealization.extern_in_vector_loop,
    InjectRealization.inline_update_here, fn_is_pure.
  intros [->|Hpure].
  - split; intros; by rewrite ?andb_false_r.
  - apply andb_true_iff in Hpure as [Hupd Hext].
    apply negb_true_iff in Hext. unfold fn_is_pure. rewrite Hupd, Hext.
    split; intros; simpl; by rewrite ?andb_false_r.
Qed.

Lemma at_levels_unmatched name body st :
  level_match_name (compute_level (fn_schedule func)) name = false ->
  level_match_name (store_level (fn_schedule func)) name = false ->
  InjectRealization.at_levels func is_output target env name body st
  = Some (body, st).
Proof.
  intros Hc Hs.
  unfold InjectRealization.at_levels, InjectRealization.at_compute_level,
    InjectRealization.at_store_level.
  rewrite Hc. simpl. by rewrite Hs.
Qed.

(** The single-function injector leaves alone a statement none of whose
    loops is the compute or the store level of the function, when the
    function is not scheduled inline or is pure. *)
Theorem inject_realization_untouched s st :
  is_inline (compute_level (fn_schedule func)) = false \/ fn_is_pure func = true ->
  no_loop_matches (compute_level (fn_schedule func)) s ->
  no_loop_matches (store_level (fn_schedule func)) s ->
  InjectRealization.mutate func is_output target env s st = Some (s, st).
Proof.
  intros Hoff. destruct (special_cases_off Hoff) as [Hextern Hinline].
  revert st.
  induction s as [n v b IH|c m|n p b IH|n mn ex ft api b IH|n vs args
                  |n ts bs c b IH|a b IHa IHb|c t IH|c t e IHt IHe|v]
                 using Stmt_core_ind; intros st Hcompute Hstore.
  - simpl. rewrite IH; [done|..]; eapply no_loop_matches_child; eauto; simpl; left.
  - done.
  - simpl. rewrite IH; [done|..]; eapply no_loop_matches_child; eauto; simpl; left.
  - rewrite inject_realization_for, Hextern. unfold under_lets.
    rewrite IH.
    + simpl. rewrite at_levels_unmatched.
      * simpl. by rewrite wrap_strip_lets.
      * apply (Hcompute _ (substmt_here _)).
      * apply (Hstore _ (substmt_here _)).
    + eapply all_nodes_child; [exact Hcompute|].
      eapply substmt_child; [left|apply substmt_core].
    + eapply all_nodes_child; [exact Hstore|].
      eapply substmt_child; [left|apply substmt_core].
  - simpl. by rewrite Hinline.
  - simpl. rewrite IH; [done|..]; eapply no_loop_matches_child; eauto; simpl; left.
  - simpl.
    rewrite IHa; [|eapply no_loop_matches_child; eauto; simpl; left..].
    simpl.
    rewrite IHb; [done|..]; eapply no_loop_matches_child; eauto; simpl;
      right; left.
  - simpl. rewrite IH; [done|..]; eapply no_loop_matches_child; eauto; simpl; left.
  - simpl.
    rewrite IHt; [|eapply no_loop_matches_child; eauto; simpl; left..].
    simpl.
    rewrite IHe; [done|..]; eapply no_loop_matches_child; eauto; simpl;
      right; left.
  - done.
Qed.

Lemma found_le_refl st : found_le st st.
Proof. done. Qed.

Lemma found_le_trans a b c : found_le a b -> found_le b c -> found_le a c.
Proof. intros [? ?] [? ?]. split; auto. Qed.

Lemma at_levels_flags name body st r :
  InjectRealization.at_levels func is_output target env name body st = Some r ->
  found_le st r.2 /\
  ((found_store_level st = true -> found_compute_level st = true) ->
   found_store_level r.2 = true -> found_compute_level r.2 = true).
Proof.
  unfold InjectRealization.at_levels, InjectRealization.at_compute_level,
    InjectRealization.at_store_level.
  intros Hrun.
  assert (Hc : exists r1,
             (if level_match_name (compute_level (fn_schedule func)) name
              then right ← InjectRealization.is_the_right_level env name;
                   if right : bool
                   then body ← (if InjectRealization.wants_injection
                                     func is_output body
                                then InjectRealization.build_pipeline
                                       func target body
                                else Some body);
                        Some (body, mkFound (found_store_level st) true)
                   else Some (body, st)
              else Some (body, st)) = Some r1 /\
             (r1.2 = st \/ r1.2 = mkFound (found_store_level st) true) /\
             (if level_match_name (store_level (fn_schedule func)) name
              then right ← InjectRealization.is_the_right_level env name;
                   if right : bool
                   then _ ← internal_assert (found_compute_level r1.2);
                        let body := if InjectRealization.wants_injection
                                         func is_output r1.1
                                    then InjectRealization.build_realize
                                           func is_output target r1.1
                                    else r1.1 in
                        Some (body, mkFound true (found_compute_level r1.2))
                   else Some (r1.1, r1.2)
              else Some (r1.1, r1.2)) = Some r).
  { destruct (level_match_name (compute_level (fn_schedule func)) name);
      [|eexists; split; [done|]; split; [by left|done]].
    destruct (InjectRealization.is_the_right_level env name) as [[|]|];
      simpl in *; [| |done].
    - destruct (if InjectRealization.wants_injection func is_output body
                then InjectRealization.build_pipeline func target body
                else Some body) as [body1|]; simpl in *; [|done].
      eexists; split; [done|]; split; [by right|done].
    - eexists; split; [done|]; split; [by left|done]. }
  destruct Hc as (r1 & _ & Hr1 & Hs).
  assert (Hle1 : found_le st r1.2 /\
                 ((found_store_level st = true -> found_compute_level st = true) ->
                  found_store_level r1.2 = true -> found_compute_level r1.2 = true)).
  { destruct Hr1 as [->| ->]; [done|]. split; [split|]; simpl; auto. }
  destruct Hle1 as [Hle1 Hinv1].
  destruct (level_match_name (store_level (fn_schedule func)) name);
    [|injection Hs as <-; by simpl].
  destruct (InjectRealization.is_the_right_level env name) as [[|]|];
    simpl in Hs; [| |done].
  - destruct (found_compute_level r1.2) eqn:Hfc; simpl in Hs; [|done].
    injection Hs as <-. simpl. split; [|done].
    split; simpl; [done|]. intros _. done.
  - injection Hs as <-. by simpl.
Qed.

(** The flags of the single-function injector are only ever set, and
    the store level is never reported as found without the compute
    level. *)
Theorem inject_realization_flags s st s' st' :
  InjectRealization.mutate func is_output target env s st = Some (s', st') ->
  found_le st st' /\
  ((found_store_level st = true -> found_compute_level st = true) ->
   found_store_level st' = true -> found_compute_level st' = true).
Proof.
  enough (forall st r,
             InjectRealization.mutate func is_output target env s st = Some r ->
             found_le st r.2 /\
             ((found_store_level st = true -> found_compute_level st = true) ->
              found_store_level r.2 = true -> found_compute_level r.2 = true))
    as Hall by (intros Hrun; apply (Hall st (s', st') Hrun)).
  clear st s' st'.
  induction s as [n v b IH|c m|n p b IH|n mn ex ft api b IH|n vs args
                  |n ts bs c b IH|a b IHa IHb|c t IH|c t e IHt IHe|v]
                 using Stmt_core_ind; intros st r Hrun.
  - simpl in Hrun.
    destruct (InjectRealization.mutate _ _ _ _ b st) as [rb|] eqn:Hb;
      simpl in Hrun; [|done].
    injection Hrun as <-. simpl. eapply IH; eassumption.
  - by injection Hrun as <-.
  - simpl in Hrun.
    destruct (InjectRealization.mutate _ _ _ _ b st) as [rb|] eqn:Hb;
      simpl in Hrun; [|done].
    injection Hrun as <-. simpl. eapply IH; eassumption.
  - rewrite inject_realization_for in Hrun.
    destruct (InjectRealization.extern_in_vector_loop _ _ _).
    + destruct (InjectRealization.build_pipeline _ _ _); simpl in Hrun; [|done].
      injection Hrun as <-. by simpl.
    + unfold under_lets in Hrun.
      destruct (InjectRealization.mutate _ _ _ _ (strip_lets b).2 st)
        as [rc|] eqn:Hc; simpl in Hrun; [|done].
      destruct (InjectRealization.at_levels _ _ _ _ n rc.1 rc.2)
        as [rl|] eqn:Hl; simpl in Hrun; [|done].
      injection Hrun as <-. simpl.
      destruct (IH _ _ Hc) as [Hle Hinv].
      destruct (at_levels_flags _ _ _ _ Hl) as [Hle' Hinv'].
      split; [by eapply found_le_trans|auto].
  - simpl in Hrun.
    destruct (InjectRealization.inline_update_here _ _ _).
    + destruct (InjectRealization.build_pipeline _ _ _); simpl in Hrun; [|done].
      injection Hrun as <-. by simpl.
    + by injection Hrun as <-.
  - simpl in Hrun.
    destruct (InjectRealization.mutate _ _ _ _ b st) as [rb|] eqn:Hb;
      simpl in Hrun; [|done].
    injection Hrun as <-. simpl. eapply IH; eassumption.
  - simpl in Hrun.
    destruct (InjectRealization.mutate _ _ _ _ a st) as [ra|] eqn:Ha;
      simpl in Hrun; [|done].
    destruct (InjectRealization.mutate _ _ _ _ b ra.2) as [rb|] eqn:Hb;
      simpl in Hrun; [|done].
    injection Hrun as <-. simpl.
    destruct (IHa _ _ Ha) as [Hle Hinv]. destruct (IHb _ _ Hb) as [Hle' Hinv'].
    split; [by eapply found_le_trans|auto].
  - simpl in Hrun.
    destruct (InjectRealization.mutate _ _ _ _ t st) as [rt|] eqn:Ht;
      simpl in Hrun; [|done].
    injection Hrun as <-. simpl. eapply IH; eassumption.
  - simpl in Hrun.
    destruct (InjectRealization.mutate _ _ _ _ t st) as [rt|] eqn:Ht;
      simpl in Hrun; [|done].
    destruct (InjectRealization.mutate _ _ _ _ e rt.2) as [re|] eqn:He;
      simpl in Hrun; [|done].
    injection Hrun as <-. simpl.
    destruct (IHt _ _ Ht) as [Hle Hinv]. destruct (IHe _ _ He) as [Hle' Hinv'].
    split; [by eapply found_le_trans|auto].
  - by injection Hrun as <-.
Qed.

End InjectorFacts.

Section GroupInjectorFacts.
Context `{Helpers}.
Variables (group : list Function) (is_output_list : list bool)
          (target : Target) (env : gmap string Function).

(** [visit(For)] of the group injector, as the source writes it. *)
Lemma inject_group_for name mn ex ft api body st :
  InjectGroupRealization.mutate group is_output_list target env
                                (For name mn ex ft api body) st
  = r ← under_lets
          (fun b => r ← InjectGroupRealization.mutate
                          group is_output_list target env b st;
                    InjectGroupRealization.at_levels
                      group is_output_list target env name r.1 r.2) body;
    Some (For name mn ex ft api r.1, r.2).
Proof.
  cbn [InjectGroupRealization.mutate]. by rewrite dig_through_lets.
Qed.

Lemma group_at_levels_flags name body st r :
  InjectGroupRealization.at_levels group is_output_list target env name body st
  = Some r ->
  found_le st r.2 /\
  ((found_store_level st = true -> found_compute_level st = true) ->
   found_store_level r.2 = true -> found_compute_level r.2 = true).
Proof.
  unfold InjectGroupRealization.at_levels. intros Hrun.
  destruct (level_match_name (InjectGroupRealization.compute_at group) name).
  - destruct (InjectGroupRealization.build_pipeline_group _ _ _ body)
      as [body1|]; simpl in Hrun; [|done].
    destruct (level_match_name (InjectGroupRealization.store_at group) name);
      simpl in Hrun; injection Hrun as <-; simpl; (split; [split|]); simpl; auto.
  - simpl in Hrun.
    destruct (level_match_name (InjectGroupRealization.store_at group) name).
    + destruct (found_compute_level st) eqn:Hfc; simpl in Hrun; [|done].
      injection Hrun as <-. simpl. (split; [split|]); simpl; auto.
    + injection Hrun as <-. by simpl.
Qed.

(** The group injector leaves alone a statement none of whose loops is
    the compute or the store level of the group; its flags are only ever
    set, and the store level is never reported as found without the
    compute level. *)
Theorem inject_group_flags s st :
  (no_loop_matches (InjectGroupRealization.compute_at group) s ->
   no_loop_matches (InjectGroupRealization.store_at group) s ->
   InjectGroupRealization.mutate group is_output_list target env s st
   = Some (s, st)) /\
  (forall s' st',
      InjectGroupRealization.mutate group is_output_list target env s st
      = Some (s', st') ->
      found_le st st' /\
      ((found_store_level st = true -> found_compute_level st = true) ->
       found_store_level st' = true -> found_compute_level st' = true)).
Proof.
  split.
  - revert st.
    induction s as [n v b IH|c m|n p b IH|n mn ex ft api b IH|n vs args
                    |n ts bs c b IH|a b IHa IHb|c t IH|c t e IHt IHe|v]
                   using Stmt_core_ind; intros st Hcompute Hstore;
      try done.
    + simpl. rewrite IH; [done|..]; eapply no_loop_matches_child; eauto; simpl; left.
    + simpl. rewrite IH; [done|..]; eapply no_loop_matches_child; eauto; simpl; left.
    + rewrite inject_group_for. unfold under_lets. rewrite IH.
      * simpl. unfold InjectGroupRealization.at_levels.
        rewrite (Hcompute _ (substmt_here _)). simpl.
        rewrite (Hstore _ (substmt_here _)). simpl. by rewrite wrap_strip_lets.
      * eapply all_nodes_child; [exact Hcompute|].
        eapply substmt_child; [left|apply substmt_core].
      * eapply all_nodes_child; [exact Hstore|].
        eapply substmt_child; [left|apply substmt_core].
    + simpl. rewrite IH; [done|..]; eapply no_loop_matches_child; eauto; simpl; left.
    + simpl.
      rewrite IHa; [|eapply no_loop_matches_child; eauto; simpl; left..].
      simpl.
      rewrite IHb; [done|..]; eapply no_loop_matches_child; eauto; simpl;
        right; left.
    + simpl. rewrite IH; [done|..]; eapply no_loop_matches_child; eauto; simpl; left.
    + simpl.
      rewrite IHt; [|eapply no_loop_matches_child; eauto; simpl; left..].
      simpl.
      rewrite IHe; [done|..]; eapply no_loop_matches_child; eauto; simpl;
        right; left.
  - enough (forall st r,
               InjectGroupRealization.mutate group is_output_list target env s st
               = Some r ->
               found_le st r.2 /\
               ((found_store_level st = true -> found_compute_level st = true) ->
                found_store_level r.2 = true -> found_compute_level r.2 = true))
      as Hall by (intros s' st' Hrun; apply (Hall st (s', st') Hrun)).
    clear st.
    induction s as [n v b IH|c m|n p b IH|n mn ex ft api b IH|n vs args
                    |n ts bs c b IH|a b IHa IHb|c t IH|c t e IHt IHe|v]
                   using Stmt_core_ind; intros st r Hrun;
      try (by injection Hrun as <-).
    + simpl in Hrun.
      destruct (InjectGroupRealization.mutate _ _ _ _ b st) as [rb|] eqn:Hb;
        simpl in Hrun; [|done].
      injection Hrun as <-. simpl. eapply IH; eassumption.
    + simpl in Hrun.
      destruct (InjectGroupRealization.mutate _ _ _ _ b st) as [rb|] eqn:Hb;
        simpl in Hrun; [|done].
      injection Hrun as <-. simpl. eapply IH; eassumption.
    + rewrite inject_group_for in Hrun. unfold under_lets in Hrun.
      destruct (InjectGroupRealization.mutate _ _ _ _ (strip_lets b).2 st)
        as [rc|] eqn:Hc; simpl in Hrun; [|done].
      destruct (InjectGroupRealization.at_levels _ _ _ _ n rc.1 rc.2)
        as [rl|] eqn:Hl; simpl in Hrun; [|done].
      injection Hrun as <-. simpl.
      destruct (IH _ _ Hc) as [Hle Hinv].
      destruct (group_at_levels_flags _ _ _ _ Hl) as [Hle' Hinv'].
      split; [by eapply found_le_trans|auto].
    + simpl in Hrun.
      destruct (InjectGroupRealization.mutate _ _ _ _ b st) as [rb|] eqn:Hb;
        simpl in Hrun; [|done].
      injection Hrun as <-. simpl. eapply IH; eassumption.
    + simpl in Hrun.
      destruct (InjectGroupRealization.mutate _ _ _ _ a st) as [ra|] eqn:Ha;
        simpl in Hrun; [|done].
      destruct (InjectGroupRealization.mutate _ _ _ _ b ra.2) as [rb|] eqn:Hb;
        simpl in Hrun; [|done].
      injection Hrun as <-. simpl.
      destruct (IHa _ _ Ha) as [Hle Hinv]. destruct (IHb _ _ Hb) as [Hle' Hinv'].
      split; [by eapply found_le_trans|auto].
    + simpl in Hrun.
      destruct (InjectGroupRealization.mutate _ _ _ _ t st) as [rt|] eqn:Ht;
        simpl in Hrun; [|done].
      injection Hrun as <-. simpl. eapply IH; eassumption.
    + simpl in Hrun.
      destruct (InjectGroupRealization.mutate _ _ _ _ t st) as [rt|] eqn:Ht;
        simpl in Hrun; [|done].
      destruct (InjectGroupRealization.mutate _ _ _ _ e rt.2) as [re|] eqn:He;
        simpl in Hrun; [|done].
      injection Hrun as <-. simpl.
      destruct (IHt _ _ Ht) as [Hle Hinv]. destruct (IHe _ _ He) as [Hle' Hinv'].
      split; [by eapply found_le_trans|auto].
Qed.

End GroupInjectorFacts.

Ltac all_nodes_by_computation :=
  repeat first
    [ apply Forall_nil_2
    | apply Forall_cons_2
    | apply all_nodes_intro; [first [exact I | reflexivity]|simpl] ].

Lemma inject_realization_untouched_witness :
  InjectRealization.mutate (H := Reference.helpers)
    Examples.g_at_f_x false Examples.target_host Examples.env_fg
    Examples.unrelated_nest (mkFound false false)
  = Some (Examples.unrelated_nest, mkFound false false).
Proof.
  apply (inject_realization_untouched (H := Reference.helpers)
           Examples.g_at_f_x false Examples.target_host Examples.env_fg
           Examples.unrelated_nest (mkFound false false)).
  - left. reflexivity.
  - unfold no_loop_matches, Examples.unrelated_nest, Examples.root_skeleton,
      Examples.loop, Examples.call_g.
    all_nodes_by_computation.
  - unfold no_loop_matches, Examples.unrelated_nest, Examples.root_skeleton,
      Examples.loop, Examples.call_g.
    all_nodes_by_computation.
Defined.

Lemma inject_realization_flags_witness :
  found_le (mkFound false false) Examples.g_injected.2 /\
  ((found_store_level (mkFound false false) = true ->
    found_compute_level (mkFound false false) = true) ->
   found_store_level Examples.g_injected.2 = true ->
   found_compute_level Examples.g_injected.2 = true).
Proof.
  apply (inject_realization_flags (H := Reference.helpers)
           Examples.g_at_f_x false Examples.target_host Examples.env_fg
           Examples.g_used_in_f (mkFound false false)
           Examples.g_injected.1 Examples.g_injected.2).
  reflexivity.
Defined.

Section InjectStmtFacts.
Context `{Helpers}.
Variables (injected : Stmt) (level : LoopLevel).

Lemma all_nodes_unfold (P : Stmt -> Prop) s :
  all_nodes P s <-> P s /\ Forall (all_nodes P) (stmt_children s).
Proof.
  split.
  - intros Hs. split; [apply Hs; constructor|].
    apply Forall_forall. intros c Hc. eapply all_nodes_child; [exact Hs|].
    eapply substmt_child; [exact Hc|constructor].
  - intros [Hs Hc]. by apply all_nodes_intro.
Qed.

Lemma inject_stmt_flag s found :
  (InjectStmt.mutate injected level s found).2 = false <->
  found = false /\ no_loop_matches level s.
Proof.
  unfold no_loop_matches. revert found.
  induction s as [n v b IH|c m|n p b IH|n mn ex ft api b IH|n vs args
                  |n ts bs c b IH|a b IHa IHb|c t IH|c t e IHt IHe|v]
                 using Stmt_ind'; intros found; rewrite all_nodes_unfold; simpl;
    rewrite ?Forall_cons, ?Forall_nil.
  - rewrite IH. intuition congruence.
  - intuition congruence.
  - rewrite IH. intuition congruence.
  - destruct (level_match_name level n); simpl; [intuition congruence|].
    rewrite IH. intuition congruence.
  - intuition congruence.
  - rewrite IH. intuition congruence.
  - rewrite IHb, IHa. intuition congruence.
  - rewrite IH. intuition congruence.
  - rewrite IHe, IHt. intuition congruence.
  - intuition congruence.
Qed.

Lemma inject_stmt_contains s found :
  (InjectStmt.mutate injected level s found).2 = true ->
  found = true \/ substmt injected (InjectStmt.mutate injected level s found).1.
Proof.
  revert found.
  induction s as [n v b IH|c m|n p b IH|n mn ex ft api b IH|n vs args
                  |n ts bs c b IH|a b IHa IHb|c t IH|c t e IHt IHe|v]
                 using Stmt_ind'; intros found; simpl; auto.
  - intros [->|Hsub]%IH; [by left|right].
    eapply substmt_child; [left|done].
  - intros [->|Hsub]%IH; [by left|right].
    eapply substmt_child; [left|done].
  - destruct (level_match_name level n); simpl.
    + intros _. right. eapply substmt_child; [left|]. simpl.
      eapply substmt_child; [right; left|constructor].
    + intros [->|Hsub]%IH; [by left|right].
      eapply substmt_child; [left|done].
  - intros [->|Hsub]%IH; [by left|right].
    eapply substmt_child; [left|done].
  - intros [Ha|Hsub]%IHb.
    + apply IHa in Ha as [->|Hsub]; [by left|right].
      eapply substmt_child; [left|done].
    + right. eapply substmt_child; [right; left|done].
  - intros [->|Hsub]%IH; [by left|right].
    eapply substmt_child; [left|done].
  - intros [Ht|Hsub]%IHe.
    + apply IHt in Ht as [->|Hsub]; [by left|right].
      eapply substmt_child; [left|done].
    + right. eapply substmt_child; [right; left|done].
Qed.

End InjectStmtFacts.

Section InjectStmtTheorem.
Context `{Helpers}.

(** Injecting at a loop level fails, on its assertion, exactly when no
    loop of the root statement matches the level; when it returns, the
    injected statement is part of the result. *)
Theorem inject_stmt_at_level root injected func var :
  (inject_stmt (Some root) (Some injected) (LoopAt func var) = None <->
   no_loop_matches (LoopAt func var) root) /\
  (forall r, inject_stmt (Some root) (Some injected) (LoopAt func var) = Some r ->
             exists t, r = Some t /\ substmt injected t).
Proof.
  unfold inject_stmt. simpl.
  pose proof (inject_stmt_flag injected (LoopAt func var) root false) as Hflag.
  pose proof (inject_stmt_contains injected (LoopAt func var) root false) as Hin.
  destruct (InjectStmt.mutate injected (LoopAt func var) root false) as [t [|]];
    simpl in *.
  - split.
    + split; [done|]. intros Hno. destruct Hflag as [_ Hflag].
      by specialize (Hflag (conj eq_refl Hno)).
    + intros r [= <-]. exists t. split; [done|]. by destruct (Hin eq_refl).
  - split; [|done]. split; [|done]. intros _. by apply Hflag.
Qed.

End InjectStmtTheorem.

Section SubstituteBoundsFacts.
Context `{Helpers}.
Variable replacements : gmap string Expr.

Lemma binds_name_child k c s :
  c ∈ stmt_children s -> binds_name k c -> binds_name k s.
Proof.
  intros Hc (v & body & Hsub). exists v, body. by eapply substmt_child.
Qed.

(** The bound substitution keeps the keys of the map of captured bounds:
    it neither adds nor removes one.  A key that no [LetStmt] of the
    statement binds keeps its value, and a value captured under a key is
    the value of a [LetStmt] of that name in the statement, unless it
    was there before. *)
Theorem substitute_bounds_captures s bounds s' bounds' :
  SubstituteBounds.mutate replacements s bounds = Some (s', bounds') ->
  (forall k, is_Some (bounds' !! k) <-> is_Some (bounds !! k)) /\
  (forall k, ~ binds_name k s -> bounds' !! k = bounds !! k) /\
  (forall k v, bounds' !! k = Some (Some v) ->
               bounds !! k = Some (Some v) \/
               exists body, substmt (LetStmt k v body) s).
Proof.
  revert bounds s' bounds'.
  induction s as [n v b IH|c m|n p b IH|n mn ex ft api b IH|n vs args
                  |n ts bs c b IH|a b IHa IHb|c t IH|c t e IHt IHe|v]
                 using Stmt_ind'; intros bounds s' bounds' Hrun; simpl in Hrun.
  - destruct (SubstituteBounds.mutate _ b _) as [[b1 bounds1]|] eqn:Hb;
      simpl in Hrun; [|done].
    injection Hrun as <- <-.
    destruct (IH _ _ _ Hb) as (Hdom & Hframe & Hval).
    assert (Hhere : binds_name n (LetStmt n v b)) by (exists v, b; constructor).
    split; [|split].
    + intros k. rewrite Hdom. destruct (bounds !! n) eqn:Hn; [|done].
      destruct (decide (k = n)) as [->|Hne].
      * rewrite lookup_insert_eq, Hn. split; by eexists.
      * by rewrite lookup_insert_ne.
    + intros k Hk. rewrite Hframe.
      * destruct (bounds !! n); [|done].
        rewrite lookup_insert_ne; [done|]. by intros <-.
      * intros Hb'. apply Hk. eapply binds_name_child; [|exact Hb']. left.
    + intros k w Hw. apply Hval in Hw as [Hw|[body Hsub]].
      * destruct (bounds !! n) eqn:Hn; [|by left].
        destruct (decide (k = n)) as [->|Hne].
        -- rewrite lookup_insert_eq in Hw. injection Hw as <-.
           right. exists b. constructor.
        -- rewrite lookup_insert_ne in Hw by done. by left.
      * right. exists body. eapply substmt_child; [left|done].
  - injection Hrun as <- <-. split; [done|]. split; [done|]. by left.
  - destruct (SubstituteBounds.mutate _ b _) as [[b1 bounds1]|] eqn:Hb;
      simpl in Hrun; [|done].
    injection Hrun as <- <-.
    destruct (IH _ _ _ Hb) as (Hdom & Hframe & Hval).
    split; [done|]. split.
    + intros k Hk. apply Hframe. intros Hb'. apply Hk.
      eapply binds_name_child; [|exact Hb']. left.
    + intros k w [Hw|[body Hsub]]%Hval; [by left|right].
      exists body. eapply substmt_child; [left|done].
  - assert (Hbody : exists b1,
               SubstituteBounds.mutate replacements b bounds = Some (b1, bounds')).
    { destruct (SubstituteBounds.replaced_bounds replacements mn ex) as [[mv ev]|];
        destruct (SubstituteBounds.mutate _ b _) as [[b1 bounds1]|];
        simpl in Hrun; try done.
      - destruct (SubstituteBounds.fused_loop _ _ _ _ _ _); simpl in Hrun; [|done].
        injection Hrun as _ <-. by eexists.
      - injection Hrun as _ <-. by eexists. }
    destruct Hbody as [b1 Hb].
    destruct (IH _ _ _ Hb) as (Hdom & Hframe & Hval).
    split; [done|]. split.
    + intros k Hk. apply Hframe. intros Hb'. apply Hk.
      eapply binds_name_child; [|exact Hb']. left.
    + intros k w [Hw|[body Hsub]]%Hval; [by left|right].
      exists body. eapply substmt_child; [left|done].
  - injection Hrun as <- <-. split; [done|]. split; [done|]. by left.
  - destruct (SubstituteBounds.mutate _ b _) as [[b1 bounds1]|] eqn:Hb;
      simpl in Hrun; [|done].
    injection Hrun as <- <-.
    destruct (IH _ _ _ Hb) as (Hdom & Hframe & Hval).
    split; [done|]. split.
    + intros k Hk. apply Hframe. intros Hb'. apply Hk.
      eapply binds_name_child; [|exact Hb']. left.
    + intros k w [Hw|[body Hsub]]%Hval; [by left|right].
      exists body. eapply substmt_child; [left|done].
  - destruct (SubstituteBounds.mutate _ a _) as [[a1 bounds1]|] eqn:Ha;
      simpl in Hrun; [|done].
    destruct (SubstituteBounds.mutate _ b _) as [[b1 bounds2]|] eqn:Hb;
      simpl in Hrun; [|done].
    injection Hrun as <- <-.
    destruct (IHa _ _ _ Ha) as (Hdoma & Hframea & Hvala).
    destruct (IHb _ _ _ Hb) as (Hdomb & Hframeb & Hvalb).
    split; [|split].
    + intros k. by rewrite Hdomb, Hdoma.
    + intros k Hk. rewrite Hframeb, Hframea; [done|..].
      * intros Hb'. apply Hk. eapply binds_name_child; [|exact Hb']. left.
      * intros Hb'. apply Hk. eapply binds_name_child; [|exact Hb']. right; left.
    + intros k w [Hw|[body Hsub]]%Hvalb.
      * apply Hvala in Hw as [Hw|[body Hsub]]; [by left|right].
        exists body. eapply substmt_child; [left|done].
      * right. exists body. eapply substmt_child; [right; left|done].
  - destruct (SubstituteBounds.mutate _ t _) as [[t1 bounds1]|] eqn:Ht;
      simpl in Hrun; [|done].
    injection Hrun as <- <-.
    destruct (IH _ _ _ Ht) as (Hdom & Hframe & Hval).
    split; [done|]. split.
    + intros k Hk. apply Hframe. intros Hb'. apply Hk.
      eapply binds_name_child; [|exact Hb']. left.
    + intros k w [Hw|[body Hsub]]%Hval; [by left|right].
      exists body. eapply substmt_child; [left|done].
  - destruct (SubstituteBounds.mutate _ t _) as [[t1 bounds1]|] eqn:Ht;
      simpl in Hrun; [|done].
    destruct (SubstituteBounds.mutate _ e _) as [[e1 bounds2]|] eqn:He;
      simpl in Hrun; [|done].
    injection Hrun as <- <-.
    destruct (IHt _ _ _ Ht) as (Hdoma & Hframea & Hvala).
    destruct (IHe _ _ _ He) as (Hdomb & Hframeb & Hvalb).
    split; [|split].
    + intros k. by rewrite Hdomb, Hdoma.
    + intros k Hk. rewrite Hframeb, Hframea; [done|..].
      * intros Hb'. apply Hk. eapply binds_name_child; [|exact Hb']. left.
      * intros Hb'. apply Hk. eapply binds_name_child; [|exact Hb']. right; left.
    + intros k w [Hw|[body Hsub]]%Hvalb.
      * apply Hvala in Hw as [Hw|[body Hsub]]; [by left|right].
        exists body. eapply substmt_child; [left|done].
      * right. exists body. eapply substmt_child; [right; left|done].
  - injection Hrun as <- <-. split; [done|]. split; [done|]. by left.
Qed.

End SubstituteBoundsFacts.

Section SubstituteNothing.
Context `{Helpers}.

(** Without replacements the bound substitution rewrites nothing: the
    statement comes back as it was. *)
Theorem substitute_bounds_without_replacements s bounds :
  exists bounds',
    substitute_bounds (Some s) bounds ∅ = Some (Some s, bounds').
Proof.
  unfold substitute_bounds.
  enough (exists bounds', SubstituteBounds.mutate ∅ s bounds = Some (s, bounds'))
    as [bounds' ->] by (by eexists).
  assert (Hnone : forall mn ex, SubstituteBounds.replaced_bounds ∅ mn ex = None).
  { intros mn ex. destruct mn, ex; simpl; by rewrite ?lookup_empty. }
  revert bounds.
  induction s as [n v b IH|c m|n p b IH|n mn ex ft api b IH|n vs args
                  |n ts bs c b IH|a b IHa IHb|c t IH|c t e IHt IHe|v]
                 using Stmt_ind'; intros bounds; simpl; try (by eexists).
  - destruct (IH (match bounds !! n with
                  | Some _ => <[n:=Some v]> bounds
                  | None => bounds
                  end)) as [b' ->]. by eexists.
  - destruct (IH bounds) as [b' ->]. by eexists.
  - rewrite Hnone. destruct (IH bounds) as [b' ->]. by eexists.
  - destruct (IH bounds) as [b' ->]. by eexists.
  - destruct (IHa bounds) as [b1 ->]. simpl.
    destruct (IHb b1) as [b2 ->]. by eexists.
  - destruct (IH bounds) as [b' ->]. by eexists.
  - destruct (IHt bounds) as [b1 ->]. simpl.
    destruct (IHe b1) as [b2 ->]. by eexists.
Qed.

End SubstituteNothing.

Lemma substitute_bounds_captures_witness :
  (forall k, is_Some (Examples.child_loop_substituted.2 !! k) <->
             is_Some (Examples.bounds_to_capture !! k)) /\
  (forall k, ~ binds_name k Examples.child_loop_of_g ->
             Examples.child_loop_substituted.2 !! k
             = Examples.bounds_to_capture !! k) /\
  (forall k v, Examples.child_loop_substituted.2 !! k = Some (Some v) ->
               Examples.bounds_to_capture !! k = Some (Some v) \/
               exists body, substmt (LetStmt k v body) Examples.child_loop_of_g).
Proof.
  apply (substitute_bounds_captures (H := Reference.helpers)
           Examples.child_replacements Examples.child_loop_of_g
           Examples.bounds_to_capture
           Examples.child_loop_substituted.1 Examples.child_loop_substituted.2).
  vm_compute. reflexivity.
Defined.

Section UnusedFacts.
Context `{Helpers}.
Variables (func : Function) (env : gmap string Function).

Lemma expr_unused_no_stacks sites e :
  IsUsedInStmt.visit_expr (fn_name func) e = false ->
  expr_use_stacks (fn_name func) sites e = [].
Proof.
  induction e as [| | | |op a b IHa IHb|a IHa|c t f IHc IHt IHf
                  |n v b IHv IHb|t n args ct vi IH]
                 using Expr_ind'; simpl; try done.
  - by intros ->.
  - intros [Ha Hb]%orb_false_iff. by rewrite IHa, IHb.
  - intros [[Hc Ht]%orb_false_iff Hf]%orb_false_iff. by rewrite IHc, IHt, IHf.
  - intros [Hv Hb]%orb_false_iff. by rewrite IHv, IHb.
  - intros [Hargs ->]%orb_false_iff. rewrite app_nil_r.
    induction IH as [|a args Ha _ IHargs]; [done|].
    simpl in *. apply orb_false_iff in Hargs as [Hhead Htail].
    by rewrite Ha, IHargs.
Qed.

Lemma exprs_unused_no_stacks sites es :
  existsb (IsUsedInStmt.visit_expr (fn_name func)) es = false ->
  flat_map (expr_use_stacks (fn_name func) sites) es = [].
Proof.
  induction es as [|e es IH]; [done|].
  simpl. intros [He Hes]%orb_false_iff.
  by rewrite expr_unused_no_stacks, IH.
Qed.

Lemma unused_no_stacks sites s stacks :
  function_is_used_in_stmt func s = false ->
  use_stacks (fn_name func) env sites s = Some stacks -> stacks = [].
Proof.
  unfold function_is_used_in_stmt. revert sites stacks.
  induction s as [n v b IH|c m|n p b IH|n mn ex ft api b IH|n vs args
                  |n ts bs c b IH|a b IHa IHb|c t IHt|c t e IHt IHe|v]
                 using Stmt_ind'; intros sites stacks; simpl.
  - intros [Hv Hb]%orb_false_iff Hrun.
    destruct (use_stacks _ _ _ b) as [inner|] eqn:Hinner; simpl in Hrun; [|done].
    injection Hrun as <-. by rewrite (IH _ _ Hb Hinner), expr_unused_no_stacks.
  - intros [Hc Hm]%orb_false_iff [= <-]. by rewrite !expr_unused_no_stacks.
  - apply IH.
  - intros [[Hmn Hex]%orb_false_iff Hb]%orb_false_iff Hrun.
    destruct (ComputeLegalSchedules.site_of_loop env n ft); simpl in Hrun; [|done].
    destruct (use_stacks _ _ _ b) as [inner|] eqn:Hinner; simpl in Hrun; [|done].
    injection Hrun as <-.
    by rewrite (IH _ _ Hb Hinner), !expr_unused_no_stacks.
  - intros [Hvs Hargs]%orb_false_iff [= <-]. by rewrite !exprs_unused_no_stacks.
  - intros [[Hbs Hc]%orb_false_iff Hb]%orb_false_iff Hrun.
    destruct (use_stacks _ _ _ b) as [inner|] eqn:Hinner; simpl in Hrun; [|done].
    injection Hrun as <-.
    rewrite (IH _ _ Hb Hinner), expr_unused_no_stacks by done.
    rewrite !app_nil_r.
    induction bs as [|r bs IHbs]; [done|].
    simpl in *. apply orb_false_iff in Hbs as [[H1 H2]%orb_false_iff Hbs].
    by rewrite !expr_unused_no_stacks, IHbs.
  - intros [Ha Hb]%orb_false_iff Hrun.
    destruct (use_stacks _ _ _ a) as [first|] eqn:Hfirst; simpl in Hrun; [|done].
    destruct (use_stacks _ _ _ b) as [rest|] eqn:Hrest; simpl in Hrun; [|done].
    injection Hrun as <-. by rewrite (IHa _ _ Ha Hfirst), (IHb _ _ Hb Hrest).
  - rewrite orb_false_r. intros [Hc Ht]%orb_false_iff Hrun.
    destruct (use_stacks _ _ _ t) as [then_|] eqn:Hthen; simpl in Hrun; [|done].
    injection Hrun as <-. by rewrite (IHt _ _ Ht Hthen), expr_unused_no_stacks.
  - intros [[Hc Ht]%orb_false_iff He]%orb_false_iff Hrun.
    destruct (use_stacks _ _ _ t) as [then_|] eqn:Hthen; simpl in Hrun; [|done].
    destruct (use_stacks _ _ _ e) as [else_|] eqn:Helse; simpl in Hrun; [|done].
    injection Hrun as <-.
    by rewrite (IHt _ _ Ht Hthen), (IHe _ _ He Helse), expr_unused_no_stacks.
  - intros Hv [= <-]. by apply expr_unused_no_stacks.
Qed.

(** A function that the statement does not use has no legal site: unless
    it is an output or is inlined, its schedule is never accepted. *)
Theorem unused_function_is_rejected s target :
  function_is_used_in_stmt func s = false ->
  is_inline (store_level (fn_schedule func))
  && is_inline (compute_level (fn_schedule func)) = false ->
  ComputeLegalSchedules.legal_sites func env s <> None ->
  ComputeLegalSchedules.legal_sites func env s = Some [] /\
  validate_schedule func s target false env = UserError.
Proof.
  intros Hunused Hinline Hsites.
  assert (Hnil : ComputeLegalSchedules.legal_sites func env s = Some []).
  { rewrite legal_sites_intersect in *.
    destruct (use_stacks _ _ _ s) as [stacks|] eqn:Hstacks; [|done].
    by rewrite (unused_no_stacks _ _ _ Hunused Hstacks). }
  split; [done|].
  unfold validate_schedule. rewrite Hinline, Hnil.
  destruct (inlined_extern_input func); [done|].
  by destruct (unsupported_device func target).
Qed.

End UnusedFacts.

Section AcceptedFacts.
Context `{Helpers}.

Lemma with_specializations_unfold d :
  with_specializations d
  = d :: flat_map (fun sp => with_specializations sp.2) (def_specializations d).
Proof.
  destruct d as [init args values sched preds specs]. simpl. f_equal.
  induction specs as [|[c sd] specs IH]; [done|]. simpl. by rewrite IH.
Qed.

Lemma elem_of_with_specializations d d' :
  d' ∈ with_specializations d <-> covers d d'.
Proof.
  split.
  - revert d'. induction d as [init args values sched preds specs IH]
                             using Definition_ind'.
    intros d'. rewrite with_specializations_unfold. simpl.
    intros [->|Hin]%elem_of_cons; [constructor|].
    apply list_elem_of_In, in_flat_map in Hin as ([c sd] & Hsp & Hin).
    apply list_elem_of_In in Hsp, Hin.
    rewrite Forall_forall in IH.
    eapply covers_spec; [exact Hsp|]. by apply (IH _ Hsp).
  - induction 1 as [d|d c sd d' Hsp _ IH]; rewrite with_specializations_unfold.
    + left.
    + right. apply list_elem_of_In, in_flat_map. exists (c, sd).
      split; by apply list_elem_of_In.
Qed.

Lemma unsupported_device_false f target :
  unsupported_device f target = false <->
  forall def d, definition_of f def -> d ∈ dims (def_schedule def) ->
                supports_device_api target (dim_device_api d) = true.
Proof.
  unfold unsupported_device, definition_of. split.
  - intros Hnone def d (stage & Hstage & Hcov) Hd.
    destruct (supports_device_api target (dim_device_api d)) eqn:Hsup; [done|].
    assert (Hex : existsb
                    (fun def =>
                       existsb (fun d => negb (supports_device_api
                                                 target (dim_device_api d)))
                               (dims (def_schedule def)))
                    (concat (map with_specializations
                                 (fn_definition f :: fn_updates f))) = true);
      [|by rewrite Hex in Hnone].
    apply existsb_true_iff. exists def. split.
    + apply list_elem_of_In, in_concat. exists (with_specializations stage).
      split; [by apply in_map, list_elem_of_In|].
      by apply list_elem_of_In, elem_of_with_specializations.
    + apply existsb_true_iff. exists d. by rewrite Hsup.
  - intros Hall. apply not_true_is_false.
    intros (def & Hdef & (d & Hd & Hsup)%existsb_true_iff)%existsb_true_iff.
    apply list_elem_of_In, in_concat in Hdef as (l & Hl & Hdef).
    apply in_map_iff in Hl as (stage & <- & Hstage).
    apply list_elem_of_In in Hstage, Hdef.
    apply elem_of_with_specializations in Hdef.
    rewrite (Hall def d) in Hsup; [done| |done]. by exists stage.
Qed.

(** What an accepted schedule guarantees: every dim of every stage and
    of every specialization, at any depth, asks for a device API that the
    target supports; no function passed to an extern definition is
    inlined; an output is stored and computed at root; and an inlined
    function has no specialization. *)
Theorem accepted_schedule f s target is_output env :
  validate_schedule f s target is_output env = Accepted ->
  (forall def d, definition_of f def -> d ∈ dims (def_schedule def) ->
                 supports_device_api target (dim_device_api d) = true) /\
  (forall ext g, fn_extern f = Some ext ->
                 FuncArg g ∈ extern_arguments ext ->
                 is_inline (ref_compute_level g) = false) /\
  (is_output = true ->
   store_level (fn_schedule f) = LoopRoot /\
   compute_level (fn_schedule f) = LoopRoot) /\
  (is_output = false ->
   store_level (fn_schedule f) = LoopInline ->
   compute_level (fn_schedule f) = LoopInline ->
   def_specializations (fn_definition f) = []).
Proof.
  unfold validate_schedule.
  destruct (inlined_extern_input f) eqn:Hext; [done|].
  destruct (unsupported_device f target) eqn:Hdev; [done|].
  intros Hok. split; [by apply unsupported_device_false|]. split; [|split].
  - intros ext g Hf Hg. unfold inlined_extern_input in Hext. rewrite Hf in Hext.
    destruct (is_inline (ref_compute_level g)) eqn:Hinl; [|done].
    assert (Hex : existsb (fun arg => match arg with
                                      | FuncArg g => is_inline (ref_compute_level g)
                                      | _ => false
                                      end) (extern_arguments ext) = true);
      [|by rewrite Hex in Hext].
    apply existsb_true_iff. by exists (FuncArg g).
  - intros ->.
    destruct (store_level (fn_schedule f)), (compute_level (fn_schedule f));
      by simpl in Hok.
  - intros -> Hs Hc. rewrite Hs, Hc in Hok. simpl in Hok.
    by destruct (def_specializations (fn_definition f)).
Qed.

End AcceptedFacts.

Lemma unused_function_is_rejected_witness :
  ComputeLegalSchedules.legal_sites (H := Reference.helpers)
    Examples.g_at_f_x Examples.env_fg Examples.f_alone = Some [] /\
  validate_schedule (H := Reference.helpers) Examples.g_at_f_x Examples.f_alone
                    Examples.target_host false Examples.env_fg = UserError.
Proof.
  apply (unused_function_is_rejected (H := Reference.helpers)
           Examples.g_at_f_x Examples.env_fg Examples.f_alone
           Examples.target_host).
  - reflexivity.
  - reflexivity.
  - vm_compute. discriminate.
Defined.

Lemma accepted_schedule_witness :
  (forall def d, definition_of Examples.f_root def ->
                 d ∈ dims (def_schedule def) ->
                 supports_device_api Examples.target_host (dim_device_api d)
                 = true) /\
  (forall ext g, fn_extern Examples.f_root = Some ext ->
                 FuncArg g ∈ extern_arguments ext ->
                 is_inline (ref_compute_level g) = false) /\
  (true = true ->
   store_level (fn_schedule Examples.f_root) = LoopRoot /\
   compute_level (fn_schedule Examples.f_root) = LoopRoot) /\
  (true = false ->
   store_level (fn_schedule Examples.f_root) = LoopInline ->
   compute_level (fn_schedule Examples.f_root) = LoopInline ->
   def_specializations (fn_definition Examples.f_root) = []).
Proof.
  apply (accepted_schedule (H := Reference.helpers) Examples.f_root
           Examples.f_alone Examples.target_host true Examples.env_fg).
  reflexivity.
Defined.

Section RemovalFacts.
Context `{Helpers}.

Lemma mutate_nothing fuel s :
  stmt_height s <= fuel -> all_nodes no_removable s ->
  RemoveLoopsOverOutermost.mutate fuel s = Some s.
Proof.
  revert s. induction fuel as [|fuel IH]; intros s Hfuel Hclean.
  { destruct s; simpl in Hfuel; lia. }
  apply all_nodes_unfold in Hclean as [Hhere Hchildren].
  destruct s as [n v b|c m|n p b|n mn ex ft api b|n vs args|n ts bs c b|a b
                 |c t [e|]|v]; simpl in Hfuel, Hhere, Hchildren; simpl;
    rewrite ?Forall_cons in Hchildren; try done.
  - rewrite Hhere, IH; [done|lia|tauto].
  - rewrite IH; [done|lia|tauto].
  - rewrite Hhere, IH; [done|lia|tauto].
  - rewrite IH; [done|lia|tauto].
  - rewrite !IH; [done|lia|tauto|lia|tauto].
  - rewrite !IH; [done|lia|tauto|lia|tauto].
  - rewrite IH; [done|lia|tauto].
Qed.

(** The final pass of the driver returns a statement with nothing to
    remove as it is; so running the pass on its own result changes
    nothing. *)
Theorem outermost_removal_is_idempotent s :
  (all_nodes no_removable s -> RemoveLoopsOverOutermost.run s = Some s) /\
  (substitute_keeps_height ->
   exists s', RemoveLoopsOverOutermost.run s = Some s' /\
              RemoveLoopsOverOutermost.run s' = Some s').
Proof.
  unfold RemoveLoopsOverOutermost.run. split.
  - by apply mutate_nothing.
  - intros Hsub.
    destruct (mutate_clean (stmt_height s) s Hsub (le_n _)) as (s' & Hrun & Hclean).
    exists s'. split; [done|]. by apply mutate_nothing.
Qed.

End RemovalFacts.

Lemma outermost_removal_is_idempotent_witness :
  exists s',
    RemoveLoopsOverOutermost.run (H := Reference.helpers)
      Examples.nest_with_outermost = Some s' /\
    RemoveLoopsOverOutermost.run (H := Reference.helpers) s' = Some s'.
Proof.
  apply (outermost_removal_is_idempotent (H := Reference.helpers)
           Examples.nest_with_outermost).
  exact reference_substitute_keeps_height.
Defined.

Section DependenceFacts.
Context `{Helpers}.
Variables (env : gmap string Function) (skip : gmap string bool).

Lemma loop_distinct fuel :
  (forall p def st st',
      InjectGroupRealization.collect_all_dependence_helper
        env fuel skip (child_prefix p) def p st = Some st' ->
      child_prefix p ∉ st.2 -> walk_distinct st ->
      walk_distinct st' /\ st.2 ⊆ st'.2) ->
  forall qs st st',
    foldlM (visit_pair env skip fuel) st qs = Some st' ->
    walk_distinct st -> walk_distinct st' /\ st.2 ⊆ st'.2.
Proof.
  intros Hhelper qs. induction qs as [|q qs IH]; intros st st' Hrun Hst.
  { injection Hrun as <-. done. }
  rewrite foldlM_cons in Hrun.
  destruct (visit_pair env skip fuel st q) as [st1|] eqn:Hq; simpl in Hrun; [|done].
  assert (Hst1 : walk_distinct st1 /\ st.2 ⊆ st1.2).
  { unfold visit_pair in Hq.
    destruct (skip !! func_2 q) as [[|]|]; simpl in Hq; [by injection Hq as <-| |done].
    destruct (env !! func_2 q) as [f|]; [|by injection Hq as <-].
    case_bool_decide as Hvisited; [by injection Hq as <-|].
    destruct (stage_definition f (stage_2 q)) as [def_2|]; simpl in Hq; [|done].
    by eapply Hhelper. }
  destruct Hst1 as [Hst1 Hmono1].
  destruct (IH _ _ Hrun Hst1) as [Hst' Hmono'].
  split; [done|]. by etrans.
Qed.

Lemma helper_distinct fuel p def st st' :
  InjectGroupRealization.collect_all_dependence_helper
    env fuel skip (child_prefix p) def p st = Some st' ->
  child_prefix p ∉ st.2 -> walk_distinct st ->
  walk_distinct st' /\ st.2 ⊆ st'.2.
Proof.
  revert p def st st'. induction fuel as [|fuel IH]; intros p def st st'; [done|].
  rewrite helper_unfold. intros Hrun Hfresh [Hnodup Hvisited].
  apply (loop_distinct fuel IH) in Hrun as [Hst' Hmono].
  - split; [done|]. etrans; [|exact Hmono]. apply union_subseteq_r.
  - split; simpl.
    + rewrite fmap_app. apply NoDup_app. split; [done|]. split.
      * intros x (q & -> & Hq)%list_elem_of_fmap Hx.
        apply list_elem_of_singleton in Hx. apply Hfresh.
        rewrite <- Hx. by apply Hvisited.
      * apply NoDup_singleton.
    + intros q [Hq|Hq]%elem_of_app.
      * apply elem_of_union_r. by apply Hvisited.
      * apply list_elem_of_singleton in Hq as ->.
        apply elem_of_union_l. by apply elem_of_singleton.
Qed.

(** The walk over the fused pairs records a child stage at most once:
    no two recorded pairs name the same child function, stage and var. *)
Theorem dependence_without_repeats def dependence :
  InjectGroupRealization.collect_all_dependence env skip def = Some dependence ->
  NoDup (child_prefix <$> dependence).
Proof.
  rewrite collect_unfold. intros Hrun.
  destruct (foldlM _ _ _) as [st'|] eqn:Hloop; simpl in Hrun; [|done].
  injection Hrun as <-.
  apply (loop_distinct _ (helper_distinct _)) in Hloop as [[Hnodup _] _]; [done|].
  split; simpl; [constructor|]. by intros q Hq%elem_of_nil.
Qed.

End DependenceFacts.

Lemma dependence_without_repeats_witness :
  NoDup (child_prefix <$> [Examples.pair_f_g]).
Proof.
  apply (dependence_without_repeats (H := Reference.helpers)
           Examples.env_group Examples.no_skip
           Examples.twice_fused_def [Examples.pair_f_g]).
  reflexivity.
Defined.

Section UnionKeys.
Context `{Helpers}.
Variables (skip : gmap string bool) (f : Function)
          (bounds : gmap string (option Expr)).

Lemma union_dim_keys pair R d R' k :
  InjectGroupRealization.union_dim bounds (parent_prefix f) pair R d = Some R' ->
  is_Some (R' !! k) ->
  is_Some (R !! k) \/
  exists kind, k = union_var (parent_prefix f) d +:+ bound_suffix kind.
Proof.
  intros (min_1 & max_1 & min_2 & max_2 & _ & _ & _ & _ & ->)%union_dim_inv.
  destruct (decide (k = union_var (parent_prefix f) d +:+ ".loop_extent"))
    as [->|Hext]; [intros _; right; by exists KExtent|].
  rewrite lookup_insert_ne by done.
  destruct (decide (k = union_var (parent_prefix f) d +:+ ".loop_max"))
    as [->|Hmax]; [intros _; right; by exists KMax|].
  rewrite lookup_insert_ne by done.
  destruct (decide (k = union_var (parent_prefix f) d +:+ ".loop_min"))
    as [->|Hmin]; [intros _; right; by exists KMin|].
  rewrite lookup_insert_ne by done. by left.
Qed.

Lemma union_dims_keys pair ds R R' k :
  foldlM (InjectGroupRealization.union_dim bounds (parent_prefix f) pair) R ds
  = Some R' ->
  is_Some (R' !! k) ->
  is_Some (R !! k) \/
  exists d kind, d ∈ ds /\ k = union_var (parent_prefix f) d +:+ bound_suffix kind.
Proof.
  revert R. induction ds as [|d0 ds IH]; intros R Hrun Hk.
  { injection Hrun as <-. by left. }
  rewrite foldlM_cons in Hrun.
  destruct (InjectGroupRealization.union_dim _ _ _ R d0) as [R1|] eqn:Hstep;
    simpl in Hrun; [|done].
  destruct (IH R1 Hrun Hk) as [Hk1|(d & kind & Hd & ->)].
  - destruct (union_dim_keys _ _ _ _ _ Hstep Hk1) as [?|[kind ->]]; [by left|].
    right. exists d0, kind. split; [left|done].
  - right. exists d, kind. split; [by right|done].
Qed.

Lemma fused_dims_subseteq ds idx d : d ∈ fused_dims ds idx -> d ∈ ds.
Proof.
  unfold fused_dims. intros Hd.
  by apply (subseteq_take (length ds - 1)), (subseteq_drop idx).
Qed.

(** The union only ever writes bounds of loops of the parent stage:
    every replacement it returns is named
    [<parent>.s0.<var>.loop_min], [.loop_max] or [.loop_extent] for a dim
    [<var>] of the parent. *)
Theorem union_bounds_only_parent dependence R k :
  InjectGroupRealization.union_bounds skip f bounds dependence = Some R ->
  is_Some (R !! k) -> parent_bound_name f k.
Proof.
  revert R. induction dependence as [|pair deps IH] using rev_ind; intros R.
  { intros [= <-]. rewrite lookup_empty. by intros [? ?]. }
  rewrite union_bounds_snoc.
  destruct (InjectGroupRealization.union_bounds skip f bounds deps) as [R0|];
    simpl; [|done].
  destruct (skip !! func_2 pair) as [[|]|]; simpl; [|..|done].
  { intros [= <-]. by apply IH. }
  destruct (find_dim (parent_dims f) (var_name pair)) as [idx|]; simpl; [|done].
  intros Hrun Hk.
  destruct (union_dims_keys _ _ _ _ _ Hrun Hk) as [Hk0|(d & kind & Hd & ->)].
  - by apply (IH R0).
  - exists d, kind. split; [|done]. by eapply fused_dims_subseteq.
Qed.

End UnionKeys.

Section GroupPipelineFacts.
Context `{Helpers}.
Variables (is_output_list : list bool) (env : gmap string Function) (s : Stmt).

Lemma length_filter_lt {A} (P : A -> Prop) `{forall a, Decision (P a)}
      (l : list A) x :
  x ∈ l -> ~ P x -> length (filter P l) < length l.
Proof.
  intros Hx HP. induction l as [|y l IH]; [by inversion Hx|].
  apply elem_of_cons in Hx as [<-|Hx].
  - rewrite filter_cons_False by done. simpl.
    pose proof (length_filter P l). lia.
  - destruct (decide (P y)).
    + rewrite filter_cons_True by done. simpl. specialize (IH Hx). lia.
    + rewrite filter_cons_False by done. simpl. specialize (IH Hx). lia.
Qed.

(** When no member of the group is used in the statement and none is an
    output, the group injector builds nothing: the statement comes back
    as it is. *)
Theorem group_all_skipped group :
  length group = length is_output_list ->
  (forall g o, (g, o) ∈ zip group is_output_list ->
               function_is_used_in_stmt g s = false /\ o = false) ->
  InjectGroupRealization.build_pipeline_group group is_output_list env s
  = Some s.
Proof.
  intros Hlen Hall. unfold InjectGroupRealization.build_pipeline_group.
  rewrite bool_decide_eq_true_2; [done|].
  unfold InjectGroupRealization.num_skipped.
  rewrite filter_all.
  - rewrite length_zip_with. lia.
  - apply Forall_forall. intros [g o] Hg. simpl.
    destruct (Hall g o Hg) as [-> ->]. done.
Qed.

(** When the first member of the group, its parent, is neither used nor
    an output while another member is, the group injector stops with an
    error. *)
Theorem group_parent_skipped parent rest :
  length (parent :: rest) = length is_output_list ->
  NoDup (fn_name <$> parent :: rest) ->
  function_is_used_in_stmt parent s = false ->
  head is_output_list = Some false ->
  (exists g o, (g, o) ∈ zip (parent :: rest) is_output_list /\
               function_is_used_in_stmt g s || o = true) ->
  InjectGroupRealization.build_pipeline_group
    (parent :: rest) is_output_list env s = None.
Proof.
  intros Hlen Hnodup Hunused Hout (g & o & Hg & Hused).
  unfold InjectGroupRealization.build_pipeline_group.
  rewrite bool_decide_eq_false_2.
  2:{ unfold InjectGroupRealization.num_skipped.
      pose proof (length_filter_lt
                    (fun g : Function * bool =>
                       negb (function_is_used_in_stmt g.1 s || g.2) = true)
                    (zip (parent :: rest) is_output_list) (g, o) Hg) as Hlt.
      rewrite length_zip_with, <- Hlen, Nat.min_id in Hlt.
      apply Nat.lt_neq, Hlt. simpl. by rewrite Hused. }
  simpl.
  assert (Hskip : InjectGroupRealization.skip_mask (parent :: rest)
                    is_output_list s !! fn_name parent = Some true).
  { destruct is_output_list as [|o0 outs]; [done|]. injection Hout as ->.
    unfold InjectGroupRealization.skip_mask.
    pose proof (foldl_insert_lookup
                  (fun g : Function * bool => fn_name g.1)
                  (fun g : Function * bool =>
                     negb (function_is_used_in_stmt g.1 s || g.2))
                  (zip (parent :: rest) (false :: outs)) ∅ (parent, false))
      as Hlookup.
    transitivity (Some (negb (function_is_used_in_stmt parent s || false)));
      [|by rewrite Hunused].
    apply Hlookup; [|left].
    change (NoDup (map (fun g : Function * bool => fn_name g.1)
                       (zip (parent :: rest) (false :: outs)))).
    replace (map (fun g : Function * bool => fn_name g.1)
                 (zip (parent :: rest) (false :: outs)))
      with (fn_name <$> (zip (parent :: rest) (false :: outs)).*1)
      by (by rewrite <- list_fmap_compose).
    rewrite fst_zip; [done|]. rewrite Hlen. done. }
  rewrite Hskip. done.
Qed.

End GroupPipelineFacts.

Lemma union_bounds_only_parent_witness :
  parent_bound_name Examples.f_parent "f.s0.x.loop_extent".
Proof.
  apply (union_bounds_only_parent (H := Reference.helpers) Examples.no_skip
           Examples.f_parent Examples.captured_bounds [Examples.pair_f_g]
           Examples.unioned_bounds "f.s0.x.loop_extent").
  - reflexivity.
  - eexists. vm_compute. reflexivity.
Defined.

Lemma group_all_skipped_witness :
  InjectGroupRealization.build_pipeline_group (H := Reference.helpers)
    [Examples.f_parent; Examples.g_child] [false; false] Examples.env_group
    (Evaluate Examples.zero)
  = Some (Evaluate Examples.zero).
Proof.
  apply (group_all_skipped (H := Reference.helpers) [false; false]
           Examples.env_group (Evaluate Examples.zero)
           [Examples.f_parent; Examples.g_child]).
  - reflexivity.
  - intros g o Hg. simpl in Hg.
    apply elem_of_cons in Hg as [Hg|Hg]; [injection Hg as -> ->; by split|].
    apply elem_of_cons in Hg as [Hg|Hg]; [injection Hg as -> ->; by split|].
    by apply elem_of_nil in Hg.
Defined.

Lemma group_parent_skipped_witness :
  InjectGroupRealization.build_pipeline_group (H := Reference.helpers)
    [Examples.f_parent; Examples.g_child] [false; false] Examples.env_group
    Examples.call_g
  = None.
Proof.
  apply (group_parent_skipped (H := Reference.helpers) [false; false]
           Examples.env_group Examples.call_g Examples.f_parent
           [Examples.g_child]).
  - reflexivity.
  - apply (bool_decide_unpack _). vm_compute. exact I.
  - reflexivity.
  - reflexivity.
  - exists Examples.g_child, false. split; [|reflexivity].
    simpl. right. left.
Defined.

Section FusedGroupFacts.
Variable dim_differs : Dim -> Dim -> bool.
Variable equal : option Expr -> option Expr -> bool.

Lemma and_then_accepted a b :
  and_then a b = Accepted <-> a = Accepted /\ b = Accepted.
Proof. destruct a; simpl; intuition congruence. Qed.

Lemma user_assert_accepted b : user_assert b = Accepted <-> b = true.
Proof. by destruct b. Qed.

Lemma internal_check_accepted b : internal_check b = Accepted <-> b = true.
Proof. by destruct b. Qed.

Lemma for_each_accepted {A} (body : A -> Outcome) l :
  for_each body l = Accepted <-> Forall (fun x => body x = Accepted) l.
Proof.
  induction l as [|x l IH]; simpl.
  - split; [constructor|done].
  - rewrite and_then_accepted, Forall_cons, IH. done.
Qed.

Lemma for_each_zip_accepted {A B} (body : A * B -> Outcome) l k :
  length l = length k /\ for_each body (zip l k) = Accepted <->
  Forall2 (fun a b => body (a, b) = Accepted) l k.
Proof.
  revert k. induction l as [|a l IH]; intros [|b k]; simpl.
  - split; [constructor|done].
  - split; [by intros [? _]|by intros ?%Forall2_nil_cons_inv].
  - split; [by intros [? _]|by intros ?%Forall2_cons_nil_inv].
  - rewrite and_then_accepted, Forall2_cons, <- IH. intuition congruence.
Qed.

Lemma find_if_dim_found ds var i :
  find_if_dim ds var = Some (Some i) <-> find_dim ds var = Some i.
Proof.
  revert i. induction ds as [|d ds IH]; intros i; simpl; [done|].
  destruct (var_name_match (dim_var d) var) as [[|]|]; simpl; [|..|done].
  { split; by intros [= <-]. }
  destruct (find_if_dim ds var) as [[j|]|]; simpl.
  - rewrite (proj1 (IH j) eq_refl). simpl. split; by intros [= <-].
  - destruct (find_dim ds var) as [j|]; [|done].
    discriminate (proj2 (IH j) eq_refl).
  - destruct (find_dim ds var) as [j|]; [|done].
    discriminate (proj2 (IH j) eq_refl).
Qed.

Lemma check_split_pair_accepted s1 s2 :
  check_split_pair equal (s1, s2) = Accepted <-> splits_agree equal s1 s2.
Proof.
  unfold check_split_pair, splits_agree, is_split. simpl.
  rewrite and_then_accepted, user_assert_accepted.
  case_bool_decide as Hty.
  - rewrite user_assert_accepted, negb_true_iff, bool_decide_eq_false.
    intuition.
  - intuition.
Qed.

Lemma check_same_func_dim_accepted f def_1 def_2 d :
  check_same_func_dim equal f def_1 def_2 d = Accepted <->
  same_func_dim_valid equal f def_1 def_2 d.
Proof.
  unfold check_same_func_dim, same_func_dim_valid.
  case_bool_decide as Hpure; [intuition|].
  case_bool_decide as Hrvar; [intuition|].
  rewrite and_then_accepted, user_assert_accepted, bool_decide_eq_true.
  rewrite for_each_zip_accepted.
  split.
  - intros Hall _ _. eapply Forall2_impl; [exact Hall|].
    intros s1 s2. apply check_split_pair_accepted.
  - intros Hall. eapply Forall2_impl; [by apply Hall|].
    intros s1 s2. apply check_split_pair_accepted.
Qed.

Lemma length_fused_dims ds i : length (fused_dims ds i) = length ds - i - 1.
Proof. unfold fused_dims. rewrite length_drop, length_take. lia. Qed.

Lemma check_fused_dims_accepted p f1 def_1 def_2 :
  check_fused_dims dim_differs equal p f1 def_1 def_2 = Accepted <->
  exists i1 i2,
    find_dim (dims (def_schedule def_1)) (var_name p) = Some i1 /\
    find_dim (dims (def_schedule def_2)) (var_name p) = Some i2 /\
    Forall2 (fun a b => dim_differs a b = false)
            (fused_dims (dims (def_schedule def_1)) i1)
            (fused_dims (dims (def_schedule def_2)) i2) /\
    (func_1 p = func_2 p ->
     Forall (same_func_dim_valid equal f1 def_1 def_2)
            (fused_dims (dims (def_schedule def_1)) i1)).
Proof.
  unfold check_fused_dims.
  destruct (find_if_dim (dims (def_schedule def_1)) (var_name p))
    as [[i1|]|] eqn:H1.
  2,3: split; [done|]; intros (i1 & i2 & Hi1 & _);
       apply find_if_dim_found in Hi1; congruence.
  destruct (find_if_dim (dims (def_schedule def_2)) (var_name p))
    as [[i2|]|] eqn:H2.
  2,3: split; [done|]; intros (j1 & i2 & _ & Hi2 & _);
       apply find_if_dim_found in Hi2; congruence.
  apply find_if_dim_found in H1, H2.
  rewrite !and_then_accepted, user_assert_accepted, bool_decide_eq_true.
  rewrite <- !length_fused_dims.
  rewrite (and_assoc (length _ = length _)), for_each_zip_accepted.
  assert (Hdims : forall a b : Dim,
             (if dim_differs a b then UserError else Accepted) = Accepted <->
             dim_differs a b = false) by (intros a b; by destruct (dim_differs a b)).
  assert (Hsame :
            (if String.eqb (func_1 p) (func_2 p)
             then for_each (check_same_func_dim equal f1 def_1 def_2)
                           (fused_dims (dims (def_schedule def_1)) i1)
             else Accepted) = Accepted <->
            (func_1 p = func_2 p ->
             Forall (same_func_dim_valid equal f1 def_1 def_2)
                    (fused_dims (dims (def_schedule def_1)) i1))).
  { destruct (String.eqb_spec (func_1 p) (func_2 p)) as [Heq|Hne].
    - rewrite for_each_accepted. split.
      + intros Hall _. eapply Forall_impl; [exact Hall|].
        intros d. apply check_same_func_dim_accepted.
      + intros Hall. eapply Forall_impl; [by apply Hall|].
        intros d. apply check_same_func_dim_accepted.
    - intuition. }
  rewrite Hsame. split.
  - intros [Hzip Hrest]. exists i1, i2. split; [done|]. split; [done|].
    split; [|done]. eapply Forall2_impl; [exact Hzip|].
    intros a b. apply Hdims.
  - intros (j1 & j2 & Hj1 & Hj2 & Hzip & Hrest).
    rewrite H1 in Hj1. rewrite H2 in Hj2.
    injection Hj1 as <-. injection Hj2 as <-.
    split; [|done]. eapply Forall2_impl; [exact Hzip|].
    intros a b. apply Hdims.
Qed.

Lemma no_extern_iff f :
  negb (has_extern_definition f) = true <-> fn_extern f = None.
Proof.
  unfold has_extern_definition. rewrite negb_true_iff, bool_decide_eq_false.
  destruct (fn_extern f) as [ext|]; split; try done.
  intros Hno. destruct Hno. by eexists.
Qed.

Lemma check_fused_pair_accepted env fn stage def_1 p :
  check_fused_pair dim_differs equal env fn stage def_1 p = Accepted <->
  fn = func_1 p /\ stage = stage_1 p /\
  exists f1, env !! func_1 p = Some f1 /\
             forall f2, env !! func_2 p = Some f2 ->
                        fused_pair_valid dim_differs equal f1 f2 def_1 p.
Proof.
  unfold check_fused_pair.
  rewrite and_then_accepted, internal_check_accepted, andb_true_iff,
    String.eqb_eq, Nat.eqb_eq.
  destruct (env !! func_1 p) as [f1|];
    [|split; [by intros [_ ?]|by intros (_ & _ & ? & ? & _)]].
  destruct (env !! func_2 p) as [f2|].
  2:{ split.
      - intros [[-> ->] _]. split; [done|]. split; [done|]. by exists f1.
      - intros (-> & -> & _). done. }
  assert (Hvalid :
            match stage_definition f2 (stage_2 p) with
            | Some def_2 =>
                and_then
                  (user_assert
                     (bool_decide (def_specializations (fn_definition f2) = [])))
                (and_then (user_assert
                             (negb (is_inline (compute_level (fn_schedule f1)))))
                (and_then (user_assert
                             (negb (is_inline (compute_level (fn_schedule f2)))))
                (and_then (user_assert (negb (has_extern_definition f1)))
                (and_then (user_assert (negb (has_extern_definition f2)))
                (and_then
                   (user_assert
                      (String.eqb (func_1 p) (func_2 p)
                       || bool_decide (compute_level (fn_schedule f1)
                                       = compute_level (fn_schedule f2))))
                   (check_fused_dims dim_differs equal p f1 def_1 def_2))))))
            | None => InternalError
            end = Accepted <->
            fused_pair_valid dim_differs equal f1 f2 def_1 p).
  { unfold fused_pair_valid.
    destruct (stage_definition f2 (stage_2 p)) as [def_2|].
    - rewrite !and_then_accepted, !user_assert_accepted, !no_extern_iff,
        !negb_true_iff, bool_decide_eq_true, orb_true_iff, String.eqb_eq,
        bool_decide_eq_true, check_fused_dims_accepted.
      split.
      + intros (? & ? & ? & ? & ? & ? & i1 & i2 & ? & ? & ? & ?).
        repeat (split; [done|]). by exists def_2, i1, i2.
      + intros (? & ? & ? & ? & ? & ? & d2 & i1 & i2 & [= <-] & ? & ? & ? & ?).
        repeat (split; [done|]). by exists i1, i2.
    - split; [done|]. by intros (_ & _ & _ & _ & _ & _ & ? & ? & ? & ? & _). }
  rewrite Hvalid. split.
  - intros [[-> ->] Hok]. split; [done|]. split; [done|].
    exists f1. split; [done|]. by intros ? [= <-].
  - intros (-> & -> & f & [= <-] & Hok). split; [done|]. by apply Hok.
Qed.

Lemma stage_definition_cases f stage def :
  stage_definition f stage = Some def <->
  (stage = 0 /\ def = fn_definition f) \/
  (exists i, stage = S i /\ fn_updates f !! i = Some def).
Proof.
  destruct stage as [|i]; simpl.
  - split.
    + intros [= <-]. by left.
    + intros [[_ ->]|(i & ? & _)]; done.
  - split.
    + intros Hi. right. by exists i.
    + intros [[? _]|(j & [= <-] & Hj)]; done.
Qed.

(** The fused groups are accepted exactly when every member of every
    group is in the environment and every fused pair of every stage of a
    member names that member and that stage as its parent and, when its
    child is in the environment too, satisfies the rules of
    [compute_with]: the child has no specialization, neither function is
    inlined or extern, both are computed at the same level unless they
    are one function, the var is a dim of both stages, and from that dim
    up to [__outermost] the dims of the two stages agree (for two stages
    of one function, up to the splits that produce them, none of them a
    split with the tail strategy [ShiftInwards]). *)
Theorem fused_groups_accepted fused_groups env :
  validate_fused_groups_schedule dim_differs equal fused_groups env = Accepted <->
  forall group fn,
    group ∈ fused_groups -> fn ∈ group ->
    exists f,
      env !! fn = Some f /\
      forall stage def_1 p,
        stage_definition f stage = Some def_1 ->
        p ∈ fused_pairs (def_schedule def_1) ->
        func_1 p = fn /\ stage_1 p = stage /\
        forall f2, env !! func_2 p = Some f2 ->
                   fused_pair_valid dim_differs equal f f2 def_1 p.
Proof.
  unfold validate_fused_groups_schedule.
  rewrite for_each_accepted, Forall_forall.
  setoid_rewrite for_each_accepted. setoid_rewrite Forall_forall.
  assert (Hhelper : forall fn stage def_1 (f : Function),
             env !! fn = Some f ->
             validate_fused_group_schedule_helper
               dim_differs equal fn stage def_1 env = Accepted <->
             forall p, p ∈ fused_pairs (def_schedule def_1) ->
                       func_1 p = fn /\ stage_1 p = stage /\
                       forall f2, env !! func_2 p = Some f2 ->
                                  fused_pair_valid dim_differs equal f f2 def_1 p).
  { intros fn stage def_1 f Hf. unfold validate_fused_group_schedule_helper.
    rewrite for_each_accepted, Forall_forall.
    split; intros Hall p Hp; specialize (Hall p Hp).
    - apply check_fused_pair_accepted in Hall as (-> & -> & f1 & Hf1 & Hok).
      rewrite Hf in Hf1. injection Hf1 as <-. done.
    - apply check_fused_pair_accepted. destruct Hall as (<- & <- & Hok).
      split; [done|]. split; [done|]. by exists f. }
  split.
  - intros Hall group fn Hgroup Hfn. specialize (Hall group Hgroup fn Hfn).
    destruct (env !! fn) as [f|] eqn:Hf; [|done].
    exists f. split; [done|].
    apply and_then_accepted in Hall as [Hinit Hupdates].
    rewrite for_each_accepted, Forall_forall in Hupdates.
    intros stage def_1 p [[-> ->]|(i & -> & Hi)]%stage_definition_cases Hp.
    + by apply (Hhelper fn 0 (fn_definition f) f Hf).
    + apply (Hhelper fn (S i) def_1 f Hf); [|done].
      apply (Hupdates (i, def_1)). apply elem_of_lookup_imap. eauto.
  - intros Hall group Hgroup fn Hfn.
    destruct (Hall group fn Hgroup Hfn) as (f & Hf & Hok). rewrite Hf.
    apply and_then_accepted. split.
    + apply (Hhelper fn 0 (fn_definition f) f Hf). intros p Hp.
      by apply (Hok 0 (fn_definition f)).
    + rewrite for_each_accepted, Forall_forall.
      intros [i d] (j & d' & [= -> ->] & Hj)%elem_of_lookup_imap. simpl.
      apply (Hhelper fn (S j) d' f Hf). intros p Hp.
      by apply (Hok (S j) d').
Qed.

End FusedGroupFacts.

Section ReportFacts.
Context `{Helpers}.
Variable func : string.

Lemma no_double_ellipsis_snoc l x :
  no_double_ellipsis (l ++ [x])
  = no_double_ellipsis l && negb (ends_in_ellipsis l && is_ellipsis x).
Proof.
  unfold ends_in_ellipsis.
  induction l as [|a l IH]; simpl.
  - by rewrite andb_false_r.
  - rewrite IH. destruct l as [|b l]; simpl.
    + rewrite !andb_true_r. by destruct (is_ellipsis a), (is_ellipsis x).
    + by rewrite andb_assoc.
Qed.

Lemma print_ok l st :
  printer_ok st ->
  (is_ellipsis l = true -> last_print_was_ellipsis st = false) ->
  printer_ok (PrintUsesOfFunc.print l (is_ellipsis l) st).
Proof.
  intros [Hno Hflag] Hl. split; simpl.
  - rewrite no_double_ellipsis_snoc, Hno. simpl.
    destruct (is_ellipsis l); [|by rewrite andb_false_r].
    destruct (ends_in_ellipsis (stream st)); [|done].
    rewrite Hflag in Hl by done. by specialize (Hl eq_refl).
  - unfold ends_in_ellipsis. by rewrite last_snoc.
Qed.

Lemma foldl_preserves {A} (Q : Printer -> Prop) (f : Printer -> A -> Printer) l st :
  Forall (fun a => forall st, Q st -> Q (f st a)) l -> Q st -> Q (foldl f st l).
Proof.
  intros Hl. revert st. induction Hl as [|a l Ha _ IH]; intros st Hst; [done|].
  simpl. by apply IH, Ha.
Qed.

Lemma visit_expr_ok e st :
  printer_ok st -> printer_ok (PrintUsesOfFunc.visit_expr func e st).
Proof.
  revert st. induction e as [| | | |op a b IHa IHb|a IHa|c t f IHc IHt IHf
                             |n v b IHv IHb|t n args ct vi IH]
                     using Expr_ind'; intros st Hst; simpl; auto.
  destruct (String.eqb n func).
  - by apply (print_ok (UsesLine _ _ _)).
  - by apply (foldl_preserves printer_ok).
Qed.

Lemma visit_exprs_ok es st :
  printer_ok st -> printer_ok (PrintUsesOfFunc.visit_exprs func es st).
Proof.
  intros Hst. apply (foldl_preserves printer_ok); [|done].
  apply Forall_forall. intros e _ st'. apply visit_expr_ok.
Qed.

Lemma enter_loop_ok name body st :
  printer_ok st -> printer_ok (PrintUsesOfFunc.enter_loop func name body st).
Proof.
  intros Hst. unfold PrintUsesOfFunc.enter_loop.
  destruct (StmtUsesFunc.visit func body); simpl.
  - by apply (print_ok (ForLine _ _)).
  - destruct (last_print_was_ellipsis st) eqn:Hlast; simpl; [done|].
    by apply (print_ok (Ellipsis _)).
Qed.

Lemma visit_ok s st :
  printer_ok st -> printer_ok (PrintUsesOfFunc.visit func s st).
Proof.
  revert st.
  induction s as [n v b IH|c m|n p b IH|n mn ex ft api b IH|n vs args
                  |n ts bs c b IH|a b IHa IHb|c t IH|c t e IHt IHe|v]
                 using Stmt_ind'; intros st Hst; simpl.
  - by apply IH, visit_expr_ok.
  - by do 2 apply visit_expr_ok.
  - destruct p; [|by apply IH]. by apply (IH (mkPrinter _ _ _ _)).
  - destruct (PrintUsesOfFunc.transparent_loop n).
    + by apply IH; do 2 apply visit_expr_ok.
    + apply (IH (PrintUsesOfFunc.visit_expr func ex _)).
      by do 2 apply visit_expr_ok; apply enter_loop_ok.
  - by do 2 apply visit_exprs_ok.
  - apply IH, visit_expr_ok.
    apply (foldl_preserves printer_ok); [|done].
    apply Forall_forall. intros r _ st' Hst'. by do 2 apply visit_expr_ok.
  - by apply IHb, IHa.
  - by apply IH, visit_expr_ok.
  - by apply IHe, IHt, visit_expr_ok.
  - by apply visit_expr_ok.
Qed.

(** The report never shows two ellipses in a row. *)
Theorem report_never_repeats_ellipsis s :
  no_double_ellipsis (PrintUsesOfFunc.report func s) = true.
Proof.
  unfold PrintUsesOfFunc.report.
  by destruct (visit_ok s (mkPrinter 1 "" false [])) as [Hno _].
Qed.

Lemma foldl_uses {A} (f : Printer -> A -> Printer) (u : A -> bool) l st :
  Forall (fun a => forall st,
              existsb is_uses (stream (f st a))
              = existsb is_uses (stream st) || u a) l ->
  existsb is_uses (stream (foldl f st l))
  = existsb is_uses (stream st) || existsb u l.
Proof.
  intros Hl. revert st. induction Hl as [|a l Ha _ IH]; intros st; simpl.
  - by rewrite orb_false_r.
  - by rewrite IH, Ha, orb_assoc.
Qed.

Lemma visit_expr_uses e st :
  existsb is_uses (stream (PrintUsesOfFunc.visit_expr func e st))
  = existsb is_uses (stream st) || StmtUsesFunc.visit_expr func e.
Proof.
  revert st. induction e as [| | | |op a b IHa IHb|a IHa|c t f IHc IHt IHf
                             |n v b IHv IHb|t n args ct vi IH]
                     using Expr_ind'; intros st; simpl;
    rewrite ?orb_false_r; try done.
  - by rewrite IHb, IHa, orb_assoc.
  - by rewrite IHf, IHt, IHc, !orb_assoc.
  - by rewrite IHb, IHv, orb_assoc.
  - destruct (String.eqb n func); simpl.
    + rewrite existsb_app. simpl. by rewrite !orb_true_r.
    + by apply foldl_uses.
Qed.

Lemma visit_exprs_uses es st :
  existsb is_uses (stream (PrintUsesOfFunc.visit_exprs func es st))
  = existsb is_uses (stream st) || existsb (StmtUsesFunc.visit_expr func) es.
Proof.
  apply foldl_uses, Forall_forall. intros e _ st'. apply visit_expr_uses.
Qed.

Lemma enter_loop_uses name body st :
  existsb is_uses (stream (PrintUsesOfFunc.enter_loop func name body st))
  = existsb is_uses (stream st).
Proof.
  unfold PrintUsesOfFunc.enter_loop.
  destruct (StmtUsesFunc.visit func body); simpl.
  - rewrite existsb_app. simpl. by rewrite orb_false_r.
  - destruct (last_print_was_ellipsis st); simpl; [done|].
    rewrite existsb_app. simpl. by rewrite orb_false_r.
Qed.

Lemma visit_uses s st :
  existsb is_uses (stream (PrintUsesOfFunc.visit func s st))
  = existsb is_uses (stream st) || StmtUsesFunc.visit func s.
Proof.
  revert st.
  induction s as [n v b IH|c m|n p b IH|n mn ex ft api b IH|n vs args
                  |n ts bs c b IH|a b IHa IHb|c t IH|c t e IHt IHe|v]
                 using Stmt_ind'; intros st; simpl.
  - by rewrite IH, visit_expr_uses, orb_assoc.
  - by rewrite !visit_expr_uses, orb_assoc.
  - destruct p; simpl; by rewrite IH.
  - destruct (PrintUsesOfFunc.transparent_loop n); simpl;
      rewrite IH, !visit_expr_uses, ?enter_loop_uses; by rewrite !orb_assoc.
  - by rewrite !visit_exprs_uses, orb_assoc.
  - rewrite IH, visit_expr_uses.
    rewrite (foldl_uses _ (fun r : Expr * Expr =>
                             StmtUsesFunc.visit_expr func r.1
                             || StmtUsesFunc.visit_expr func r.2)).
    + by rewrite !orb_assoc.
    + apply Forall_forall. intros r _ st'.
      by rewrite !visit_expr_uses, orb_assoc.
  - by rewrite IHb, IHa, orb_assoc.
  - by rewrite IH, visit_expr_uses, orb_false_r, orb_assoc.
  - by rewrite IHe, IHt, visit_expr_uses, !orb_assoc.
  - apply visit_expr_uses.
Qed.

Lemma foldl_for_lines {A} (f : Printer -> A -> Printer) l st x :
  Forall (fun a => forall st, x ∈ stream (f st a) -> x ∈ stream st) l ->
  x ∈ stream (foldl f st l) -> x ∈ stream st.
Proof.
  intros Hl. revert st. induction Hl as [|a l Ha _ IH]; intros st; [done|].
  simpl. intros Hx. by apply Ha, IH.
Qed.

Lemma visit_expr_for_lines e st i name :
  ForLine i name ∈ stream (PrintUsesOfFunc.visit_expr func e st) ->
  ForLine i name ∈ stream st.
Proof.
  revert st. induction e as [| | | |op a b IHa IHb|a IHa|c t f IHc IHt IHf
                             |n v b IHv IHb|t n args ct vi IH]
                     using Expr_ind'; intros st; simpl; auto.
  destruct (String.eqb n func); simpl.
  - intros [Hin|Hin]%elem_of_app; [done|].
    by apply list_elem_of_singleton in Hin.
  - by apply foldl_for_lines.
Qed.

Lemma reported_loop_child name c s :
  c ∈ stmt_children s -> reported_loop func name c -> reported_loop func name s.
Proof.
  intros Hc (mn & ex & ft & api & body & Hsub & Hrest).
  exists mn, ex, ft, api, body. split; [|done]. by eapply substmt_child.
Qed.

Lemma visit_for_lines s st i name :
  ForLine i name ∈ stream (PrintUsesOfFunc.visit func s st) ->
  ForLine i name ∈ stream st \/ reported_loop func name s.
Proof.
  revert st.
  induction s as [n v b IH|c m|n p b IH|n mn ex ft api b IH|n vs args
                  |n ts bs c b IH|a b IHa IHb|c t IH|c t e IHt IHe|v]
                 using Stmt_ind'; intros st; simpl.
  - intros [Hin|Hloop]%IH.
    + left. by eapply visit_expr_for_lines.
    + right. eapply reported_loop_child; [|done]. left.
  - intros Hin. left. by do 2 eapply visit_expr_for_lines.
  - destruct p; simpl; intros [Hin|Hloop]%IH; auto;
      right; (eapply reported_loop_child; [|done]); left.
  - destruct (PrintUsesOfFunc.transparent_loop n) eqn:Htransparent; simpl.
    + intros [Hin|Hloop]%IH.
      * left. by do 2 eapply visit_expr_for_lines.
      * right. eapply reported_loop_child; [|done]. left.
    + intros [Hin|Hloop]%IH.
      * do 2 apply visit_expr_for_lines in Hin.
        unfold PrintUsesOfFunc.enter_loop in Hin.
        destruct (StmtUsesFunc.visit func b) eqn:Huses; simpl in Hin.
        -- apply elem_of_app in Hin as [Hin|Hin]; [by left|].
           apply list_elem_of_singleton in Hin. injection Hin as -> ->.
           right. exists mn, ex, ft, api, b. split; [constructor|done].
        -- destruct (last_print_was_ellipsis st); simpl in Hin; [by left|].
           apply elem_of_app in Hin as [Hin|Hin]; [by left|].
           by apply list_elem_of_singleton in Hin.
      * right. eapply reported_loop_child; [|done]. left.
  - intros Hin. left.
    unfold PrintUsesOfFunc.visit_exprs in Hin.
    do 2 (apply foldl_for_lines in Hin;
          [|apply Forall_forall; intros e _ st'; apply visit_expr_for_lines]).
    done.
  - intros [Hin|Hloop]%IH.
    + left. apply visit_expr_for_lines in Hin.
      apply foldl_for_lines in Hin; [done|].
      apply Forall_forall. intros r _ st' Hr.
      by do 2 apply visit_expr_for_lines in Hr.
    + right. eapply reported_loop_child; [|done]. left.
  - intros [[Hin|Hloop]%IHa|Hloop]%IHb; [by left|right..].
    + eapply reported_loop_child; [|done]. left.
    + eapply reported_loop_child; [|done]. right; left.
  - intros [Hin|Hloop]%IH.
    + left. by eapply visit_expr_for_lines.
    + right. eapply reported_loop_child; [|done]. left.
  - intros [[Hin|Hloop]%IHt|Hloop]%IHe.
    + left. by eapply visit_expr_for_lines.
    + right. eapply reported_loop_child; [|done]. left.
    + right. eapply reported_loop_child; [|done]. right; left.
  - intros Hin. left. by eapply visit_expr_for_lines.
Qed.

(** The report names a use exactly when the statement calls the
    function, and it names a loop only if that loop is not a loop over
    [__outermost] or root and its body calls the function. *)
Theorem report_names_uses s :
  existsb is_uses (PrintUsesOfFunc.report func s) = StmtUsesFunc.visit func s /\
  (forall i name, ForLine i name ∈ PrintUsesOfFunc.report func s ->
                  reported_loop func name s).
Proof.
  unfold PrintUsesOfFunc.report. split.
  - by rewrite visit_uses.
  - intros i name [Hin|Hloop]%visit_for_lines; [|done].
    by apply elem_of_nil in Hin.
Qed.

Lemma stmt_uses_expr_is_use e :
  StmtUsesFunc.visit_expr func e = true ->
  IsUsedInStmt.visit_expr func e = true.
Proof.
  induction e as [| | | |op a b IHa IHb|a IHa|c t f IHc IHt IHf
                  |n v b IHv IHb|t n args ct vi IH]
                 using Expr_ind'; simpl; try done.
  - intros [?|?]%orb_true_iff; apply orb_true_iff; auto.
  - intros [[?|?]%orb_true_iff|?]%orb_true_iff; rewrite !orb_true_iff; auto.
  - intros [?|?]%orb_true_iff; apply orb_true_iff; auto.
  - intros [->|Hargs]%orb_true_iff; [apply orb_true_r|].
    apply orb_true_iff. left.
    apply existsb_true_iff in Hargs as (a & Ha & Huse).
    apply existsb_true_iff. exists a. split; [done|].
    rewrite Forall_forall in IH. by apply IH.
Qed.

End ReportFacts.

Section UsesVersusUse.

Lemma existsb_impl {A} (f g : A -> bool) l :
  (forall a, f a = true -> g a = true) ->
  existsb f l = true -> existsb g l = true.
Proof.
  intros Hfg (a & Ha & Hf)%existsb_true_iff.
  apply existsb_true_iff. exists a. auto.
Qed.

(** Every statement in which [StmtUsesFunc] finds a call of the function
    is a use for [IsUsedInStmt]; a reference to one of the function's
    buffers is a use only for the latter. *)
Theorem stmt_uses_func_is_use (f : Function) s :
  (StmtUsesFunc.visit (fn_name f) s = true ->
   function_is_used_in_stmt f s = true) /\
  (StmtUsesFunc.visit (fn_name f)
     (Evaluate (Variable_ Handle_ (fn_name f +:+ ".buffer"))) = false /\
   function_is_used_in_stmt f
     (Evaluate (Variable_ Handle_ (fn_name f +:+ ".buffer"))) = true).
Proof.
  split.
  - unfold function_is_used_in_stmt.
    pose proof (stmt_uses_expr_is_use (fn_name f)) as Hexpr.
    induction s as [n v b IH|c m|n p b IH|n mn ex ft api b IH|n vs args
                    |n ts bs c b IH|a b IHa IHb|c t IH|c t e IHt IHe|v]
                   using Stmt_ind'; simpl; rewrite ?orb_true_iff; auto.
    + intros [?|?]; auto.
    + intros [?|?]; auto.
    + intros [[?|?]|?]; auto.
    + intros [?|?]; [left|right]; by eapply existsb_impl.
    + intros [[?|?]|?]; auto. left. left.
      eapply existsb_impl; [|done]. intros r. rewrite !orb_true_iff.
      intros [?|?]; auto.
    + intros [?|?]; auto.
    + intros [[?|?]|?]; auto.
    + intros [[?|?]|?]; auto.
  - split; [done|]. unfold function_is_used_in_stmt. simpl.
    unfold is_buffer_of. simpl.
    assert (Hstart : forall a b, Str.starts_with (a +:+ b) a = true).
    { intros a b. induction a as [|c a IH]; [by destruct b|].
      rewrite StrFacts2.append_cons. simpl. by rewrite Ascii.eqb_refl, IH. }
    assert (Hbuf : fn_name f +:+ ".buffer"
                   = (fn_name f +:+ ".") +:+ "buffer")
      by (by rewrite StrFacts2.append_assoc).
    rewrite Hbuf at 1. rewrite Hstart. simpl.
    apply NameFacts.ends_with_iff. by exists (fn_name f).
Qed.

End UsesVersusUse.

(* ===================================================================== *)
(** ** The driver *)

Lemma elem_of_rev_iff {A} (x : A) (l : list A) : x ∈ rev l <-> x ∈ l.
Proof. rewrite !list_elem_of_In. symmetry. apply in_rev. Qed.

Section DriverFacts.
Context `{Helpers}.
Variable same_as : Function -> Function -> bool.
Variable inline_function : Stmt -> Function -> Stmt.
Variable dim_differs : Dim -> Dim -> bool.
Variable equal : option Expr -> option Expr -> bool.
Variables (outputs : list Function) (env : gmap string Function)
          (target : Target).

(** Some member of the list is memoized. *)
Let memoized_in (l : list string) : Prop :=
  exists fn f, fn ∈ l /\ env !! fn = Some f /\ memoized (fn_schedule f) = true.

Lemma collect_fold s l acc r :
  foldlM (fun (acc : list (Function * bool) * bool) (name : string) =>
            f ← env !! name;
            let is_output := existsb (fun o => same_as o f) outputs in
            match validate_schedule f s target is_output env with
            | Accepted =>
                Some ((f, is_output) :: acc.1,
                      acc.2 || memoized (fn_schedule f))
            | _ => None
            end) acc l = Some r ->
  (r.2 = true <-> acc.2 = true \/ memoized_in l) /\
  (forall fn, fn ∈ l -> is_Some (env !! fn)) /\
  length r.1 = length acc.1 + length l.
Proof.
  revert acc. induction l as [|name l IH]; intros acc; simpl.
  - intros [= <-]. split_and!.
    + split; [by left|]. intros [?|(fn & f & Hin & _)]; [done|].
      by apply elem_of_nil in Hin.
    + intros fn Hin. by apply elem_of_nil in Hin.
    + lia.
  - destruct (env !! name) as [f|] eqn:Hf; simpl; [|done].
    destruct (validate_schedule _ _ _ _ _); simpl; try done.
    intros Hr. destruct (IH _ Hr) as (Hm & Hin & Hlen). simpl in *.
    split_and!.
    + rewrite Hm, orb_true_iff. split.
      * intros [[?|Hmem]|(fn & g & Hfn & Hg & Hmem)].
        -- by left.
        -- right. exists name, f. split_and!; [left|done|done].
        -- right. exists fn, g. split_and!; [by right|done|done].
      * intros [?|(fn & g & Hfn & Hg & Hmem)]; [by left; left|].
        apply elem_of_cons in Hfn as [->|Hfn].
        -- left. right. congruence.
        -- right. by exists fn, g.
    + intros fn [->|Hfn]%elem_of_cons; [by rewrite Hf|by apply Hin].
    + lia.
Qed.

Lemma collect_group_spec s group m0 members m :
  collect_group same_as outputs env target s group m0 = Some (members, m) ->
  (m = true <-> m0 = true \/ memoized_in group) /\
  (forall fn, fn ∈ group -> is_Some (env !! fn)) /\
  length members = length group.
Proof.
  intros Hc. apply collect_fold in Hc as (Hm & Hin & Hlen). simpl in *.
  rewrite length_rev in Hlen. split_and!; [|
    by intros fn Hfn; apply Hin, (proj2 (elem_of_rev_iff _ _))|done].
  rewrite Hm. split; (intros [?|(fn & f & Hfn & ?)]; [by left|]);
    right; exists fn, f; (split; [|done]).
  - by apply (proj1 (elem_of_rev_iff _ _)).
  - by apply (proj2 (elem_of_rev_iff _ _)).
Qed.

Lemma found_both_fst r s : found_both r = Some s -> s = r.1.
Proof.
  unfold found_both, internal_assert.
  destruct (_ && _); simpl; [by intros [= <-]|done].
Qed.

Lemma inject_realization_keeps_loop f is_output s st r :
  serial_loop s ->
  InjectRealization.mutate f is_output target env s st = Some r ->
  serial_loop r.1.
Proof.
  intros (name & mn & ex & api & body & ->). simpl.
  assert (InjectRealization.extern_in_vector_loop f Serial
            (For name mn ex Serial api body) = false) as ->.
  { unfold InjectRealization.extern_in_vector_loop.
    destruct (has_extern_definition f), (is_inline _); done. }
  match goal with
  | |- context [(?g body ≫= _)] => destruct (g body) as [r'|]
  end; simpl; [|done].
  intros [= <-]. simpl. by eexists _, _, _, _, _.
Qed.

Lemma inject_group_keeps_loop group flags s r :
  serial_loop s ->
  InjectGroupRealization.inject group flags target env s = Some r ->
  serial_loop r.1.
Proof.
  intros (name & mn & ex & api & body & ->).
  unfold InjectGroupRealization.inject, internal_assert.
  destruct (bool_decide (group ≠ [])); simpl; [|done].
  destruct (bool_decide (length group = length flags)); simpl; [|done].
  destruct (negb _); simpl; [|done].
  match goal with
  | |- context [(?g body ≫= _)] => destruct (g body) as [r'|]
  end; simpl; [|done].
  intros [= <-]. simpl. by eexists _, _, _, _, _.
Qed.

Lemma schedule_group_spec s m0 group s' m :
  schedule_group same_as inline_function outputs env target (s, m0) group
  = Some (s', m) ->
  (m = true <-> m0 = true \/ memoized_in group) /\
  group <> [] /\
  (forall fn, fn ∈ group -> is_Some (env !! fn)) /\
  (inline_keeps_loops inline_function -> serial_loop s -> serial_loop s').
Proof.
  unfold schedule_group.
  destruct (collect_group same_as outputs env target s group m0)
    as [[members m1]|] eqn:Hc; simpl;
    [|done].
  apply collect_group_spec in Hc as (Hm & Hin & Hlen).
  destruct members as [|first members]; simpl; [done|].
  intros Hs.
  assert (m = m1 /\
          (inline_keeps_loops inline_function -> serial_loop s ->
           serial_loop s')) as [-> Hloop].
  { destruct (_ && _) in Hs.
    - destruct (_ && _) in Hs; simpl in Hs.
      + injection Hs as <- <-. split; [done|].
        intros Hinl (name & mn & ex & api & body & ->).
        destruct (Hinl name mn ex Serial api body first.1)
          as (mn' & ex' & body' & ->).
        by eexists _, _, _, _, _.
      + destruct (InjectRealization.mutate _ _ _ _ _ _) as [r|] eqn:Hr;
          simpl in Hs; [|done].
        destruct (found_both r) as [s1|] eqn:Hf; simpl in Hs; [|done].
        injection Hs as <- <-. split; [done|]. intros _ Hser.
        apply found_both_fst in Hf as ->.
        by eapply inject_realization_keeps_loop.
    - destruct (InjectGroupRealization.inject _ _ _ _ _) as [r|] eqn:Hr;
        simpl in Hs; [|done].
      destruct (found_both r) as [s1|] eqn:Hf; simpl in Hs; [|done].
      injection Hs as <- <-. split; [done|]. intros _ Hser.
      apply found_both_fst in Hf as ->.
      by eapply inject_group_keeps_loop. }
  split_and!; [done| |done|done].
  intros ->. simpl in Hlen. lia.
Qed.

Lemma schedule_fold l s m0 s' m :
  foldlM (schedule_group same_as inline_function outputs env target)
         (s, m0) l = Some (s', m) ->
  (m = true <-> m0 = true \/ exists group, group ∈ l /\ memoized_in group) /\
  (forall group, group ∈ l ->
     group <> [] /\ forall fn, fn ∈ group -> is_Some (env !! fn)) /\
  (inline_keeps_loops inline_function -> serial_loop s -> serial_loop s').
Proof.
  revert s m0. induction l as [|group l IH]; intros s m0; cbn [foldlM].
  - intros [= <- <-]. split_and!; [|by intros ? ?%elem_of_nil|done].
    split; [by left|]. intros [?|(g & Hg%elem_of_nil & _)]; done.
  - destruct (schedule_group same_as inline_function outputs env target
              (s, m0) group) as [[s1 m1]|] eqn:Hg; simpl;
      [|done].
    intros Hl. apply schedule_group_spec in Hg as (Hm1 & Hne & Hin & Hloop1).
    destruct (IH _ _ Hl) as (Hm & Hall & Hloop).
    split_and!.
    + rewrite Hm, Hm1. split.
      * intros [[?|Hmem]|(g & Hgl & Hmem)]; [by left| |].
        -- right. exists group. split; [left|done].
        -- right. exists g. split; [by right|done].
      * intros [?|(g & [->|Hgl]%elem_of_cons & Hmem)];
          [by left; left|by left; right|].
        right. by exists g.
    + intros g [->|Hgl]%elem_of_cons; [done|by apply Hall].
    + intros Hinl Hser. by apply Hloop, Hloop1.
Qed.

Lemma schedule_groups_spec fused_groups s m :
  schedule_groups same_as inline_function outputs env target fused_groups = Some (s, m) ->
  (m = true <-> exists group, group ∈ fused_groups /\ memoized_in group) /\
  (forall group, group ∈ fused_groups ->
     group <> [] /\ forall fn, fn ∈ group -> is_Some (env !! fn)) /\
  (inline_keeps_loops inline_function -> serial_loop s).
Proof.
  intros Hs. apply schedule_fold in Hs as (Hm & Hall & Hloop).
  split_and!.
  - rewrite Hm. split.
    + intros [?|(g & Hg & Hmem)]; [done|].
      exists g. split; [by apply (proj1 (elem_of_rev_iff _ _))|done].
    + intros (g & Hg & Hmem). right. exists g.
      split; [by apply (proj2 (elem_of_rev_iff _ _))|done].
  - intros g Hg. by apply Hall, (proj2 (elem_of_rev_iff _ _)).
  - intros Hinl. apply Hloop; [done|]. by eexists _, _, _, _, _.
Qed.

(** The flag [any_memoized] returned by [schedule_functions] is set
    exactly when some member of some fused group is a memoized function
    of the environment; and the pass returns only if no group is empty
    and every member of every group is in the environment. *)
Theorem schedule_functions_any_memoized fused_groups s any_memoized :
  schedule_functions same_as inline_function dim_differs equal outputs env
    target fused_groups = Some (s, any_memoized) ->
  (any_memoized = true <->
   exists group fn f,
     group ∈ fused_groups /\ fn ∈ group /\ env !! fn = Some f /\
     memoized (fn_schedule f) = true) /\
  (forall group, group ∈ fused_groups ->
     group <> [] /\ forall fn, fn ∈ group -> is_Some (env !! fn)).
Proof.
  unfold schedule_functions.
  destruct (validate_fused_groups_schedule _ _ _ _); try done.
  destruct (schedule_groups same_as inline_function outputs env target
            fused_groups) as [[s1 m1]|] eqn:Hg; simpl;
    [|done].
  destruct (strip_root_and_outermost s1) as [s2|]; simpl; [|done].
  intros [= <- <-].
  apply schedule_groups_spec in Hg as (Hm & Hall & _).
  split; [|done]. rewrite Hm. split.
  - intros (g & Hg & fn & f & Hfn & Hf & Hmem). by exists g, fn, f.
  - intros (g & fn & f & Hg & Hfn & Hf & Hmem). exists g.
    split; [done|]. by exists fn, f.
Qed.

(** Once the fused groups are validated and every group is scheduled, the
    pass returns: the statement is still a loop when the loop over root
    is taken off, the last pass terminates, and what is returned has no
    removable loop over [__outermost] and no binding of its bounds. *)
Theorem schedule_functions_returns fused_groups r :
  inline_keeps_loops inline_function ->
  substitute_keeps_height ->
  validate_fused_groups_schedule dim_differs equal fused_groups env
  = Accepted ->
  schedule_groups same_as inline_function outputs env target fused_groups
  = Some r ->
  serial_loop r.1 /\
  exists s,
    schedule_functions same_as inline_function dim_differs equal outputs env
      target fused_groups = Some (s, r.2) /\
    all_nodes no_removable s.
Proof.
  intros Hinl Hsub Hv Hg. destruct r as [s1 m1].
  unfold schedule_functions. rewrite Hv, Hg. simpl.
  apply schedule_groups_spec in Hg as (_ & _ & Hloop).
  specialize (Hloop Hinl). split; [done|].
  destruct Hloop as (name & mn & ex & api & body & ->). simpl.
  destruct (mutate_clean (stmt_height body) body Hsub (Nat.le_refl _))
    as (s & Hs & Hclean).
  exists s. unfold RemoveLoopsOverOutermost.run. by rewrite Hs.
Qed.

End DriverFacts.

Lemma schedule_functions_any_memoized_witness :
  (true = true <->
   exists group fn f,
     group ∈ [["g"]; ["f"]] /\ fn ∈ group /\
     Examples.env_pipeline !! fn = Some f /\
     memoized (fn_schedule f) = true) /\
  (forall group, group ∈ [["g"]; ["f"]] ->
     group <> [] /\
     forall fn, fn ∈ group -> is_Some (Examples.env_pipeline !! fn)).
Proof.
  eapply (schedule_functions_any_memoized (H := Reference.helpers)
            Examples.same_name Examples.no_inlining
            (fun _ _ => false) (fun _ _ => true)
            [Examples.f_calling_g] Examples.env_pipeline
            Examples.target_host [["g"]; ["f"]]).
  vm_compute. reflexivity.
Defined.

Lemma schedule_functions_returns_witness :
  serial_loop Examples.pipeline_rooted /\
  exists s,
    schedule_functions (H := Reference.helpers)
      Examples.same_name Examples.no_inlining
      (fun _ _ => false) (fun _ _ => true)
      [Examples.f_calling_g] Examples.env_pipeline
      Examples.target_host [["g"]; ["f"]] = Some (s, true) /\
    all_nodes (no_removable (H := Reference.helpers)) s.
Proof.
  apply (schedule_functions_returns (H := Reference.helpers)
           Examples.same_name Examples.no_inlining
           (fun _ _ => false) (fun _ _ => true)
           [Examples.f_calling_g] Examples.env_pipeline
           Examples.target_host [["g"]; ["f"]]
           (Examples.pipeline_rooted, true)).
  - intros name mn ex ft api body f. by exists mn, ex, body.
  - exact reference_substitute_keeps_height.
  - vm_compute. reflexivity.
  - vm_compute. reflexivity.
Defined.

(* ===================================================================== *)
(** ** The extern stage *)

Section ExternStage.
Context `{Helpers}.

Lemma substmt_inv t s :
  substmt t s <-> t = s \/ exists c, c ∈ stmt_children s /\ substmt t c.
Proof.
  split.
  - intros Hsub. inversion Hsub as [|? c ? Hc Ht]; subst; [by left|].
    right. by exists c.
  - intros [->|(c & Hc & Ht)]; [constructor|by econstructor].
Qed.

Lemma substmt_Block t a b :
  substmt t (Block a b) <-> t = Block a b \/ substmt t a \/ substmt t b.
Proof.
  rewrite substmt_inv. simpl. split.
  - intros [?|(c & Hc & Ht)]; [by left|]. right.
    apply elem_of_cons in Hc as [->|Hc]; [by left|].
    apply list_elem_of_singleton in Hc as ->. by right.
  - intros [?|[Ht|Ht]]; [by left| |]; right.
    + exists a. split; [left|done].
    + exists b. split; [right; left|done].
Qed.

Lemma substmt_Evaluate t v : substmt t (Evaluate v) <-> t = Evaluate v.
Proof.
  rewrite substmt_inv. simpl. split; [|by left].
  intros [?|(c & Hc%elem_of_nil & _)]; done.
Qed.

(** The evaluations of a chain of marks. *)
Lemma marks_evaluated (mark : Expr -> Expr) l acc v :
  (exists a, foldl (fun acc buffer => append_stmt acc (Evaluate (mark buffer)))
                   acc l = Some a /\ substmt (Evaluate v) a) <->
  (exists a, acc = Some a /\ substmt (Evaluate v) a) \/
  (exists buffer, buffer ∈ l /\ v = mark buffer).
Proof.
  revert acc. induction l as [|b l IH]; intros acc; simpl.
  - split; [by left|]. intros [?|(b & Hb%elem_of_nil & _)]; done.
  - rewrite IH. split.
    + intros [(a & Ha & Hsub)|(b' & Hb' & ->)].
      * destruct acc as [a0|]; simpl in Ha; injection Ha as <-.
        -- apply substmt_Block in Hsub as [?|[Hsub|Hsub]]; [done| |].
           ++ left. by exists a0.
           ++ apply substmt_Evaluate in Hsub as [= ->].
              right. exists b. split; [left|done].
        -- apply substmt_Evaluate in Hsub as [= ->].
           right. exists b. split; [left|done].
      * right. exists b'. split; [by right|done].
    + intros [(a & -> & Hsub)|(b' & [->|Hb']%elem_of_cons & ->)].
      * left. eexists. split; [done|]. simpl.
        apply substmt_Block. by right; left.
      * left. destruct acc as [a0|]; simpl; eexists; (split; [done|]).
        -- apply substmt_Block. right; right. constructor.
        -- constructor.
      * right. by exists b'.
Qed.

Lemma lets_evaluate_nothing lets body v :
  ~ substmt (Evaluate v) body ->
  ~ substmt (Evaluate v) (wrap_lets_forward lets body).
Proof.
  unfold wrap_lets_forward. revert body.
  induction lets as [|l lets IH]; intros body Hbody; simpl; [done|].
  apply IH. rewrite substmt_inv. simpl.
  intros [?|(c & ->%list_elem_of_singleton & Hc)]; done.
Qed.

Lemma input_buffers_spec ext buffer :
  buffer ∈ concat (map (fun p : list Expr * list Expr * list Expr => p.1.2)
                       (map extern_arg (extern_arguments ext))) <->
  is_input_buffer ext buffer.
Proof.
  unfold is_input_buffer.
  induction (extern_arguments ext) as [|arg args IH]; simpl.
  - split; [by intros ?%elem_of_nil|].
    by intros (arg & ?%elem_of_nil & _).
  - rewrite elem_of_app, IH. clear IH. split.
    + intros [Hin|(arg' & Harg' & Hb)].
      * exists arg. split; [left|].
        destruct arg as [e|input|b|p]; simpl in Hin.
        -- by apply elem_of_nil in Hin.
        -- apply list_elem_of_In, in_map_iff in Hin as (k & <- & Hk).
           apply in_seq in Hk. exists k. split; [lia|done].
        -- by apply list_elem_of_singleton in Hin.
        -- by apply elem_of_nil in Hin.
      * exists arg'. split; [by right|done].
    + intros (arg' & [->|Harg']%elem_of_cons & Hb).
      * left. destruct arg as [e|input|b|p]; simpl; try done.
        -- destruct Hb as (k & Hk & ->).
           apply list_elem_of_In, in_map_iff. exists k.
           split; [done|]. apply in_seq. lia.
        -- subst. left.
      * right. by exists arg'.
Qed.

Lemma contents_are_inputs ext :
  concat (map (fun p : list Expr * list Expr * list Expr => p.2)
              (map extern_arg (extern_arguments ext)))
  = concat (map (fun p : list Expr * list Expr * list Expr => p.1.2)
                (map extern_arg (extern_arguments ext))).
Proof.
  induction (extern_arguments ext) as [|arg args IH]; simpl; [done|].
  rewrite IH. by destruct arg.
Qed.

Lemma tmp_buffer_name f j t :
  (tmp_buffer f j t).1 = fn_name f +:+ "." +:+ Str.to_string j +:+ ".tmp_buffer".
Proof. done. Qed.

Lemma output_buffers_spec f buffer :
  buffer ∈ (if bool_decide (store_level (fn_schedule f)
                            = compute_level (fn_schedule f))
            then (map (fun j => Variable_ Handle_
                                  (buffer_name (fn_name f) (fn_outputs f) j))
                      (seq 0 (fn_outputs f)), [])
            else let tmps := imap (tmp_buffer f) (fn_output_types f) in
                 (map (fun l : string * Expr => Variable_ Handle_ l.1) tmps,
                  tmps)).1 <->
  is_output_buffer f buffer.
Proof.
  unfold is_output_buffer.
  destruct (bool_decide _); simpl.
  - rewrite list_elem_of_In, in_map_iff. split.
    + intros (j & <- & Hj%in_seq). exists j. split; [lia|done].
    + intros (j & Hj & ->). exists j. split; [done|]. apply in_seq. lia.
  - rewrite list_elem_of_fmap. split.
    + intros ([name e] & -> & Hin).
      apply elem_of_lookup_imap in Hin as (j & t & Heq & Hj).
      exists j. split; [by apply lookup_lt_Some in Hj|].
      simpl. by rewrite <- (tmp_buffer_name f j t), <- Heq.
    + intros (j & Hj & ->).
      destruct (lookup_lt_is_Some_2 (fn_output_types f) j Hj) as [t Ht].
      exists (tmp_buffer f j t). split; [done|].
      apply elem_of_lookup_imap. by exists j, t.
Qed.

(** The annotations of an extern stage. With the memory sanitizer on,
    the stage marks as initialized the descriptor of every input buffer
    and of every output buffer, and the contents of every input buffer,
    where the input buffers are those of the function arguments and of
    the buffer arguments, not those of the image parameters; it
    evaluates nothing else, and nothing at all with the sanitizer off. *)
Theorem extern_stage_annotations f ext target v :
  substmt (Evaluate v) (build_extern_produce f ext target) <->
  MSAN target = true /\
  ((exists buffer,
      (is_input_buffer ext buffer \/ is_output_buffer f buffer) /\
      v = mark_buffer buffer) \/
   (exists buffer, is_input_buffer ext buffer /\ v = mark_contents buffer)).
Proof.
  unfold build_extern_produce.
  rewrite contents_are_inputs.
  pose proof (output_buffers_spec f) as Hout.
  pose proof (input_buffers_spec ext) as Hinp.
  destruct (if bool_decide _ then _ else _) as [output_args lets].
  simpl in Hout.
  set (inputs := concat _) in *.
  set (check := wrap_lets_forward _ _).
  assert (Hcheck : ~ substmt (Evaluate v) check).
  { apply lets_evaluate_nothing. rewrite substmt_inv. simpl.
    intros [?|(c & ->%list_elem_of_singleton & Hc)]; [done|].
    apply substmt_inv in Hc as [?|(c & Hc%elem_of_nil & _)]; done. }
  destruct (MSAN target).
  - pose proof (marks_evaluated mark_contents inputs
                  (foldl (fun acc buffer =>
                            append_stmt acc (Evaluate (mark_buffer buffer)))
                         None (inputs ++ output_args)) v) as Hc.
    pose proof (marks_evaluated mark_buffer (inputs ++ output_args) None v)
      as Hb.
    unfold mark_buffer, mark_contents in *.
    match goal with
    | |- substmt _ (match ?marks with _ => _ end) <-> _ =>
        destruct marks as [a|] eqn:Ha
    end.
    + rewrite substmt_Block. split.
      * intros [?|[Hsub|?]]; [done| |done]. split; [done|].
        destruct (proj1 Hc (ex_intro _ a (conj eq_refl Hsub)))
          as [Hmarks|(b & Hb' & ->)].
        -- apply Hb in Hmarks as [(? & ? & _)|(b & Hb' & ->)]; [done|].
           left. exists b. split; [|done].
           apply elem_of_app in Hb' as [?|?]; [left; by apply Hinp|
                                               right; by apply Hout].
        -- right. exists b. split; [by apply Hinp|done].
      * intros [_ Hv]. right; left.
        assert (exists a', Some a = Some a' /\ substmt (Evaluate v) a')
          as (a' & [= <-] & Hsub); [|done].
        apply Hc. destruct Hv as [(b & Hb' & ->)|(b & Hb' & ->)].
        -- left. apply Hb. right. exists b. split; [|done].
           apply elem_of_app. destruct Hb' as [?|?];
             [left; by apply Hinp|right; by apply Hout].
        -- right. exists b. split; [by apply Hinp|done].
    + split; [done|]. intros [_ Hv]. exfalso.
      assert (exists a', (None : option Stmt) = Some a' /\
                         substmt (Evaluate v) a') as (a' & ? & _); [|done].
      apply Hc. destruct Hv as [(b & Hb' & ->)|(b & Hb' & ->)].
      * left. apply Hb. right. exists b. split; [|done].
        apply elem_of_app. destruct Hb' as [?|?];
          [left; by apply Hinp|right; by apply Hout].
      * right. exists b. split; [by apply Hinp|done].
  - split; [done|]. by intros [? _].
Qed.

End ExternStage.

(* ===================================================================== *)
(** ** The injectors keep the code they are given *)

Section KeepsLeaves.
Context `{Helpers}.

Lemma substmt_keeps_leaves s s' : substmt s s' -> keeps_leaves s s'.
Proof. intros Hsub t _ Ht. by eapply substmt_trans. Qed.

(** Rebuilding a node over children that keep the leaves keeps them. *)
Lemma keeps_leaves_node s s' :
  is_leaf s = false ->
  Forall2 keeps_leaves (stmt_children s) (stmt_children s') ->
  keeps_leaves s s'.
Proof.
  intros Hs Hall t Ht Hsub.
  apply substmt_inv in Hsub as [->|(c & Hc & Hsub)]; [congruence|].
  apply list_elem_of_lookup in Hc as [i Hc].
  destruct (Forall2_lookup_l _ _ _ _ _ Hall Hc) as (c' & Hc' & Hkeep).
  eapply substmt_child; [by eapply list_elem_of_lookup_2|by apply Hkeep].
Qed.

Lemma substmt_wrap_lets lets s : substmt s (wrap_lets lets s).
Proof.
  induction lets as [|l lets IH]; simpl; [constructor|].
  eapply substmt_child; [|exact IH]. simpl. left.
Qed.

Lemma leaf_in_core t s :
  is_leaf t = true -> substmt t s -> substmt t (strip_lets s).2.
Proof.
  intros Ht.
  induction s as [n v b IH|c m|n p b _|n mn ex ft api b _|n vs args
                  |n ts bs c b _|a b _ _|c t' _|c t' e _ _|v] using Stmt_ind';
    try done.
  intros Hsub. simpl. destruct (strip_lets b) as [lets core] eqn:Hb.
  simpl in *. apply IH.
  apply substmt_inv in Hsub as [->|(c & ->%list_elem_of_singleton & Hsub)];
    done.
Qed.

Lemma substmt_explicit_bounds s func : substmt s (inject_explicit_bounds s func).
Proof.
  rewrite inject_explicit_bounds_spec.
  induction (rev (explicit_bound_asserts func)) as [|a l IH]; simpl;
    [constructor|].
  eapply substmt_child; [|exact IH]. simpl. right; left.
Qed.

Lemma substmt_build_realize func is_output target s :
  substmt s (InjectRealization.build_realize func is_output target s).
Proof.
  unfold InjectRealization.build_realize.
  assert (substmt s (if negb is_output
                     then Realize (fn_name func) (fn_output_types func)
                            (InjectRealization.realize_bounds func)
                            const_true s
                     else s)) as Hr.
  { destruct (negb is_output); [|constructor].
    eapply substmt_child; [|constructor]. simpl. left. }
  destruct (NoAsserts target); [done|].
  eapply substmt_trans; [exact Hr|apply substmt_explicit_bounds].
Qed.

Lemma substmt_build_pipeline func target s p :
  InjectRealization.build_pipeline func target s = Some p -> substmt s p.
Proof.
  unfold InjectRealization.build_pipeline.
  destruct (build_production func target) as [realization|]; simpl; [|done].
  intros [= <-].
  eapply substmt_child; [simpl; right; left|].
  eapply substmt_child; [simpl; left|constructor].
Qed.

Section Single.
Variables (func : Function) (is_output : bool) (target : Target)
          (env : gmap string Function).

Lemma at_levels_wraps name body st r :
  InjectRealization.at_levels func is_output target env name body st = Some r ->
  substmt body r.1.
Proof.
  unfold InjectRealization.at_levels. intros Hrun.
  destruct (InjectRealization.at_compute_level func is_output target env
              name body st) as [r1|] eqn:Hc; simpl in Hrun; [|done].
  assert (substmt body r1.1) as H1.
  { unfold InjectRealization.at_compute_level in Hc.
    destruct (level_match_name _ _); [|injection Hc as <-; constructor].
    destruct (InjectRealization.is_the_right_level env name) as [[|]|];
      simpl in Hc; [| |done].
    - destruct (InjectRealization.wants_injection func is_output body).
      + destruct (InjectRealization.build_pipeline func target body)
          as [p|] eqn:Hp; simpl in Hc; [|done].
        injection Hc as <-. by apply substmt_build_pipeline in Hp.
      + simpl in Hc. injection Hc as <-. constructor.
    - injection Hc as <-. constructor. }
  eapply substmt_trans; [exact H1|].
  unfold InjectRealization.at_store_level in Hrun.
  destruct (level_match_name _ _); [|injection Hrun as <-; constructor].
  destruct (InjectRealization.is_the_right_level env name) as [[|]|];
    simpl in Hrun; [| |done].
  - destruct (internal_assert _); simpl in Hrun; [|done].
    injection Hrun as <-. simpl.
    destruct (InjectRealization.wants_injection func is_output r1.1);
      [apply substmt_build_realize|constructor].
  - injection Hrun as <-. constructor.
Qed.

(** The single-function injector drops nothing: every assertion, store
    and evaluation of the statement it is given is found in the
    statement it returns. *)
Theorem inject_realization_keeps_code s st s' st' :
  InjectRealization.mutate func is_output target env s st = Some (s', st') ->
  keeps_leaves s s'.
Proof.
  enough (forall st r,
             InjectRealization.mutate func is_output target env s st = Some r ->
             keeps_leaves s r.1)
    as Hall by (intros Hrun; apply (Hall st (s', st') Hrun)).
  clear st s' st'.
  induction s as [n v b IH|c m|n p b IH|n mn ex ft api b IH|n vs args
                  |n ts bs c b IH|a b IHa IHb|c t IH|c t e IHt IHe|v]
                 using Stmt_core_ind; intros st r Hrun.
  - simpl in Hrun.
    destruct (InjectRealization.mutate _ _ _ _ b st) as [rb|] eqn:Hb;
      simpl in Hrun; [|done].
    injection Hrun as <-. simpl. apply keeps_leaves_node; [done|]. simpl.
    constructor; [by eapply IH|constructor].
  - injection Hrun as <-. by intros t.
  - simpl in Hrun.
    destruct (InjectRealization.mutate _ _ _ _ b st) as [rb|] eqn:Hb;
      simpl in Hrun; [|done].
    injection Hrun as <-. simpl. apply keeps_leaves_node; [done|]. simpl.
    constructor; [by eapply IH|constructor].
  - rewrite inject_realization_for in Hrun.
    destruct (InjectRealization.extern_in_vector_loop _ _ _).
    + destruct (InjectRealization.build_pipeline _ _ _) as [p|] eqn:Hp;
        simpl in Hrun; [|done].
      injection Hrun as <-. simpl. apply substmt_keeps_leaves.
      eapply substmt_trans; [by apply substmt_build_pipeline in Hp|].
      apply substmt_build_realize.
    + unfold under_lets in Hrun.
      destruct (InjectRealization.mutate _ _ _ _ (strip_lets b).2 st)
        as [rc|] eqn:Hc; simpl in Hrun; [|done].
      destruct (InjectRealization.at_levels _ _ _ _ n rc.1 rc.2)
        as [rl|] eqn:Hl; simpl in Hrun; [|done].
      injection Hrun as <-. simpl. apply keeps_leaves_node; [done|]. simpl.
      constructor; [|constructor].
      intros t Ht Hsub. apply leaf_in_core in Hsub; [|done].
      eapply substmt_trans; [|apply substmt_wrap_lets].
      eapply substmt_trans; [|by eapply at_levels_wraps].
      by eapply IH.
  - simpl in Hrun.
    destruct (InjectRealization.inline_update_here _ _ _).
    + destruct (InjectRealization.build_pipeline _ _ _) as [p|] eqn:Hp;
        simpl in Hrun; [|done].
      injection Hrun as <-. simpl. apply substmt_keeps_leaves.
      eapply substmt_trans; [by apply substmt_build_pipeline in Hp|].
      apply substmt_build_realize.
    + injection Hrun as <-. by intros t.
  - simpl in Hrun.
    destruct (InjectRealization.mutate _ _ _ _ b st) as [rb|] eqn:Hb;
      simpl in Hrun; [|done].
    injection Hrun as <-. simpl. apply keeps_leaves_node; [done|]. simpl.
    constructor; [by eapply IH|constructor].
  - simpl in Hrun.
    destruct (InjectRealization.mutate _ _ _ _ a st) as [ra|] eqn:Ha;
      simpl in Hrun; [|done].
    destruct (InjectRealization.mutate _ _ _ _ b ra.2) as [rb|] eqn:Hb;
      simpl in Hrun; [|done].
    injection Hrun as <-. simpl. apply keeps_leaves_node; [done|]. simpl.
    constructor; [by eapply IHa|]. constructor; [by eapply IHb|constructor].
  - simpl in Hrun.
    destruct (InjectRealization.mutate _ _ _ _ t st) as [rt|] eqn:Ht;
      simpl in Hrun; [|done].
    injection Hrun as <-. simpl. apply keeps_leaves_node; [done|]. simpl.
    constructor; [by eapply IH|constructor].
  - simpl in Hrun.
    destruct (InjectRealization.mutate _ _ _ _ t st) as [rt|] eqn:Ht;
      simpl in Hrun; [|done].
    destruct (InjectRealization.mutate _ _ _ _ e rt.2) as [re|] eqn:He;
      simpl in Hrun; [|done].
    injection Hrun as <-. simpl. apply keeps_leaves_node; [done|]. simpl.
    constructor; [by eapply IHt|]. constructor; [by eapply IHe|constructor].
  - injection Hrun as <-. by intros t.
Qed.

End Single.

Section Group.
Variables (group : list Function) (is_output_list : list bool)
          (target : Target) (env : gmap string Function).

Lemma substmt_wrap_markers skip is_producer s r :
  InjectGroupRealization.wrap_markers group skip is_producer s = Some r ->
  substmt s r.
Proof.
  unfold InjectGroupRealization.wrap_markers.
  generalize (rev group) as l. intros l. revert s.
  induction l as [|g l IH]; intros s; simpl; [intros [= <-]; constructor|].
  destruct (skip !! fn_name g) as [[|]|]; simpl; [| |done].
  - apply IH.
  - intros Hr. eapply substmt_trans; [|by apply IH].
    eapply substmt_child; [|constructor]. simpl. left.
Qed.

Lemma substmt_build_pipeline_group s p :
  InjectGroupRealization.build_pipeline_group group is_output_list env s
  = Some p ->
  substmt s p.
Proof.
  unfold InjectGroupRealization.build_pipeline_group.
  destruct (bool_decide _); [intros [= <-]; constructor|].
  destruct (head group) as [parent|]; simpl; [|done].
  destruct (_ !! fn_name parent) as [ps|]; simpl; [|done].
  destruct (internal_assert _); simpl; [|done].
  destruct (InjectGroupRealization.wrap_markers group _ false s)
    as [consume|] eqn:Hc; simpl; [|done].
  destruct (foldlM _ _ group) as [[produce gs]|]; simpl; [|done].
  destruct produce as [produce|]; simpl; [|done].
  destruct (SubstituteBounds.mutate _ _ _) as [r1|]; simpl; [|done].
  match goal with
  | |- context [InjectGroupRealization.replace_parent_bound_with_union_bound
                  ?a ?b ?c ?d ?e] =>
      destruct (InjectGroupRealization.replace_parent_bound_with_union_bound
                  a b c d e) as [[p2|]|]
  end; simpl; try done.
  match goal with
  | |- context [InjectGroupRealization.wrap_markers ?a ?b true ?c] =>
      destruct (InjectGroupRealization.wrap_markers a b true c) as [p3|]
  end; simpl; [|done].
  intros [= <-].
  eapply substmt_child; [simpl; right; left|].
  by apply substmt_wrap_markers in Hc.
Qed.

Lemma substmt_build_realize_group s :
  substmt s (InjectGroupRealization.build_realize_group
               group is_output_list target s).
Proof.
  unfold InjectGroupRealization.build_realize_group.
  generalize (rev (zip group is_output_list)) as l. intros l. revert s.
  induction l as [|g l IH]; intros s; simpl; [constructor|].
  eapply substmt_trans; [|apply IH].
  destruct (_ || _); [apply substmt_build_realize|constructor].
Qed.

Lemma group_at_levels_wraps name body st r :
  InjectGroupRealization.at_levels group is_output_list target env name body st
  = Some r ->
  substmt body r.1.
Proof.
  unfold InjectGroupRealization.at_levels. intros Hrun.
  destruct (level_match_name (InjectGroupRealization.compute_at group) name).
  - destruct (InjectGroupRealization.build_pipeline_group _ _ _ body)
      as [body1|] eqn:Hp; simpl in Hrun; [|done].
    apply substmt_build_pipeline_group in Hp.
    destruct (level_match_name (InjectGroupRealization.store_at group) name);
      simpl in Hrun; injection Hrun as <-; simpl; [|done].
    eapply substmt_trans; [exact Hp|apply substmt_build_realize_group].
  - simpl in Hrun.
    destruct (level_match_name (InjectGroupRealization.store_at group) name).
    + destruct (found_compute_level st); simpl in Hrun; [|done].
      injection Hrun as <-. simpl. apply substmt_build_realize_group.
    + injection Hrun as <-. constructor.
Qed.

(** The group injector drops nothing: every assertion, store and
    evaluation of the statement it is given is found in the statement it
    returns. *)
Theorem inject_group_keeps_code s st s' st' :
  InjectGroupRealization.mutate group is_output_list target env s st
  = Some (s', st') ->
  keeps_leaves s s'.
Proof.
  enough (forall st r,
             InjectGroupRealization.mutate group is_output_list target env s st
             = Some r ->
             keeps_leaves s r.1)
    as Hall by (intros Hrun; apply (Hall st (s', st') Hrun)).
  clear st s' st'.
  induction s as [n v b IH|c m|n p b IH|n mn ex ft api b IH|n vs args
                  |n ts bs c b IH|a b IHa IHb|c t IH|c t e IHt IHe|v]
                 using Stmt_core_ind; intros st r Hrun.
  - simpl in Hrun.
    destruct (InjectGroupRealization.mutate _ _ _ _ b st) as [rb|] eqn:Hb;
      simpl in Hrun; [|done].
    injection Hrun as <-. simpl. apply keeps_leaves_node; [done|]. simpl.
    constructor; [by eapply IH|constructor].
  - injection Hrun as <-. by intros t.
  - simpl in Hrun.
    destruct (InjectGroupRealization.mutate _ _ _ _ b st) as [rb|] eqn:Hb;
      simpl in Hrun; [|done].
    injection Hrun as <-. simpl. apply keeps_leaves_node; [done|]. simpl.
    constructor; [by eapply IH|constructor].
  - rewrite inject_group_for in Hrun.
    unfold under_lets in Hrun.
    destruct (InjectGroupRealization.mutate _ _ _ _ (strip_lets b).2 st)
      as [rc|] eqn:Hc; simpl in Hrun; [|done].
    destruct (InjectGroupRealization.at_levels _ _ _ _ n rc.1 rc.2)
      as [rl|] eqn:Hl; simpl in Hrun; [|done].
    injection Hrun as <-. simpl. apply keeps_leaves_node; [done|]. simpl.
    constructor; [|constructor].
    intros t Ht Hsub. apply leaf_in_core in Hsub; [|done].
    eapply substmt_trans; [|apply substmt_wrap_lets].
    eapply substmt_trans; [|by eapply group_at_levels_wraps].
    by eapply IH.
  - injection Hrun as <-. by intros t.
  - simpl in Hrun.
    destruct (InjectGroupRealization.mutate _ _ _ _ b st) as [rb|] eqn:Hb;
      simpl in Hrun; [|done].
    injection Hrun as <-. simpl. apply keeps_leaves_node; [done|]. simpl.
    constructor; [by eapply IH|constructor].
  - simpl in Hrun.
    destruct (InjectGroupRealization.mutate _ _ _ _ a st) as [ra|] eqn:Ha;
      simpl in Hrun; [|done].
    destruct (InjectGroupRealization.mutate _ _ _ _ b ra.2) as [rb|] eqn:Hb;
      simpl in Hrun; [|done].
    injection Hrun as <-. simpl. apply keeps_leaves_node; [done|]. simpl.
    constructor; [by eapply IHa|]. constructor; [by eapply IHb|constructor].
  - simpl in Hrun.
    destruct (InjectGroupRealization.mutate _ _ _ _ t st) as [rt|] eqn:Ht;
      simpl in Hrun; [|done].
    injection Hrun as <-. simpl. apply keeps_leaves_node; [done|]. simpl.
    constructor; [by eapply IH|constructor].
  - simpl in Hrun.
    destruct (InjectGroupRealization.mutate _ _ _ _ t st) as [rt|] eqn:Ht;
      simpl in Hrun; [|done].
    destruct (InjectGroupRealization.mutate _ _ _ _ e rt.2) as [re|] eqn:He;
      simpl in Hrun; [|done].
    injection Hrun as <-. simpl. apply keeps_leaves_node; [done|]. simpl.
    constructor; [by eapply IHt|]. constructor; [by eapply IHe|constructor].
  - injection Hrun as <-. by intros t.
Qed.

End Group.
End KeepsLeaves.

Lemma inject_realization_keeps_code_witness :
  substmt Examples.call_g Examples.g_injected.1.
Proof.
  apply (inject_realization_keeps_code (H := Reference.helpers)
           Examples.g_at_f_x false Examples.target_host Examples.env_fg
           Examples.g_used_in_f (mkFound false false)
           Examples.g_injected.1 Examples.g_injected.2).
  - vm_compute. reflexivity.
  - reflexivity.
  - eapply substmt_child; [simpl; left|].
    eapply substmt_child; [simpl; left|]. constructor.
Defined.

Lemma inject_group_keeps_code_witness :
  substmt Examples.consumer_of_f_g Examples.group_injected.1.
Proof.
  apply (inject_group_keeps_code (H := Reference.helpers)
           [Examples.f_parent; Examples.g_child] [false; false]
           Examples.target_host Examples.env_group
           Examples.group_consumer (mkFound false false)
           Examples.group_injected.1 Examples.group_injected.2).
  - vm_compute. reflexivity.
  - reflexivity.
  - eapply substmt_child; [simpl; left|]. constructor.
Defined.
